(** * SharpKnight parameter tuner: PBIL over 16-bit parameter codes

    A shallow embedding of [Meta/engine_parameter_tuning.py]: the
    [Parameter] codec ([encode] / [decode]), the [PBIL] probability model
    ([generate_population], [decode_individual], [update_probabilities]),
    the evaluator and the generation loop of [main].

    Numbers.  The numbers of a [Parameter] and of its codec are Python
    numbers, [pynum]: an [int] is a [Z], and a [float] is a binary64
    number, an infinity or a NaN.  Every operator of [encode] and
    [decode] is transcribed with Python's rules: two ints are combined
    exactly, an int next to a float is converted first (an
    [OverflowError] when it is too large), a float operation rounds its
    exact result to the nearest binary64 number, ties to even, and
    overflows to an infinity without raising; [int] and [round] raise on
    an infinity and on a NaN.  The sign of a zero is not kept: no
    statement below depends on it.  The probabilities of the model, the
    scores of the tournament and the draws of [random] are exact
    rationals [Q], compared with [Qeq] ([==]).

    Effects.  Exceptions are values of [result]; the random source, the
    external tournament and the JSON log are threaded explicitly. *)

From Stdlib Require Import ZArith QArith Qround Qabs Qpower Lqa Lia List Ascii String.
From Stdlib Require Import Sorted Morphisms.
From stdpp Require Import base list strings gmap.
Import ListNotations.

Local Open Scope Q_scope.

(** ** Exceptions *)

Inductive exn : Set :=
| ZeroDivisionError
| ValueError
| IndexError
| OverflowError.

Inductive result (A : Type) : Type :=
| Ok (a : A)
| Raise (e : exn).
Arguments Ok {A} a.
Arguments Raise {A} e.

Definition bind {A B : Type} (m : result A) (k : A -> result B) : result B :=
  match m with
  | Ok a => k a
  | Raise e => Raise e
  end.

Notation "'do' x <- m ; k" := (bind m (fun x => k))
  (at level 10, x pattern, m at level 100, k at level 200,
   format "'do'  x  <-  m ; '//' k").

(** [seq[i]] on a Python list or a numpy array, for [i >= 0]. *)
Definition index {A : Type} (l : list A) (i : nat) : result A :=
  match l !! i with
  | Some a => Ok a
  | None => Raise IndexError
  end.

(** ** Python numbers *)

(** [int(x)] on a finite float: truncation toward zero. *)
Definition py_int (x : Q) : Z := Z.quot (Qnum x) (Zpos (Qden x)).

(** [round(x)] on a finite float, no [ndigits]: nearest integer, ties
    to even. *)
Definition py_round (x : Q) : Z :=
  let f := Qfloor x in
  match Qcompare (x - inject_Z f) (1 # 2) with
  | Lt => f
  | Gt => (f + 1)%Z
  | Eq => if Z.even f then f else (f + 1)%Z
  end.

(** [True * r] is [r] and [False * r] is [0]; [bit] is the number a Python
    [bool] stands for in arithmetic. *)
Definition bit (b : bool) : Q := if b then 1 else 0.

(** *** binary64

    A float is a rational of the form [m * 2^e] with [|m| < 2^53] and
    [e >= -1074], below [2^1024] in magnitude.  [round64 x] is the
    nearest such number to [x], ties to the even significand. *)

Definition pow2 (e : Z) : Q := Qpower 2 e.

(** The exponent [k] with [2^k <= |x| < 2^(k+1)], for [x] other than 0. *)
Definition ilog2 (x : Q) : Z :=
  let k := (Z.log2 (Z.abs (Qnum x)) - Z.log2 (Zpos (Qden x)))%Z in
  if Qle_bool (pow2 k) (Qabs x) then k else (k - 1)%Z.

(** The exponent of the last place of [x]: 52 places below its leading
    bit, and never below the last place of the subnormal numbers. *)
Definition qexp (x : Q) : Z := Z.max (ilog2 x - 52) (-1074).

Definition round64 (x : Q) : Q :=
  let e := Z.max (ilog2 x - 52) (-1074) in
  Qred (inject_Z (py_round (x / pow2 e)) * pow2 e).

Inductive pyfloat : Set :=
| Finite (x : Q)
| Infinite (negative : bool)
| NaN.

(** The float an exact result becomes: rounded, and an infinity when the
    rounded number reaches [2^1024]. *)
Definition fl (x : Q) : pyfloat :=
  let r := round64 x in
  if Qle_bool (pow2 1024) (Qabs r) then Infinite (negb (Qle_bool 0 r))
  else Finite r.

Definition is_zero (x : Q) : bool := Qeq_bool x 0.
Definition is_neg (x : Q) : bool := negb (Qle_bool 0 x).

Definition float_add (x y : pyfloat) : pyfloat :=
  match x, y with
  | NaN, _ | _, NaN => NaN
  | Infinite s, Infinite s' => if Bool.eqb s s' then Infinite s else NaN
  | Infinite s, Finite _ => Infinite s
  | Finite _, Infinite s => Infinite s
  | Finite a, Finite b => fl (a + b)
  end.

Definition float_sub (x y : pyfloat) : pyfloat :=
  match x, y with
  | NaN, _ | _, NaN => NaN
  | Infinite s, Infinite s' => if Bool.eqb s s' then NaN else Infinite s
  | Infinite s, Finite _ => Infinite s
  | Finite _, Infinite s => Infinite (negb s)
  | Finite a, Finite b => fl (a - b)
  end.

Definition float_mul (x y : pyfloat) : pyfloat :=
  match x, y with
  | NaN, _ | _, NaN => NaN
  | Infinite s, Infinite s' => Infinite (xorb s s')
  | Infinite s, Finite b => if is_zero b then NaN else Infinite (xorb s (is_neg b))
  | Finite a, Infinite s => if is_zero a then NaN else Infinite (xorb (is_neg a) s)
  | Finite a, Finite b => fl (a * b)
  end.

(** Python raises on a zero divisor before it looks at the dividend. *)
Definition float_div (x y : pyfloat) : result pyfloat :=
  match x, y with
  | _, Finite b =>
      if is_zero b then Raise ZeroDivisionError
      else match x with
           | Finite a => Ok (fl (a / b))
           | Infinite s => Ok (Infinite (xorb s (is_neg b)))
           | NaN => Ok NaN
           end
  | NaN, _ | _, NaN => Ok NaN
  | Infinite _, Infinite _ => Ok NaN
  | Finite _, Infinite _ => Ok (Finite 0)
  end.

(** *** ints and floats together *)

Inductive pynum : Set :=
| PyInt (n : Z)
| PyFloat (x : pyfloat).

(** The conversion of an operand that stands next to a float:
    [float(n)] for an int, an [OverflowError] from [2^1024] on. *)
Definition to_float (v : pynum) : result pyfloat :=
  match v with
  | PyFloat x => Ok x
  | PyInt n =>
      match fl (inject_Z n) with
      | Finite x => Ok (Finite x)
      | _ => Raise OverflowError
      end
  end.

(** [x + y], [x - y], [x * y]. *)
Definition py_add (x y : pynum) : result pynum :=
  match x, y with
  | PyInt a, PyInt b => Ok (PyInt (a + b))
  | _, _ => do a <- to_float x; do b <- to_float y; Ok (PyFloat (float_add a b))
  end.

Definition py_sub (x y : pynum) : result pynum :=
  match x, y with
  | PyInt a, PyInt b => Ok (PyInt (a - b))
  | _, _ => do a <- to_float x; do b <- to_float y; Ok (PyFloat (float_sub a b))
  end.

Definition py_mul (x y : pynum) : result pynum :=
  match x, y with
  | PyInt a, PyInt b => Ok (PyInt (a * b))
  | _, _ => do a <- to_float x; do b <- to_float y; Ok (PyFloat (float_mul a b))
  end.

(** [x / y]: the quotient of two ints is rounded once, from the exact
    quotient, and raises [OverflowError] when it is too large. *)
Definition py_truediv (x y : pynum) : result pynum :=
  match x, y with
  | PyInt a, PyInt b =>
      if (b =? 0)%Z then Raise ZeroDivisionError
      else match fl (inject_Z a / inject_Z b) with
           | Finite q => Ok (PyFloat (Finite q))
           | _ => Raise OverflowError
           end
  | _, _ =>
      do a <- to_float x; do b <- to_float y;
      do q <- float_div a b; Ok (PyFloat q)
  end.

(** [int(x)]. *)
Definition int_of_number (x : pynum) : result Z :=
  match x with
  | PyInt n => Ok n
  | PyFloat (Finite a) => Ok (py_int a)
  | PyFloat (Infinite _) => Raise OverflowError
  | PyFloat NaN => Raise ValueError
  end.

(** [round(x)], which returns an int. *)
Definition round_number (x : pynum) : result pynum :=
  match x with
  | PyInt n => Ok (PyInt n)
  | PyFloat (Finite a) => Ok (PyInt (py_round a))
  | PyFloat (Infinite _) => Raise OverflowError
  | PyFloat NaN => Raise ValueError
  end.

(** ** Text: [format(n, '016b')] and [int(s, 2)] *)

Fixpoint bin_pos (p : positive) : list ascii :=
  match p with
  | xH => ["1"%char]
  | xO p' => bin_pos p' ++ ["0"%char]
  | xI p' => bin_pos p' ++ ["1"%char]
  end.

(** The digits of [abs n] in base two, as [format(abs(n), 'b')]. *)
Definition bin_digits (n : Z) : list ascii :=
  match n with
  | Z0 => ["0"%char]
  | Zpos p => bin_pos p
  | Zneg p => bin_pos p
  end.

(** [format(n, '016b')]: sign-aware zero padding to a width of at least
    16 characters; a negative number keeps its ["-"] in front. *)
Definition format_016b (n : Z) : list ascii :=
  let sign := if (n <? 0)%Z then ["-"%char] else [] in
  let digits := bin_digits n in
  sign ++ repeat "0"%char (16 - length sign - length digits) ++ digits.

Fixpoint int2_digits (acc : Z) (s : list ascii) : result Z :=
  match s with
  | [] => Ok acc
  | c :: s' =>
      if Ascii.eqb c "0" then int2_digits (2 * acc)%Z s'
      else if Ascii.eqb c "1" then int2_digits (2 * acc + 1)%Z s'
      else Raise ValueError
  end.

(** [int(s, 2)] on the strings [decode] builds, which hold only ["0"] and
    ["1"]; the empty string is a [ValueError]. *)
Definition int_base2 (s : list ascii) : result Z :=
  match s with
  | [] => Raise ValueError
  | _ => int2_digits 0%Z s
  end.

(** ** Parameter

    The dataclass [Parameter]; the record is called [Param] because
    the source's name is a reserved word here.  The annotations of the
    three numbers say [float], and [extract_uci_parameters] stores
    ints: a field holds either. *)

Record Param : Type := {
  name : string;
  min_value : pynum;
  max_value : pynum;
  default_value : pynum;
  is_integer : bool
}.

(** [Parameter.encode]. *)
Definition encode (self : Param) (value : pynum) : result (list bool) :=
  do shifted <- py_sub value (min_value self);
  do width <- py_sub (max_value self) (min_value self);
  do normalized <- py_truediv shifted width;
  do scaled <- py_mul normalized (PyInt 65535);
  do n <- int_of_number scaled;
  let binary := format_016b n in
  Ok (map (fun c => Ascii.eqb c "1") binary).

(** [Parameter.decode]. *)
Definition decode (self : Param) (bits : list bool) : result pynum :=
  let binary_str :=
    concat (map (fun b : bool => if b then ["1"%char] else ["0"%char]) bits) in
  do n <- int_base2 binary_str;
  do normalized <- py_truediv (PyInt n) (PyInt 65535);
  do width <- py_sub (max_value self) (min_value self);
  do offset <- py_mul normalized width;
  do value <- py_add (min_value self) offset;
  if is_integer self then round_number value else Ok value.

(** ** The random source

    [random.random()] and [random._randbelow(n)] read and advance the
    state of Python's generator; [rng] is that state. *)

Class RandomSource (rng : Type) : Type := {
  random : rng -> Q * rng;
  randbelow : nat -> rng -> nat * rng
}.

(** What the [random] module promises of the two draws. *)
Definition random_in_unit {rng : Type} `{RandomSource rng} : Prop :=
  forall s : rng, 0 <= fst (random s) /\ fst (random s) < 1.

Definition randbelow_in_range {rng : Type} `{RandomSource rng} : Prop :=
  forall (n : nat) (s : rng), (0 < n)%nat -> (fst (randbelow n s) < n)%nat.

(** [x < y] on floats. *)
Definition Qltb (x y : Q) : bool := negb (Qle_bool y x).

(** [for i in range(n): body], with the loop's variables in [st]. *)
Fixpoint for_each {St : Type} (body : nat -> St -> result St)
    (indices : list nat) (st : St) : result St :=
  match indices with
  | [] => Ok st
  | i :: rest => do st' <- body i st; for_each body rest st'
  end.

Definition range (n : nat) : list nat := seq 0 n.

(** [l[a:b]] for [0 <= a <= b]; a slice never raises. *)
Definition slice {A : Type} (l : list A) (a b : nat) : list A :=
  take (b - a) (drop a l).

(** ** PBIL *)

Record PBIL : Type := {
  parameters : list Param;
  total_bits : nat;
  prob_vector : list Q;
  learn_rate : Q;
  neg_learn_rate : Q;
  mut_prob : Q;
  mut_shift : Q
}.

Definition set_prob_vector (self : PBIL) (pv : list Q) : PBIL :=
  {| parameters := parameters self; total_bits := total_bits self;
     prob_vector := pv; learn_rate := learn_rate self;
     neg_learn_rate := neg_learn_rate self; mut_prob := mut_prob self;
     mut_shift := mut_shift self |}.

(** [PBIL.__init__]: no statement of the constructor can raise. *)
Definition PBIL_init (parameters : list Param)
    (learn_rate neg_learn_rate mut_prob mut_shift : Q) : PBIL :=
  let total_bits := (length parameters * 16)%nat in
  {| parameters := parameters; total_bits := total_bits;
     prob_vector := repeat (1 # 2) total_bits;
     learn_rate := learn_rate; neg_learn_rate := neg_learn_rate;
     mut_prob := mut_prob; mut_shift := mut_shift |}.

(** The constructor's default arguments: 0.1, 0.075, 0.02, 0.05. *)
Definition PBIL_default (parameters : list Param) : PBIL :=
  PBIL_init parameters (1 # 10) (3 # 40) (1 # 50) (1 # 20).

(** A dictionary from parameter names to decoded values. *)
Abbreviation Configuration := (gmap string pynum).

Section Model.
Context {rng : Type} `{RandomSource rng}.

(** [random.choice(seq)] is [seq[self._randbelow(len(seq))]]. *)
Definition choice {A : Type} (seq : list A) (s : rng) : result (A * rng) :=
  match seq with
  | [] => Raise IndexError
  | _ => let '(i, s') := randbelow (length seq) s in
         do a <- index seq i; Ok (a, s')
  end.

(** One individual: [[random.random() < p for p in self.prob_vector]]. *)
Fixpoint sample (pv : list Q) (s : rng) : list bool * rng :=
  match pv with
  | [] => ([], s)
  | p :: pv' =>
      let '(r, s1) := random s in
      let '(bits, s2) := sample pv' s1 in
      (Qltb r p :: bits, s2)
  end.

(** [PBIL.generate_population]. *)
Fixpoint generate_population (self : PBIL) (size : nat) (s : rng)
    : list (list bool) * rng :=
  match size with
  | O => ([], s)
  | S size' =>
      let '(individual, s1) := sample (prob_vector self) s in
      let '(rest, s2) := generate_population self size' s1 in
      (individual :: rest, s2)
  end.

(** The dict comprehension of [decode_individual], from position [i]. *)
Fixpoint decode_from (i : nat) (params : list Param)
    (individual : list bool) (acc : Configuration) : result Configuration :=
  match params with
  | [] => Ok acc
  | param :: rest =>
      do v <- decode param (slice individual (i * 16) ((i + 1) * 16));
      decode_from (S i) rest individual (<[name param := v]> acc)
  end.

(** [PBIL.decode_individual]. *)
Definition decode_individual (self : PBIL) (individual : list bool)
    : result Configuration :=
  decode_from 0 (parameters self) individual ∅.

(** Body of the first loop of [update_probabilities]. *)
Definition learn_at (self : PBIL) (best worst : list bool)
    (i : nat) (pv : list Q) : result (list Q) :=
  do b <- index best i;
  do w <- index worst i;
  if Bool.eqb b w then
    do p <- index pv i;
    Ok (<[i := p * (1 - learn_rate self) + bit b * learn_rate self]> pv)
  else
    let learn_rate2 := learn_rate self + neg_learn_rate self in
    do p <- index pv i;
    Ok (<[i := p * (1 - learn_rate2) + bit b * learn_rate2]> pv).

(** Body of the second loop: the mutation of position [i]. *)
Definition mutate_at (self : PBIL) (i : nat) (st : list Q * rng)
    : result (list Q * rng) :=
  let '(pv, s) := st in
  let '(r, s1) := random s in
  if Qltb r (mut_prob self) then
    do p <- index pv i;
    do c <- choice [0%Z; 1%Z] s1;
    let '(t, s2) := c in
    Ok (<[i := p * (1 - mut_shift self) + inject_Z t * mut_shift self]> pv, s2)
  else Ok (pv, s1).

(** [PBIL.update_probabilities]: the model object after the call, and
    the random source after it. *)
Definition update_probabilities (self : PBIL) (best worst : list bool)
    (s : rng) : result (PBIL * rng) :=
  do pv1 <- for_each (learn_at self best worst)
              (range (total_bits self)) (prob_vector self);
  do st <- for_each (mutate_at self) (range (total_bits self)) (pv1, s);
  let '(pv2, s') := st in
  Ok (set_prob_vector self pv2, s').

End Model.

(** ** Text of the tournament output *)

(** [str.isspace] on one character with a code below 256. *)
Definition is_space (c : ascii) : bool :=
  let n := nat_of_ascii c in
  ((9 <=? n) && (n <=? 13) || (28 <=? n) && (n <=? 32)
   || (n =? 133) || (n =? 160))%nat.

Fixpoint lstrip (s : list ascii) : list ascii :=
  match s with
  | [] => []
  | c :: s' => if is_space c then lstrip s' else s
  end.

(** [s.strip()]. *)
Definition strip (s : list ascii) : list ascii :=
  rev (lstrip (rev (lstrip s))).

(** [s.split(sep)] for a separator of one character. *)
Fixpoint split_on (sep : ascii) (s : list ascii) : list (list ascii) :=
  match s with
  | [] => [[]]
  | c :: s' =>
      if Ascii.eqb c sep then [] :: split_on sep s'
      else match split_on sep s' with
           | [] => [[c]]
           | w :: ws => (c :: w) :: ws
           end
  end.

(** [s.split()]: the maximal runs of characters that are not white space;
    [cur] is the run being read, last character first. *)
Fixpoint split_ws (cur : list ascii) (s : list ascii) : list (list ascii) :=
  match s with
  | [] => match cur with [] => [] | _ => [rev cur] end
  | c :: s' =>
      if is_space c then
        match cur with [] => split_ws [] s' | _ => rev cur :: split_ws [] s' end
      else split_ws (c :: cur) s'
  end.

Fixpoint startswith (s prefix : list ascii) : bool :=
  match prefix, s with
  | [], _ => true
  | _ :: _, [] => false
  | p :: prefix', c :: s' => Ascii.eqb c p && startswith s' prefix'
  end.

Fixpoint lstrip_char (ch : ascii) (s : list ascii) : list ascii :=
  match s with
  | [] => []
  | c :: s' => if Ascii.eqb c ch then lstrip_char ch s' else s
  end.

(** [s.rstrip(ch)] for a set of one character. *)
Definition rstrip_char (ch : ascii) (s : list ascii) : list ascii :=
  rev (lstrip_char ch (rev s)).

(** The first index whose element satisfies [P], counted from [i];
    [-1] when there is none, as [next(..., -1)] in the source. *)
Fixpoint first_index {A : Type} (P : A -> bool) (i : Z) (l : list A) : Z :=
  match l with
  | [] => (-1)%Z
  | a :: l' => if P a then i else first_index P (i + 1)%Z l'
  end.

(** ** EngineEvaluator

    The tournament is an external process.  [subprocess_run configs w] is
    [subprocess.run(cmd, check=True)] in the world [w], for the command
    line [run_tournament] builds from [configs]: the text of its standard
    output, or [None] for a [CalledProcessError].  [float_of_string] is
    Python's [float(s)], [None] for a [ValueError]. *)

Class Host (world : Type) : Type := {
  float_of_string : list ascii -> option Q;
  subprocess_run : list Configuration -> world -> option (list ascii) * world
}.

Record EngineEvaluator : Type := {
  engine_path : string;
  cutechess_cli : string;
  ev_parameters : list Param;
  default_params : Configuration
}.

(** [EngineEvaluator.__init__]; [uci_parameters] is what
    [extract_uci_parameters] read from the engine. *)
Definition EngineEvaluator_init (engine_path cutechess_cli : string)
    (uci_parameters : list Param) : EngineEvaluator :=
  {| engine_path := engine_path; cutechess_cli := cutechess_cli;
     ev_parameters := uci_parameters;
     default_params :=
       fold_left (fun d param => <[name param := default_value param]> d)
                 uci_parameters ∅ |}.

Section Evaluator.
Context {world : Type} `{Host world}.

(** [float(parts[-2].rstrip('%'))]: [None] when the [try] block raises
    [IndexError] or [ValueError]. *)
Definition score_of_line (line : list ascii) : option Q :=
  let parts := split_ws [] line in
  if (length parts <? 2)%nat then None
  else match parts !! (length parts - 2)%nat with
       | Some field => float_of_string (rstrip_char "%" field)
       | None => None
       end.

(** The [while] loop of [parse_tournament_results], on the lines from
    index [i] on: it stops at the first blank line or at the end. *)
Fixpoint scan_scores (lines : list (list ascii)) : list Q :=
  match lines with
  | [] => []
  | line :: rest =>
      match strip line with
      | [] => []
      | _ => match score_of_line line with
             | Some score => (score / 100) :: scan_scores rest
             | None => scan_scores rest
             end
      end
  end.

(** [EngineEvaluator.parse_tournament_results]. *)
Definition parse_tournament_results (output : list ascii) : list Q :=
  let lines := split_on "010" (strip output) in
  let rankings_start :=
    first_index (fun line => startswith line (list_ascii_of_string "Rank Name"))
                0%Z lines in
  if (rankings_start =? -1)%Z then []
  else scan_scores (drop (Z.to_nat (rankings_start + 1)) lines).

(** [EngineEvaluator.run_tournament]. *)
Definition run_tournament (configs : list Configuration) (w : world)
    : list Q * world :=
  match subprocess_run configs w with
  | (Some stdout, w') => (parse_tournament_results stdout, w')
  | (None, w') => (repeat 0 (length configs), w')
  end.

End Evaluator.

(** ** The driver *)

(** [np.argsort(a)]: the indices of [a] in ascending order of value, here
    by a stable insertion; the order among equal scores is not used by
    any statement below. *)
Fixpoint argsort_insert (a : list Q) (i : nat) (sorted : list nat) : list nat :=
  match sorted with
  | [] => [i]
  | j :: rest =>
      if Qltb (nth i a 0) (nth j a 0) then i :: sorted
      else j :: argsort_insert a i rest
  end.

Definition argsort (a : list Q) : list nat :=
  fold_left (fun sorted i => argsort_insert a i sorted) (seq 0 (length a)) [].

Record GenerationRecord : Type := {
  generation : nat;
  rec_parameters : Configuration;
  score : Q;
  default_score : Q
}.

(** The variables of [main] that outlive one turn of its loop: the model
    object, the random source, the world of the tournament, and the
    content of [parameter_tuning_log.json]. *)
Record Driver (rng world : Type) : Type := {
  pbil : PBIL;
  rand : rng;
  env : world;
  results_file : list GenerationRecord
}.
Arguments pbil {rng world} _.
Arguments rand {rng world} _.
Arguments env {rng world} _.
Arguments results_file {rng world} _.

(** A list comprehension whose element expression can raise. *)
Fixpoint for_list {A B : Type} (f : A -> result B) (l : list A) : result (list B) :=
  match l with
  | [] => Ok []
  | a :: l' => do b <- f a; do bs <- for_list f l'; Ok (b :: bs)
  end.

Section Main.
Context {rng : Type} `{RandomSource rng} {world : Type} `{Host world}.

(** One turn of [for generation in range(10)]. *)
Definition main_body (evaluator : EngineEvaluator) (generation : nat)
    (st : Driver rng world) : result (Driver rng world) :=
  let '(population, s1) := generate_population (pbil st) 3 (rand st) in
  do decoded <- for_list (decode_individual (pbil st)) population;
  let configurations := default_params evaluator :: decoded in
  let '(fitness_scores, w1) := run_tournament configurations (env st) in
  let sorted_indices := rev (argsort fitness_scores) in
  do best_index <- index sorted_indices 0;
  do best_params <- index configurations best_index;
  do best_score <- index fitness_scores best_index;
  do default_score <- index fitness_scores 0;
  let data := results_file st in
  let data := data ++ [{| generation := generation;
                          rec_parameters := best_params;
                          score := best_score;
                          default_score := default_score |}] in
  Ok {| pbil := pbil st; rand := s1; env := w1; results_file := data |}.

(** [main], after the command line is read and the engine has declared
    [uci_parameters]. *)
Definition main (engine_path cutechess_cli : string)
    (uci_parameters : list Param) (s : rng) (w : world)
    : result (Driver rng world) :=
  let evaluator := EngineEvaluator_init engine_path cutechess_cli uci_parameters in
  let parameters := ev_parameters evaluator in
  let pbil := PBIL_default parameters in
  for_each (main_body evaluator) (range 10)
    {| pbil := pbil; rand := s; env := w; results_file := [] |}.

End Main.

(** ** Vocabulary of the statements *)

(** The functions [decode] and [encode] map over their lists, and one
    step of reading a binary number. *)
Abbreviation bit_char := (fun b : bool => if b then ["1"%char] else ["0"%char]).
Abbreviation is_one := (fun c : ascii => Ascii.eqb c "1").
Abbreviation shift_in :=
  (fun (a : Z) (b : bool) => (2 * a + (if b then 1 else 0))%Z).

(** The unsigned integer a list of bits stands for, first bit highest. *)
Definition bits_value (bits : list bool) : Z :=
  fold_left (fun (a : Z) (b : bool) => (2 * a + (if b then 1 else 0))%Z) bits 0%Z.

(** [decode(encode(v))]. *)
Definition roundtrip (self : Param) (v : pynum) : result pynum :=
  do bits <- encode self v; decode self bits.

(** The number a Python value stands for; an infinity and a NaN stand
    for none, and [finite] rules them out. *)
Definition value_of (v : pynum) : Q :=
  match v with
  | PyInt n => inject_Z n
  | PyFloat (Finite x) => x
  | PyFloat _ => 0
  end.

Definition finite (v : pynum) : Prop :=
  match v with
  | PyInt _ | PyFloat (Finite _) => True
  | PyFloat _ => False
  end.

Definition is_int (v : pynum) : Prop := exists k : Z, v = PyInt k.

Definition whole (x : Q) : Prop := exists z : Z, x == inject_Z z.

(** A binary64 number: one that rounding leaves as it is. *)
Definition binary64 (x : Q) : Prop := round64 x == x.

(** An int or a finite float of magnitude at most [2^k]. *)
Definition bounded_by (k : Z) (v : pynum) : Prop :=
  finite v /\ Qabs (value_of v) <= pow2 k.

(** An int or a finite float of magnitude at most [2^1000]: far from
    the overflow of the arithmetic of the codec. *)
Definition bounded (v : pynum) : Prop :=
  finite v /\ Qabs (value_of v) <= pow2 1000.

(** A bounded number whose value is a binary64 number: every float is
    one, and an int is one when [float(n) == n]. *)
Definition representable (v : pynum) : Prop :=
  bounded v /\ binary64 (value_of v).

(** A number that goes through the arithmetic of the codec as a float
    does: a float, or an int of magnitude at most [2^52], so that the
    difference of two such ints is converted exactly. *)
Definition plain (v : pynum) : Prop :=
  representable v
  /\ match v with
     | PyInt n => (Z.abs n <= 2 ^ 52)%Z
     | PyFloat _ => True
     end.

(** A parameter whose bounds are the whole numbers [a] and [b], given as
    ints or as floats. *)
Definition whole_bounds (self : Param) (a b : Z) : Prop :=
  finite (min_value self) /\ finite (max_value self)
  /\ value_of (min_value self) == inject_Z a
  /\ value_of (max_value self) == inject_Z b.

(** A parameter space whose bounds are all bounded numbers. *)
Definition bounded_space (params : list Param) : Prop :=
  Forall (fun p => bounded (min_value p) /\ bounded (max_value p)) params.

(** The float a Python literal stands for. *)
Definition literal (x : Q) : pynum := PyFloat (fl x).

(** The same whole number as an int or as a float. *)
Definition number (as_float : bool) (k : Z) : pynum :=
  if as_float then PyFloat (Finite (inject_Z k)) else PyInt k.

(** [float(v)] for a bounded number: the nearest binary64 number to an
    int, and a float as it is. *)
Definition float_value (v : pynum) : Q :=
  match v with
  | PyInt n => round64 (inject_Z n)
  | PyFloat (Finite x) => x
  | PyFloat _ => 0
  end.

(** What [x - y] returns for bounded numbers: the exact difference of
    two ints, and otherwise the difference of the two floats, rounded. *)
Definition sub_result (x y : pynum) : pynum :=
  match x, y with
  | PyInt a, PyInt b => PyInt (a - b)
  | _, _ => PyFloat (Finite (round64 (float_value x - float_value y)))
  end.

(** The number [decode] computes before it rounds for an integer
    parameter: [a] is [float(min_value)], [r] the float of
    [max_value - min_value], [n] the integer of the bits. *)
Definition decode_value (a r : Q) (n : Z) : Q :=
  round64 (a + round64 (round64 (inject_Z n / 65535) * r)).

Definition decoded (self : Param) (n : Z) : Q :=
  decode_value (float_value (min_value self))
    (float_value (sub_result (max_value self) (min_value self))) n.

(** The integer [encode] formats, from the two operands of its
    division: [int(N / D * 65535)]. *)
Definition code_of (N D : Q) : result Z :=
  if is_zero D then Raise ZeroDivisionError
  else match fl (N / D) with
       | Finite q =>
           match fl (q * 65535) with
           | Finite s => Ok (py_int s)
           | Infinite _ => Raise OverflowError
           | NaN => Raise ValueError
           end
       | Infinite _ => Raise OverflowError
       | NaN => Raise ValueError
       end.

(** The operands of the division: two ints are divided as they are,
    and otherwise both are floats. *)
Definition quotient_args (s w : pynum) : Q * Q :=
  match s, w with
  | PyInt a, PyInt b => (inject_Z a, inject_Z b)
  | _, _ => (float_value s, float_value w)
  end.

(** The operands of the division in [encode]. *)
Definition operands (self : Param) (v : pynum) : Q * Q :=
  quotient_args (sub_result v (min_value self))
                (sub_result (max_value self) (min_value self)).

(** Closed facts are settled by evaluation. *)
Ltac by_evaluation := vm_compute; first [reflexivity | discriminate | exact I].

Definition in_unit (p : Q) : Prop := 0 <= p /\ p <= 1.

(** The learning rule of the specification for one position. *)
Definition learn_bit (learn_rate neg_learn_rate p : Q) (best worst : bool) : Q :=
  if Bool.eqb best worst then p * (1 - learn_rate) + bit best * learn_rate
  else p * (1 - (learn_rate + neg_learn_rate))
       + bit best * (learn_rate + neg_learn_rate).

(** The mutation rule of the specification for one position: [None] when
    the position is not mutated, [Some target] when it is. *)
Definition mutate_bit (mut_shift : Q) (target : option Z) (p : Q) : Q :=
  match target with
  | Some t => p * (1 - mut_shift) + inject_Z t * mut_shift
  | None => p
  end.

(** The two rules along the whole vector. *)
Fixpoint learn_vector (learn_rate neg_learn_rate : Q) (pv : list Q)
    (best worst : list bool) : list Q :=
  match pv, best, worst with
  | p :: pv', b :: best', w :: worst' =>
      learn_bit learn_rate neg_learn_rate p b w
      :: learn_vector learn_rate neg_learn_rate pv' best' worst'
  | _, _, _ => []
  end.

Fixpoint mutate_vector (mut_shift : Q) (targets : list (option Z))
    (pv : list Q) : list Q :=
  match targets, pv with
  | t :: targets', p :: pv' =>
      mutate_bit mut_shift t p :: mutate_vector mut_shift targets' pv'
  | _, _ => []
  end.

(** A target of the mutation is the bit 0 or the bit 1. *)
Definition target_bit (t : option Z) : Prop :=
  t = None \/ t = Some 0%Z \/ t = Some 1%Z.

(** What a model object satisfies from its construction on. *)
Definition well_formed (self : PBIL) : Prop :=
  total_bits self = (16 * length (parameters self))%nat
  /\ length (prob_vector self) = total_bits self.

Section Draws.
Context {rng : Type} `{RandomSource rng}.

(** The draws of the mutation pass over [n] positions: for each one a
    [random.random()], and a target from [random.choice([0, 1])] when
    the first draw is below [mut_prob]. *)
Fixpoint mutation_targets (mut_prob : Q) (n : nat) (s : rng)
    : list (option Z) * rng :=
  match n with
  | O => ([], s)
  | S n' =>
      let '(r, s1) := random s in
      if Qltb r mut_prob then
        let '(k, s2) := randbelow 2%nat s1 in
        let '(ts, s3) := mutation_targets mut_prob n' s2 in
        (Some (Z.of_nat k) :: ts, s3)
      else
        let '(ts, s3) := mutation_targets mut_prob n' s1 in
        (None :: ts, s3)
  end.

End Draws.

(** ** Concrete inputs *)

Definition p100 : Param :=
  {| name := "Depth"; min_value := PyInt 0; max_value := PyInt 100;
     default_value := PyInt 50; is_integer := true |}.

Definition depth : Param :=
  {| name := "Depth"; min_value := PyInt 1; max_value := PyInt 10;
     default_value := PyInt 5; is_integer := true |}.

(** An integer parameter whose bounds are not whole numbers: 0.6 and
    0.9. *)
Definition fractional : Param :=
  {| name := "Margin"; min_value := literal (6 # 10); max_value := literal (9 # 10);
     default_value := literal (7 # 10); is_integer := true |}.

(** Two float parameters: bounded by 0.3 and 0.9, and by 0.0 and 100.0. *)
Definition tenths : Param :=
  {| name := "Margin"; min_value := literal (3 # 10); max_value := literal (9 # 10);
     default_value := literal (5 # 10); is_integer := false |}.

Definition percent : Param :=
  {| name := "Margin"; min_value := literal 0; max_value := literal 100;
     default_value := literal 50; is_integer := false |}.

(** A space that is malformed twice: [min_value > max_value], and one
    name declared two times. *)
Definition malformed : list Param :=
  [ {| name := "Hash"; min_value := PyInt 5; max_value := PyInt 1;
       default_value := PyInt 3; is_integer := true |};
    {| name := "Hash"; min_value := literal 2; max_value := literal 2;
       default_value := literal 2; is_integer := false |} ].

(** Two texts a tournament can print: with a ranking table, and
    without one. *)
Definition ranking_table : list ascii :=
  list_ascii_of_string
"Rank Name     Elo  +/-  Games  Score  Draw
   1 Engine2    70  120     12    60%   30%
   2 Engine0     0  110     12    50%   40%
   3 Engine1   -20  115     12    47%   35%
   4 Engine3   -50  118     12    43%   20%

Finished match".

Definition no_table : list ascii :=
  list_ascii_of_string "Warning: engine disconnects".

(** A random source with a counter for its state: the draws run through
    0.0, 0.1, ..., 0.9 and through the residues of the counter. *)
#[local] Instance counter_source : RandomSource nat := {|
  random := fun s => (Z.of_nat (s mod 10) # 10, S s);
  randbelow := fun n s => ((s mod n)%nat, S s)
|}.

(** [float(s)] on unsigned decimal integers, which is all the scripted
    outputs below contain. *)
Fixpoint decimal (acc : Z) (s : list ascii) : option Z :=
  match s with
  | [] => Some acc
  | c :: s' =>
      let d := nat_of_ascii c in
      if ((48 <=? d) && (d <=? 57))%nat
      then decimal (10 * acc + Z.of_nat (d - 48))%Z s'
      else None
  end.

(** A world that is the script of the tournaments still to come: each
    entry is the standard output of one run, or [None] when it fails. *)
#[local] Instance scripted : Host (list (option (list ascii))) := {|
  float_of_string := fun s =>
    match s with
    | [] => None
    | _ => option_map inject_Z (decimal 0 s)
    end;
  subprocess_run := fun _ w =>
    match w with
    | [] => (None, [])
    | out :: w' => (out, w')
    end
|}.

(** A tournament that prints the same ranking table at every run. *)
#[local] Instance steady : Host unit := {|
  float_of_string := fun s =>
    match s with
    | [] => None
    | _ => option_map inject_Z (decimal 0 s)
    end;
  subprocess_run := fun _ w =>
    (Some ranking_table, w)
|}.

(** ** EngineEvaluator.extract_uci_parameters

    The engine is an external process.  What it prints is the list of
    lines [process.stdout.readline()] returns one after the other; when
    the list is used up the stream is at its end and [readline] returns
    the empty string, again and again. *)

Definition readline (stdout : list (list ascii))
    : list ascii * list (list ascii) :=
  match stdout with
  | [] => ([], [])
  | line :: rest => (line, rest)
  end.

Fixpoint str_eqb (s t : list ascii) : bool :=
  match s, t with
  | [], [] => true
  | c :: s', d :: t' => Ascii.eqb c d && str_eqb s' t'
  | _, _ => false
  end.

(** [needle in s], for strings. *)
Fixpoint contains (s needle : list ascii) : bool :=
  match s with
  | [] => startswith [] needle
  | _ :: s' => startswith s needle || contains s' needle
  end.

(** [parts.index(token)], counted from [i]: a [ValueError] when the
    token is not there. *)
Fixpoint list_index (token : list ascii) (i : nat) (parts : list (list ascii))
    : result nat :=
  match parts with
  | [] => Raise ValueError
  | part :: parts' =>
      if str_eqb part token then Ok i else list_index token (S i) parts'
  end.

Section Extract.
(** Python's [int(s)] on a string: [None] for a [ValueError]. *)
Variable int_of_string : list ascii -> option Z.

Definition int_of (s : list ascii) : result Z :=
  match int_of_string s with
  | Some n => Ok n
  | None => Raise ValueError
  end.

(** [int(parts[parts.index(key) + 1])]. *)
Definition int_after (key : string) (parts : list (list ascii)) : result Z :=
  do i <- list_index (list_ascii_of_string key) 0 parts;
  do field <- index parts (i + 1);
  int_of field.

(** The branch of the loop for a line that starts with ["option name"]:
    the parameter to append, if the line holds ["spin"]. *)
Definition parse_option (line : list ascii) : result (option Param) :=
  let parts := split_ws [] line in
  do name <- index parts 2;
  if contains line (list_ascii_of_string "spin") then
    do min_val <- int_after "min" parts;
    do max_val <- int_after "max" parts;
    do default_val <- int_after "default" parts;
    Ok (Some {| name := string_of_list_ascii name;
                min_value := PyInt min_val;
                max_value := PyInt max_val;
                default_value := PyInt default_val;
                is_integer := true |})
  else Ok None.

(** The [while True] loop, for at most [fuel] turns: [None] when the
    loop has not left after that many turns, otherwise what it leaves
    with, the list at [break] or the exception raised. *)
Fixpoint extract_loop (fuel : nat) (stdout : list (list ascii))
    (parameters : list Param) : option (result (list Param)) :=
  match fuel with
  | O => None
  | S fuel' =>
      let '(raw, rest) := readline stdout in
      let line := strip raw in
      if startswith line (list_ascii_of_string "option name") then
        match parse_option line with
        | Raise e => Some (Raise e)
        | Ok (Some parameter) =>
            extract_loop fuel' rest (parameters ++ [parameter])
        | Ok None => extract_loop fuel' rest parameters
        end
      else if str_eqb line (list_ascii_of_string "uciok") then
        Some (Ok parameters)
      else extract_loop fuel' rest parameters
  end.

(** [extract_uci_parameters], for at most [fuel] turns of its loop.
    [started] is what the engine prints, [None] when [Popen] or the
    first write raises; [stopped] tells whether the calls after the loop
    ([write], [flush], [terminate], [wait]) return normally.  Every
    exception ends in the [except] clause, which returns the empty
    list. *)
Definition extract_uci_parameters (fuel : nat)
    (started : option (list (list ascii))) (stopped : bool)
    : option (list Param) :=
  match started with
  | None => Some []
  | Some stdout =>
      match extract_loop fuel stdout [] with
      | None => None
      | Some (Raise _) => Some []
      | Some (Ok parameters) => if stopped then Some parameters else Some []
      end
  end.

(** Vocabulary for the lines before ["uciok"]: a line the loop reads
    without leaving, and the parameter such a line declares. *)
Definition readable_line (raw : list ascii) : Prop :=
  let line := strip raw in
  if startswith line (list_ascii_of_string "option name")
  then exists declared, parse_option line = Ok declared
  else str_eqb line (list_ascii_of_string "uciok") = false.

Definition declared_by (raw : list ascii) : option Param :=
  let line := strip raw in
  if startswith line (list_ascii_of_string "option name") then
    match parse_option line with
    | Ok (Some parameter) => Some parameter
    | _ => None
    end
  else None.

End Extract.

(** [int(s)] on the text of a decimal number with an optional sign. *)
Definition signed_decimal (s : list ascii) : option Z :=
  match s with
  | [] => None
  | "-"%char :: [] => None
  | "-"%char :: digits => option_map Z.opp (decimal 0 digits)
  | _ => decimal 0 s
  end.

(** What an engine with two spin options and one check option prints. *)
Definition uci_dialogue : list (list ascii) :=
  map list_ascii_of_string
    [ "id name SharpKnight";
      "option name Hash type spin default 16 min 1 max 1024";
      "option name Ponder type check default false";
      "option name Contempt type spin default 0 min -100 max 100";
      "uciok";
      "readyok" ]%string.

(** The same without the line ["uciok"]. *)
Definition uci_silent : list (list ascii) :=
  map list_ascii_of_string
    [ "id name SharpKnight";
      "option name Ponder type check default false" ]%string.

(** A spin option that declares no maximum. *)
Definition uci_malformed : list (list ascii) :=
  map list_ascii_of_string
    [ "option name Hash type spin default 16 min 1 max 1024";
      "option name Threads type spin default 1 min 1";
      "uciok" ]%string.

(** A tournament that fails at every run; the world records nothing. *)
#[local] Instance failing : Host bool := {|
  float_of_string := fun _ => None;
  subprocess_run := fun _ w => (None, w)
|}.

(** * Properties *)

(** ** Numbers *)

Lemma Qltb_lt (x y : Q) : Qltb x y = true <-> x < y.
Proof.
  unfold Qltb. rewrite negb_true_iff.
  destruct (Qle_bool y x) eqn:E.
  - apply Qle_bool_iff in E. split; [discriminate | intros Hlt; exfalso; lra].
  - split; [intros _ | reflexivity].
    destruct (Qlt_le_dec x y) as [Hlt | Hle]; [exact Hlt |].
    apply Qle_bool_iff in Hle. congruence.
Qed.

Lemma Qltb_ge (x y : Q) : Qltb x y = false <-> y <= x.
Proof.
  unfold Qltb. rewrite negb_false_iff. apply Qle_bool_iff.
Qed.

Lemma py_int_floor (x : Q) : 0 <= x -> py_int x = Qfloor x.
Proof.
  destruct x as [a b]. unfold py_int, Qfloor, Qle. simpl.
  intros Ha. apply Z.quot_div_nonneg; lia.
Qed.

Lemma py_int_ceiling (x : Q) : x <= 0 -> py_int x = Qceiling x.
Proof.
  destruct x as [a b]. unfold py_int, Qceiling, Qfloor, Qle, Qopp. simpl.
  intros Ha.
  rewrite <- (Z.opp_involutive a) at 1.
  rewrite Z.quot_opp_l by lia.
  rewrite Z.quot_div_nonneg by lia. reflexivity.
Qed.

Lemma py_round_lower (x : Q) : inject_Z (py_round x) >= x - (1 # 2).
Proof.
  unfold py_round.
  pose proof (Qfloor_le x) as Hlo. pose proof (Qlt_floor x) as Hhi.
  rewrite inject_Z_plus in Hhi. change (inject_Z 1) with 1 in Hhi.
  destruct (Qcompare_spec (x - inject_Z (Qfloor x)) (1 # 2)) as [E | E | E];
    [destruct (Z.even (Qfloor x)) | |];
    rewrite ?inject_Z_plus; change (inject_Z 1) with 1; lra.
Qed.

Lemma py_round_upper (x : Q) : inject_Z (py_round x) <= x + (1 # 2).
Proof.
  unfold py_round.
  pose proof (Qfloor_le x) as Hlo. pose proof (Qlt_floor x) as Hhi.
  rewrite inject_Z_plus in Hhi. change (inject_Z 1) with 1 in Hhi.
  destruct (Qcompare_spec (x - inject_Z (Qfloor x)) (1 # 2)) as [E | E | E];
    [destruct (Z.even (Qfloor x)) | |];
    rewrite ?inject_Z_plus; change (inject_Z 1) with 1; lra.
Qed.

(** [round] does not cross a whole number. *)
Lemma py_round_ge_whole (x : Q) (a : Z) :
  inject_Z a <= x -> (a <= py_round x)%Z.
Proof.
  intros Ha.
  assert (a <= Qfloor x)%Z as Hfl.
  { rewrite <- (Qfloor_Z a). apply Qfloor_resp_le. exact Ha. }
  unfold py_round.
  destruct (Qcompare (x - inject_Z (Qfloor x)) (1 # 2));
    [destruct (Z.even (Qfloor x)) | |]; lia.
Qed.

Lemma py_round_le_whole (x : Q) (b : Z) :
  x <= inject_Z b -> (py_round x <= b)%Z.
Proof.
  intros Hb.
  assert (Qfloor x <= b)%Z as Hfl.
  { rewrite <- (Qfloor_Z b). apply Qfloor_resp_le. exact Hb. }
  pose proof (Qfloor_le x) as Hlo.
  destruct (Z.eq_dec (Qfloor x) b) as [E | E].
  - unfold py_round. rewrite E in *.
    destruct (Qcompare_spec (x - inject_Z b) (1 # 2)) as [H1 | H1 | H1];
      [lra | lia | lra].
  - unfold py_round.
    destruct (Qcompare (x - inject_Z (Qfloor x)) (1 # 2));
      [destruct (Z.even (Qfloor x)) | |]; lia.
Qed.

(** ** Rounding to binary64 *)

Lemma pow2_pos (e : Z) : 0 < pow2 e.
Proof. apply Qpower_0_lt. reflexivity. Qed.

Lemma pow2_add (a b : Z) : pow2 (a + b) == pow2 a * pow2 b.
Proof. apply Qpower_plus. discriminate. Qed.

Lemma pow2_sub (a b : Z) : pow2 (a - b) == pow2 a / pow2 b.
Proof. apply Qpower_minus. discriminate. Qed.

Lemma pow2_le (a b : Z) : (a <= b)%Z -> pow2 a <= pow2 b.
Proof. intros H. apply Qpower_le_compat_l; [exact H | discriminate]. Qed.

Lemma pow2_lt (a b : Z) : (a < b)%Z -> pow2 a < pow2 b.
Proof. intros H. apply Qpower_lt_compat_l; [exact H | reflexivity]. Qed.

Lemma pow2_lt_inv (a b : Z) : pow2 a < pow2 b -> (a < b)%Z.
Proof.
  intros H. destruct (Z_lt_le_dec a b) as [Hlt | Hge]; [exact Hlt |].
  apply pow2_le in Hge. lra.
Qed.

Lemma pow2_nonneg_Z (e : Z) : (0 <= e)%Z -> pow2 e == inject_Z (2 ^ e).
Proof. intros H. unfold pow2. rewrite Zpower_Qpower by exact H. reflexivity. Qed.

Lemma pow2_succ (e : Z) : pow2 (e + 1) == 2 * pow2 e.
Proof. rewrite pow2_add. change (pow2 1) with 2. ring. Qed.

Lemma Qabs_make (x : Q) :
  Qabs x == inject_Z (Z.abs (Qnum x)) / inject_Z (Zpos (Qden x)).
Proof.
  destruct x as [a b]. unfold Qabs. cbn [Qnum Qden].
  rewrite (Qmake_Qdiv (Z.abs a) b). reflexivity.
Qed.

Lemma ilog2_spec (x : Q) :
  ~ x == 0 -> pow2 (ilog2 x) <= Qabs x /\ Qabs x < pow2 (ilog2 x + 1).
Proof.
  intros Hx.
  assert (0 < Z.abs (Qnum x))%Z as HA.
  { destruct x as [a b]. unfold Qeq in Hx. cbn in *. lia. }
  set (A := Z.abs (Qnum x)) in *. set (B := Zpos (Qden x)).
  assert (0 < B)%Z as HB by (unfold B; lia).
  destruct (Z.log2_spec A HA) as [HA1 HA2].
  destruct (Z.log2_spec B HB) as [HB1 HB2].
  pose proof (Z.log2_nonneg A) as HlA. pose proof (Z.log2_nonneg B) as HlB.
  set (la := Z.log2 A) in *. set (lb := Z.log2 B) in *.
  assert (Qabs x == inject_Z A / inject_Z B) as Habs by apply Qabs_make.
  assert (0 < inject_Z B) as HBq by (rewrite <- (Zlt_Qlt 0); exact HB).
  assert (Qabs x < pow2 (la - lb + 1)) as Hup.
  { rewrite Habs.
    replace (la - lb + 1)%Z with ((la + 1) - lb)%Z by lia.
    rewrite pow2_sub, (pow2_nonneg_Z (la + 1)), (pow2_nonneg_Z lb) by lia.
    assert (0 < inject_Z (2 ^ lb)) as Hp
      by (rewrite <- (Zlt_Qlt 0); apply Z.pow_pos_nonneg; lia).
    apply Qlt_shift_div_r; [exact HBq |].
    unfold Qdiv. rewrite <- Qmult_assoc, (Qmult_comm (/ _)), Qmult_assoc.
    apply Qlt_shift_div_l; [exact Hp |].
    rewrite <- !inject_Z_mult, <- Zlt_Qlt.
    replace (Z.succ la) with (la + 1)%Z in HA2 by lia. nia. }
  assert (pow2 (la - lb - 1) <= Qabs x) as Hlo.
  { rewrite Habs.
    replace (la - lb - 1)%Z with (la - (lb + 1))%Z by lia.
    rewrite pow2_sub, (pow2_nonneg_Z la), (pow2_nonneg_Z (lb + 1)) by lia.
    assert (0 < inject_Z (2 ^ (lb + 1))) as Hp
      by (rewrite <- (Zlt_Qlt 0); apply Z.pow_pos_nonneg; lia).
    apply Qle_shift_div_l; [exact HBq |].
    unfold Qdiv. rewrite <- Qmult_assoc, (Qmult_comm (/ _)), Qmult_assoc.
    apply Qle_shift_div_r; [exact Hp |].
    rewrite <- !inject_Z_mult, <- Zle_Qle.
    replace (Z.succ lb) with (lb + 1)%Z in HB2 by lia. nia. }
  unfold ilog2. fold A B la lb.
  destruct (Qle_bool (pow2 (la - lb)) (Qabs x)) eqn:E.
  - apply Qle_bool_iff in E. split; assumption.
  - split; [exact Hlo |].
    replace (la - lb - 1 + 1)%Z with (la - lb)%Z by lia.
    destruct (Qlt_le_dec (Qabs x) (pow2 (la - lb))) as [H | H]; [exact H |].
    apply Qle_bool_iff in H. congruence.
Qed.

Lemma ilog2_unique (x : Q) (k : Z) :
  pow2 k <= Qabs x -> Qabs x < pow2 (k + 1) -> ilog2 x = k.
Proof.
  intros Hlo Hhi.
  assert (~ x == 0) as Hx.
  { intros E. rewrite E in Hlo. pose proof (pow2_pos k).
    change (Qabs 0) with 0 in Hlo. lra. }
  destruct (ilog2_spec x Hx) as [Slo Shi].
  assert (ilog2 x < k + 1)%Z by (apply pow2_lt_inv; lra).
  assert (k < ilog2 x + 1)%Z by (apply pow2_lt_inv; lra).
  lia.
Qed.

Lemma py_round_comp (x y : Q) : x == y -> py_round x = py_round y.
Proof.
  intros E. unfold py_round. rewrite (Qfloor_comp x y E).
  assert (x - inject_Z (Qfloor y) == y - inject_Z (Qfloor y)) as E' by lra.
  rewrite (Qcompare_comp _ _ E' _ _ (Qeq_refl (1 # 2))). reflexivity.
Qed.

Lemma py_round_monotone (x y : Q) : x <= y -> (py_round x <= py_round y)%Z.
Proof.
  intros Hxy.
  destruct (Z_le_gt_dec (py_round x) (py_round y)) as [Hle | Hgt]; [exact Hle |].
  exfalso.
  pose proof (py_round_upper x) as Hx. pose proof (py_round_lower y) as Hy.
  assert (inject_Z (py_round y) + 1 <= inject_Z (py_round x)) as Hgap.
  { change 1 with (inject_Z 1). rewrite <- inject_Z_plus, <- Zle_Qle. lia. }
  assert (x == y) as E by lra.
  apply py_round_comp in E. lia.
Qed.

Lemma py_round_whole (k : Z) : py_round (inject_Z k) = k.
Proof.
  apply Z.le_antisymm.
  - apply py_round_le_whole. lra.
  - apply py_round_ge_whole. lra.
Qed.

Lemma round64_eq (x : Q) :
  round64 x == inject_Z (py_round (x / pow2 (qexp x))) * pow2 (qexp x).
Proof. unfold round64. apply Qred_correct. Qed.

Lemma grid_le (x : Q) (e B : Z) :
  x <= inject_Z B * pow2 e ->
  inject_Z (py_round (x / pow2 e)) * pow2 e <= inject_Z B * pow2 e.
Proof.
  intros H. pose proof (pow2_pos e) as Hp.
  apply Qmult_le_compat_r; [| lra].
  rewrite <- Zle_Qle. apply py_round_le_whole.
  apply Qle_shift_div_r; assumption.
Qed.

Lemma grid_ge (x : Q) (e B : Z) :
  inject_Z B * pow2 e <= x ->
  inject_Z B * pow2 e <= inject_Z (py_round (x / pow2 e)) * pow2 e.
Proof.
  intros H. pose proof (pow2_pos e) as Hp.
  apply Qmult_le_compat_r; [| lra].
  rewrite <- Zle_Qle. apply py_round_ge_whole.
  apply Qle_shift_div_l; assumption.
Qed.

Lemma round64_nonneg (x : Q) : 0 <= x -> 0 <= round64 x.
Proof.
  intros H. rewrite round64_eq.
  pose proof (grid_ge x (qexp x) 0) as G. change (inject_Z 0) with 0 in G.
  rewrite Qmult_0_l in G. apply G. exact H.
Qed.

Lemma round64_nonpos (x : Q) : x <= 0 -> round64 x <= 0.
Proof.
  intros H. rewrite round64_eq.
  pose proof (grid_le x (qexp x) 0) as G. change (inject_Z 0) with 0 in G.
  rewrite Qmult_0_l in G. apply G. exact H.
Qed.

Lemma round64_zero (x : Q) : x == 0 -> round64 x == 0.
Proof.
  intros E. apply Qle_antisym;
    [apply round64_nonpos | apply round64_nonneg]; lra.
Qed.

Lemma ilog2_comp (x y : Q) : ~ x == 0 -> x == y -> ilog2 x = ilog2 y.
Proof.
  intros Hx E. destruct (ilog2_spec x Hx) as [Hlo Hhi].
  symmetry. apply ilog2_unique; rewrite <- E; assumption.
Qed.

Lemma round64_comp (x y : Q) : x == y -> round64 x == round64 y.
Proof.
  intros E. destruct (Qeq_dec x 0) as [Hz | Hnz].
  - rewrite (round64_zero x Hz), (round64_zero y); [reflexivity | lra].
  - rewrite !round64_eq. unfold qexp.
    rewrite <- (ilog2_comp x y Hnz E).
    rewrite (py_round_comp (x / pow2 (Z.max (ilog2 x - 52) (-1074)))
               (y / pow2 (Z.max (ilog2 x - 52) (-1074)))); [reflexivity |].
    unfold Qdiv. apply Qmult_comp; [exact E | reflexivity].
Qed.

Lemma round64_proper : Proper (Qeq ==> Qeq) round64.
Proof. intros x y E. apply round64_comp. exact E. Qed.

#[local] Existing Instance round64_proper.

Lemma pow2_shift (a b : Z) : (0 <= a)%Z -> inject_Z (2 ^ a) * pow2 b == pow2 (a + b).
Proof. intros H. rewrite <- pow2_nonneg_Z by exact H. symmetry. apply pow2_add. Qed.

Lemma round64_monotone_pos (x y : Q) :
  0 < x -> x <= y -> round64 x <= round64 y.
Proof.
  intros Hx Hxy. rewrite !round64_eq.
  destruct (ilog2_spec x ltac:(lra)) as [Xlo Xhi].
  destruct (ilog2_spec y ltac:(lra)) as [Ylo Yhi].
  rewrite Qabs_pos in Xlo, Xhi, Ylo, Yhi by lra.
  assert (ilog2 x < ilog2 y + 1)%Z as Hl by (apply pow2_lt_inv; lra).
  unfold qexp. set (lx := ilog2 x) in *. set (ly := ilog2 y) in *.
  destruct (Z.eq_dec (Z.max (lx - 52) (-1074)) (Z.max (ly - 52) (-1074)))
    as [Ee | Ene].
  - rewrite <- Ee. set (e := Z.max (lx - 52) (-1074)).
    pose proof (pow2_pos e) as Hp.
    apply Qmult_le_compat_r; [| lra]. rewrite <- Zle_Qle.
    apply py_round_monotone. apply Qmult_le_compat_r; [exact Hxy |].
    apply Qlt_le_weak, Qinv_lt_0_compat, Hp.
  - assert (lx < ly)%Z by lia.
    assert (Z.max (ly - 52) (-1074) = ly - 52)%Z as -> by lia.
    set (ex := Z.max (lx - 52) (-1074)) in *.
    apply Qle_trans with (pow2 ly).
    + destruct (Z_le_gt_dec ex (lx + 1)) as [Hi | Hi].
      * eapply Qle_trans;
          [apply (grid_le x ex (2 ^ (lx + 1 - ex)))|].
        -- rewrite pow2_shift by lia.
           replace (lx + 1 - ex + ex)%Z with (lx + 1)%Z by lia. lra.
        -- rewrite pow2_shift by lia.
           replace (lx + 1 - ex + ex)%Z with (lx + 1)%Z by lia.
           apply pow2_le. lia.
      * eapply Qle_trans; [apply (grid_le x ex 1) |].
        -- change (inject_Z 1) with 1. rewrite Qmult_1_l.
           apply Qle_trans with (pow2 (lx + 1)); [lra | apply pow2_le; lia].
        -- change (inject_Z 1) with 1. rewrite Qmult_1_l. apply pow2_le. lia.
    + eapply Qle_trans; [| apply (grid_ge y (ly - 52) (2 ^ 52))].
      * rewrite pow2_shift by lia.
        replace (52 + (ly - 52))%Z with ly by lia. lra.
      * rewrite pow2_shift by lia.
        replace (52 + (ly - 52))%Z with ly by lia. exact Ylo.
Qed.

Lemma round64_monotone_neg (x y : Q) :
  y < 0 -> x <= y -> round64 x <= round64 y.
Proof.
  intros Hy Hxy. rewrite !round64_eq.
  destruct (ilog2_spec x ltac:(lra)) as [Xlo Xhi].
  destruct (ilog2_spec y ltac:(lra)) as [Ylo Yhi].
  rewrite Qabs_neg in Xlo, Xhi, Ylo, Yhi by lra.
  assert (ilog2 y < ilog2 x + 1)%Z as Hl by (apply pow2_lt_inv; lra).
  unfold qexp. set (lx := ilog2 x) in *. set (ly := ilog2 y) in *.
  destruct (Z.eq_dec (Z.max (lx - 52) (-1074)) (Z.max (ly - 52) (-1074)))
    as [Ee | Ene].
  - rewrite <- Ee. set (e := Z.max (lx - 52) (-1074)).
    pose proof (pow2_pos e) as Hp.
    apply Qmult_le_compat_r; [| lra]. rewrite <- Zle_Qle.
    apply py_round_monotone. apply Qmult_le_compat_r; [exact Hxy |].
    apply Qlt_le_weak, Qinv_lt_0_compat, Hp.
  - assert (ly < lx)%Z by lia.
    assert (Z.max (lx - 52) (-1074) = lx - 52)%Z as -> by lia.
    set (ey := Z.max (ly - 52) (-1074)) in *.
    apply Qle_trans with (- pow2 lx).
    + eapply Qle_trans; [apply (grid_le x (lx - 52) (- 2 ^ 52)) |].
      * rewrite inject_Z_opp.
        assert (inject_Z (2 ^ 52) * pow2 (lx - 52) == pow2 lx) as E.
        { rewrite pow2_shift by lia. replace (52 + (lx - 52))%Z with lx by lia.
          reflexivity. }
        lra.
      * rewrite inject_Z_opp.
        assert (inject_Z (2 ^ 52) * pow2 (lx - 52) == pow2 lx) as E.
        { rewrite pow2_shift by lia. replace (52 + (lx - 52))%Z with lx by lia.
          reflexivity. }
        lra.
    + destruct (Z_le_gt_dec ey (ly + 1)) as [Hi | Hi].
      * assert (inject_Z (2 ^ (ly + 1 - ey)) * pow2 ey == pow2 (ly + 1)) as E.
        { rewrite pow2_shift by lia.
          replace (ly + 1 - ey + ey)%Z with (ly + 1)%Z by lia. reflexivity. }
        pose proof (pow2_le (ly + 1) lx ltac:(lia)) as Hle.
        eapply Qle_trans; [| apply (grid_ge y ey (- 2 ^ (ly + 1 - ey)))];
          rewrite inject_Z_opp; lra.
      * pose proof (pow2_le (ly + 1) ey ltac:(lia)) as Hle1.
        pose proof (pow2_le ey lx ltac:(lia)) as Hle2.
        eapply Qle_trans; [| apply (grid_ge y ey (-1))];
          change (inject_Z (-1)) with (-1); lra.
Qed.

Lemma round64_monotone (x y : Q) : x <= y -> round64 x <= round64 y.
Proof.
  intros Hxy.
  destruct (Qlt_le_dec 0 x) as [Hx | Hx].
  - apply round64_monotone_pos; assumption.
  - destruct (Qlt_le_dec y 0) as [Hy | Hy].
    + apply round64_monotone_neg; assumption.
    + apply Qle_trans with 0; [apply round64_nonpos | apply round64_nonneg];
        assumption.
Qed.

Lemma Qabs_scale (m : Z) (e : Z) :
  Qabs (inject_Z m * pow2 e) == inject_Z (Z.abs m) * pow2 e.
Proof.
  rewrite Qabs_Qmult. rewrite (Qabs_pos (pow2 e)) by (apply Qlt_le_weak, pow2_pos).
  apply Qmult_comp; [| reflexivity].
  unfold Qabs, inject_Z. simpl. reflexivity.
Qed.

Lemma round64_fixed_lt (m e' : Z) :
  (Z.abs m < 2 ^ 53)%Z -> (-1074 <= e')%Z ->
  round64 (inject_Z m * pow2 e') == inject_Z m * pow2 e'.
Proof.
  intros Hm He.
  destruct (Z.eq_dec m 0%Z) as [-> | Hnz].
  { change (inject_Z 0) with 0. rewrite (round64_zero (0 * pow2 e')); lra. }
  set (x := inject_Z m * pow2 e').
  pose proof (pow2_pos e') as Hp.
  assert (~ x == 0) as Hx.
  { intros E. unfold x in E.
    apply Qmult_integral in E. destruct E as [E | E]; [| lra].
    apply Hnz. unfold Qeq in E. simpl in E. lia. }
  destruct (ilog2_spec x Hx) as [Xlo Xhi].
  assert (Qabs x < pow2 (53 + e')) as Hub.
  { unfold x. rewrite Qabs_scale. rewrite <- pow2_shift by lia.
    apply Qmult_lt_compat_r; [exact Hp |]. rewrite <- Zlt_Qlt. exact Hm. }
  assert (ilog2 x < 53 + e')%Z as Hl by (apply pow2_lt_inv; lra).
  rewrite round64_eq. unfold qexp.
  set (e := Z.max (ilog2 x - 52) (-1074)).
  assert (e <= e')%Z as Hee by lia.
  pose proof (pow2_pos e) as Hpe.
  assert (x / pow2 e == inject_Z (m * 2 ^ (e' - e))) as E.
  { unfold x. rewrite inject_Z_mult. rewrite <- pow2_nonneg_Z by lia.
    rewrite (pow2_sub e' e). field. lra. }
  rewrite (py_round_comp _ _ E), py_round_whole.
  rewrite inject_Z_mult. rewrite <- pow2_nonneg_Z by lia.
  unfold x. rewrite (pow2_sub e' e). field. lra.
Qed.

Lemma Qabs_le_iff (x b : Q) : Qabs x <= b <-> - b <= x /\ x <= b.
Proof. apply Qabs_Qle_condition. Qed.

(** The integer significand of a rounded number has at most 53 bits. *)
Lemma significand_bound (x : Q) :
  (Z.abs (py_round (x / pow2 (qexp x))) <= 2 ^ 53)%Z.
Proof.
  pose proof (pow2_pos (qexp x)) as Hp.
  destruct (Qeq_dec x 0) as [Hz | Hnz].
  - rewrite (py_round_comp _ (inject_Z 0)).
    + rewrite py_round_whole. simpl. lia.
    + transitivity (0 / pow2 (qexp x)).
      * apply Qmult_comp; [exact Hz | reflexivity].
      * change (inject_Z 0) with 0. unfold Qdiv. ring.
  - destruct (ilog2_spec x Hnz) as [Xlo Xhi].
    assert (Qabs x <= inject_Z (2 ^ 53) * pow2 (qexp x)) as Hb.
    { rewrite pow2_shift by lia.
      apply Qle_trans with (pow2 (ilog2 x + 1)); [lra |].
      apply pow2_le. unfold qexp. lia. }
    apply Qabs_le_iff in Hb. destruct Hb as [Hlo Hhi].
    apply Z.abs_le. split.
    + apply py_round_ge_whole. rewrite inject_Z_opp.
      apply Qle_shift_div_l; [exact Hp | lra].
    + apply py_round_le_whole. apply Qle_shift_div_r; [exact Hp | lra].
Qed.

Lemma round64_fixed (m e' : Z) :
  (Z.abs m <= 2 ^ 53)%Z -> (-1074 <= e')%Z ->
  round64 (inject_Z m * pow2 e') == inject_Z m * pow2 e'.
Proof.
  intros Hm He.
  destruct (Z_lt_le_dec (Z.abs m) (2 ^ 53)) as [Hlt | Hge].
  - apply round64_fixed_lt; assumption.
  - assert (Z.abs m = 2 ^ 53)%Z as Habs by lia.
    assert (inject_Z m * pow2 e' == inject_Z (Z.sgn m) * pow2 (53 + e')) as E.
    { rewrite <- pow2_shift by lia. rewrite Qmult_assoc, <- inject_Z_mult.
      replace (Z.sgn m * 2 ^ 53)%Z with m by (rewrite <- Habs; lia). reflexivity. }
    rewrite (round64_comp _ _ E), E.
    apply round64_fixed_lt; [| lia].
    destruct m; simpl; lia.
Qed.

Lemma binary64_round64 (x : Q) : binary64 (round64 x).
Proof.
  unfold binary64.
  rewrite (round64_comp _ _ (round64_eq x)), (round64_eq x).
  apply round64_fixed; [apply significand_bound | unfold qexp; lia].
Qed.

Lemma binary64_scaled (m e : Z) :
  (Z.abs m <= 2 ^ 53)%Z -> (-1074 <= e)%Z -> binary64 (inject_Z m * pow2 e).
Proof. intros. apply round64_fixed; assumption. Qed.

Lemma binary64_Z (n : Z) : (Z.abs n <= 2 ^ 53)%Z -> binary64 (inject_Z n).
Proof.
  intros H. unfold binary64.
  assert (inject_Z n == inject_Z n * pow2 0) as E
    by (change (pow2 0) with 1; ring).
  rewrite (round64_comp _ _ E).
  rewrite round64_fixed by (assumption || lia). symmetry. exact E.
Qed.

Lemma binary64_pow2 (k : Z) : (-1074 <= k)%Z -> binary64 (pow2 k).
Proof.
  intros H. unfold binary64.
  assert (pow2 k == inject_Z 1 * pow2 k) as E
    by (change (inject_Z 1) with 1; ring).
  rewrite (round64_comp _ _ E).
  rewrite round64_fixed by (simpl; lia). symmetry. exact E.
Qed.

Lemma binary64_opp_pow2 (k : Z) : (-1074 <= k)%Z -> binary64 (- pow2 k).
Proof.
  intros H. unfold binary64.
  assert (- pow2 k == inject_Z (-1) * pow2 k) as E
    by (change (inject_Z (-1)) with (-1); ring).
  rewrite (round64_comp _ _ E).
  rewrite round64_fixed by (simpl; lia). symmetry. exact E.
Qed.

Lemma binary64_comp (x y : Q) : x == y -> binary64 x -> binary64 y.
Proof.
  unfold binary64. intros E H. rewrite <- (round64_comp _ _ E). rewrite H. exact E.
Qed.

Lemma round64_le (x hi : Q) : x <= hi -> binary64 hi -> round64 x <= hi.
Proof.
  intros H B. unfold binary64 in B. rewrite <- B. apply round64_monotone. exact H.
Qed.

Lemma round64_ge (x lo : Q) : lo <= x -> binary64 lo -> lo <= round64 x.
Proof.
  intros H B. unfold binary64 in B. rewrite <- B. apply round64_monotone. exact H.
Qed.

Lemma round64_0 : round64 0 == 0.
Proof. apply round64_zero. reflexivity. Qed.

Lemma binary64_0 : binary64 0.
Proof. exact round64_0. Qed.

Lemma Qle_bool_false (x y : Q) : Qle_bool x y = false <-> y < x.
Proof.
  split; intros H.
  - apply Qnot_le_lt. intros Hle. apply Qle_bool_iff in Hle. congruence.
  - destruct (Qle_bool x y) eqn:E; [| reflexivity].
    apply Qle_bool_iff in E. lra.
Qed.

Lemma fl_finite (x : Q) :
  Qabs (round64 x) < pow2 1024 -> fl x = Finite (round64 x).
Proof.
  intros H. unfold fl.
  apply Qle_bool_false in H. rewrite H. reflexivity.
Qed.

Lemma fl_between (x lo hi : Q) :
  lo <= x -> x <= hi -> binary64 lo -> binary64 hi ->
  - pow2 1024 < lo -> hi < pow2 1024 ->
  fl x = Finite (round64 x) /\ lo <= round64 x /\ round64 x <= hi.
Proof.
  intros Hlo Hhi Blo Bhi Mlo Mhi.
  pose proof (round64_ge x lo Hlo Blo) as Rlo.
  pose proof (round64_le x hi Hhi Bhi) as Rhi.
  split; [| split; assumption].
  apply fl_finite. apply Qabs_case; intros; lra.
Qed.

Lemma fl_bounded (x : Q) (k : Z) :
  Qabs x <= pow2 k -> (-1074 <= k <= 1023)%Z ->
  fl x = Finite (round64 x) /\ Qabs (round64 x) <= pow2 k.
Proof.
  intros Hx Hk. apply Qabs_le_iff in Hx. destruct Hx as [Hlo Hhi].
  pose proof (pow2_lt k 1024 ltac:(lia)) as Hlt.
  destruct (fl_between x (- pow2 k) (pow2 k)) as (E & Rlo & Rhi);
    try assumption.
  - apply binary64_opp_pow2. lia.
  - apply binary64_pow2. lia.
  - lra.
  - split; [exact E |]. apply Qabs_le_iff. split; assumption.
Qed.

(** The error of one rounding. *)
Lemma round64_error (x : Q) :
  Qabs (round64 x - x) <= Qabs x * pow2 (-53) + pow2 (-1075).
Proof.
  pose proof (pow2_pos (-53)) as P53. pose proof (pow2_pos (-1075)) as P1075.
  destruct (Qeq_dec x 0) as [Hz | Hnz].
  { rewrite (round64_zero x Hz), Hz. 
    assert (Qabs (0 - 0) == 0) as -> by reflexivity.
    assert (Qabs 0 == 0) as -> by reflexivity. lra. }
  destruct (ilog2_spec x Hnz) as [Xlo Xhi].
  rewrite round64_eq. set (e := qexp x). pose proof (pow2_pos e) as Hp.
  pose proof (py_round_lower (x / pow2 e)) as Hl.
  pose proof (py_round_upper (x / pow2 e)) as Hu.
  set (m := inject_Z (py_round (x / pow2 e))) in *.
  assert (x == x / pow2 e * pow2 e) as Ex by (field; lra).
  assert (Qabs (m * pow2 e - x) <= (1 # 2) * pow2 e) as Hhalf.
  { apply Qabs_le_iff. split.
    - assert ((x / pow2 e - (1 # 2)) * pow2 e <= m * pow2 e) as H1
        by (apply Qmult_le_compat_r; lra).
      lra.
    - assert (m * pow2 e <= (x / pow2 e + (1 # 2)) * pow2 e) as H1
        by (apply Qmult_le_compat_r; lra).
      lra. }
  eapply Qle_trans; [exact Hhalf |].
  assert ((1 # 2) * pow2 e == pow2 (e - 1)) as ->.
  { rewrite (pow2_sub e 1). change (pow2 1) with 2. field. }
  unfold e, qexp.
  destruct (Z.max_spec (ilog2 x - 52) (-1074)) as [[_ ->] | [_ ->]].
  - change (-1074 - 1)%Z with (-1075)%Z.
    assert (0 <= Qabs x * pow2 (-53)) as H0.
    { apply Qmult_le_0_compat; [apply Qabs_nonneg | lra]. }
    lra.
  - replace (ilog2 x - 52 - 1)%Z with (ilog2 x + -53)%Z by lia.
    rewrite pow2_add.
    assert (pow2 (ilog2 x) * pow2 (-53) <= Qabs x * pow2 (-53)) as H1
      by (apply Qmult_le_compat_r; lra).
    lra.
Qed.

(** Every binary64 number is a multiple of the smallest one. *)
Lemma binary64_grid (x : Q) :
  binary64 x -> exists m : Z, x == inject_Z m * pow2 (-1074).
Proof.
  intros B. unfold binary64 in B. rewrite round64_eq in B.
  set (e := qexp x) in *.
  exists (py_round (x / pow2 e) * 2 ^ (e + 1074))%Z.
  rewrite <- B at 1. rewrite inject_Z_mult, <- Qmult_assoc.
  rewrite pow2_shift by (unfold e, qexp; lia).
  replace (e + 1074 + -1074)%Z with e by lia. reflexivity.
Qed.

Lemma round64_gap (a b : Q) :
  binary64 a -> binary64 b -> a < b -> pow2 (-1074) <= round64 (b - a).
Proof.
  intros Ba Bb Hab.
  destruct (binary64_grid a Ba) as [ma Ea].
  destruct (binary64_grid b Bb) as [mb Eb].
  pose proof (pow2_pos (-1074)) as Hp.
  apply round64_ge; [| apply binary64_pow2; lia].
  assert (ma < mb)%Z as Hm.
  { destruct (Z_lt_le_dec ma mb) as [H | H]; [exact H | exfalso].
    assert (inject_Z mb * pow2 (-1074) <= inject_Z ma * pow2 (-1074)) as Hle.
    { apply Qmult_le_compat_r; [| lra]. rewrite <- Zle_Qle. exact H. }
    lra. }
  assert (inject_Z 1 * pow2 (-1074) <= inject_Z (mb - ma) * pow2 (-1074)) as Hle.
  { apply Qmult_le_compat_r; [| lra]. rewrite <- Zle_Qle. lia. }
  unfold Z.sub in Hle. rewrite inject_Z_plus, inject_Z_opp in Hle.
  change (inject_Z 1) with 1 in Hle. lra.
Qed.

(** ** Bits and their text *)

Lemma int2_digits_join (bits : list bool) (acc : Z) :
  int2_digits acc (concat (map bit_char bits)) = Ok (fold_left shift_in bits acc).
Proof.
  revert acc. induction bits as [| b bits IH]; intros acc; [reflexivity |].
  destruct b; simpl; rewrite ?Z.add_0_r; apply IH.
Qed.

Lemma int_base2_join (bits : list bool) :
  bits <> [] ->
  int_base2 (concat (map bit_char bits)) = Ok (bits_value bits).
Proof.
  intros Hne. unfold int_base2, bits_value.
  rewrite <- int2_digits_join.
  destruct bits as [| [|] bits]; [congruence | reflexivity | reflexivity].
Qed.

Lemma shift_in_bounds (bits : list bool) (acc : Z) :
  (acc * 2 ^ Z.of_nat (length bits) <= fold_left shift_in bits acc
   < (acc + 1) * 2 ^ Z.of_nat (length bits))%Z.
Proof.
  revert acc. induction bits as [| b bits IH]; intros acc.
  - simpl. lia.
  - cbn [fold_left length]. rewrite Nat2Z.inj_succ, Z.pow_succ_r by lia.
    specialize (IH (2 * acc + (if b then 1 else 0))%Z).
    destruct b; nia.
Qed.

Lemma bits_value_bounds (bits : list bool) :
  (0 <= bits_value bits < 2 ^ Z.of_nat (length bits))%Z.
Proof.
  pose proof (shift_in_bounds bits 0) as Hb. unfold bits_value. lia.
Qed.

Lemma bin_pos_value (p : positive) :
  fold_left shift_in (map is_one (bin_pos p)) 0%Z = Zpos p.
Proof.
  induction p as [p IH | p IH |]; [| | reflexivity];
    cbn [bin_pos]; rewrite map_app, fold_left_app, IH; reflexivity.
Qed.

Lemma bin_pos_width (p : positive) :
  (2 ^ Z.of_nat (length (bin_pos p)) <= 2 * Zpos p
   /\ Zpos p < 2 ^ Z.of_nat (length (bin_pos p)))%Z.
Proof.
  induction p as [p IH | p IH |]; [| | simpl; lia];
    cbn [bin_pos]; rewrite length_app; cbn [length];
    replace (Z.of_nat (length (bin_pos p) + 1)) with (Z.succ (Z.of_nat (length (bin_pos p)))) by lia;
    rewrite Z.pow_succ_r by lia; lia.
Qed.

Lemma leading_zeros (k : nat) (bits : list bool) :
  fold_left shift_in (repeat false k ++ bits) 0%Z = fold_left shift_in bits 0%Z.
Proof.
  rewrite fold_left_app. f_equal.
  induction k as [| k IH]; [reflexivity | exact IH].
Qed.

Lemma map_is_one_zeros (k : nat) : map is_one (repeat "0"%char k) = repeat false k.
Proof. induction k as [| k IH]; [reflexivity | simpl; rewrite IH; reflexivity]. Qed.

(** The digits of a number below [2^16] fill at most 16 places, and
    those of a larger one need more. *)
Lemma bin_digits_width (n : Z) :
  (length (bin_digits n) <= 16)%nat <-> (Z.abs n < 65536)%Z.
Proof.
  destruct n as [| p | p]; cbn [bin_digits Z.abs];
    [simpl; split; [lia | auto with arith] | |];
    pose proof (bin_pos_width p) as [Hlo Hhi];
    (split; intros Hw;
     [ assert (2 ^ Z.of_nat (length (bin_pos p)) <= 2 ^ 16)%Z
         by (apply Z.pow_le_mono_r; lia); lia
     | destruct (le_lt_dec (length (bin_pos p)) 16) as [Hle | Hgt]; [exact Hle |];
       assert (2 ^ 17 <= 2 ^ Z.of_nat (length (bin_pos p)))%Z
         by (apply Z.pow_le_mono_r; lia); lia ]).
Qed.

(** What [encode] makes of a number that is not negative: its bits,
    with zeros in front up to 16 places. *)
Lemma format_bits (n : Z) :
  (0 <= n)%Z ->
  map is_one (format_016b n)
  = repeat false (16 - length (bin_digits n)) ++ map is_one (bin_digits n).
Proof.
  intros Hn. unfold format_016b.
  replace (n <? 0)%Z with false by (symmetry; apply Z.ltb_ge; exact Hn).
  cbn [app length]. rewrite Nat.sub_0_r, map_app, map_is_one_zeros. reflexivity.
Qed.

Lemma format_bits_value (n : Z) :
  (0 <= n)%Z -> bits_value (map is_one (format_016b n)) = n.
Proof.
  intros Hn. rewrite format_bits by exact Hn. unfold bits_value.
  rewrite leading_zeros.
  destruct n as [| p | p]; [reflexivity | apply bin_pos_value | lia].
Qed.

Lemma format_bits_length (n : Z) :
  (0 <= n)%Z ->
  length (map is_one (format_016b n)) = Nat.max 16 (length (bin_digits n)).
Proof.
  intros Hn. rewrite format_bits by exact Hn.
  rewrite length_app, repeat_length, length_map. lia.
Qed.

Lemma format_negative (p : positive) :
  map is_one (format_016b (Zneg p))
  = false :: repeat false (15 - length (bin_pos p)) ++ map is_one (bin_pos p).
Proof.
  unfold format_016b. cbn [Z.ltb Z.compare bin_digits app length map].
  rewrite map_app, map_is_one_zeros. reflexivity.
Qed.

Lemma all_false_value (k : nat) : bits_value (repeat false k) = 0%Z.
Proof.
  unfold bits_value. rewrite <- (app_nil_r (repeat false k)).
  rewrite leading_zeros. reflexivity.
Qed.

Lemma format_016b_min_width (n : Z) : (16 <= length (format_016b n))%nat.
Proof.
  unfold format_016b. rewrite !length_app, repeat_length.
  destruct (n <? 0)%Z; cbn [length]; lia.
Qed.

(** ** The codec *)

Lemma round64_ext (x y : Q) : x == y -> round64 x = round64 y.
Proof.
  intros E. destruct (Qeq_dec x 0) as [Hz | Hnz].
  - unfold round64. apply Qred_complete.
    pose proof (round64_zero x Hz) as Hx.
    pose proof (round64_zero y ltac:(rewrite <- E; exact Hz)) as Hy.
    rewrite !round64_eq in Hx, Hy. unfold qexp in Hx, Hy.
    rewrite Hx, Hy. reflexivity.
  - unfold round64. rewrite <- (ilog2_comp x y Hnz E).
    rewrite (py_round_comp (x / pow2 (Z.max (ilog2 x - 52) (-1074)))
               (y / pow2 (Z.max (ilog2 x - 52) (-1074)))); [reflexivity |].
    unfold Qdiv. apply Qmult_comp; [exact E | reflexivity].
Qed.

Lemma fl_ext (x y : Q) : x == y -> fl x = fl y.
Proof. intros E. unfold fl. rewrite (round64_ext x y E). reflexivity. Qed.

Lemma fl_small (x : Q) (k : Z) :
  Qabs x <= pow2 k -> (-1074 <= k <= 1023)%Z -> fl x = Finite (round64 x).
Proof. intros H Hk. apply (fl_bounded x k H Hk). Qed.

Lemma round64_small (x : Q) (k : Z) :
  Qabs x <= pow2 k -> (-1074 <= k <= 1023)%Z -> Qabs (round64 x) <= pow2 k.
Proof. intros H Hk. apply (fl_bounded x k H Hk). Qed.

Lemma Qabs_add_le (x y : Q) (k : Z) :
  Qabs x <= pow2 k -> Qabs y <= pow2 k -> Qabs (x + y) <= pow2 (k + 1).
Proof.
  intros Hx Hy. rewrite pow2_succ.
  eapply Qle_trans; [apply Qabs_triangle | lra].
Qed.

Lemma Qabs_sub_le (x y : Q) (k : Z) :
  Qabs x <= pow2 k -> Qabs y <= pow2 k -> Qabs (x - y) <= pow2 (k + 1).
Proof.
  intros Hx Hy. unfold Qminus. apply Qabs_add_le; [exact Hx |].
  rewrite Qabs_opp. exact Hy.
Qed.

Lemma Qabs_le_weaken (x : Q) (j k : Z) :
  Qabs x <= pow2 j -> (j <= k)%Z -> Qabs x <= pow2 k.
Proof. intros H Hjk. eapply Qle_trans; [exact H | apply pow2_le; exact Hjk]. Qed.

Lemma to_float_value (k : Z) (v : pynum) :
  bounded_by k v -> (-1074 <= k <= 1023)%Z ->
  to_float v = Ok (Finite (float_value v)) /\ Qabs (float_value v) <= pow2 k.
Proof.
  intros [Hf Hb] Hk. destruct v as [n | [x | s |]]; try contradiction.
  - cbn [to_float value_of float_value] in *.
    rewrite (fl_small _ k Hb Hk). split; [reflexivity |].
    apply round64_small; assumption.
  - cbn in *. auto.
Qed.

Lemma float_value_exact (v : pynum) :
  binary64 (value_of v) -> float_value v == value_of v.
Proof. destruct v as [n | [x | s |]]; intros B; cbn in *; [exact B | reflexivity ..]. Qed.

Lemma float_value_monotone (v w : pynum) :
  finite v -> finite w ->
  (match v with PyFloat (Finite x) => binary64 x | _ => True end) ->
  (match w with PyFloat (Finite x) => binary64 x | _ => True end) ->
  value_of v <= value_of w -> float_value v <= float_value w.
Proof.
  destruct v as [n | [x | s |]], w as [m | [y | t |]]; cbn;
    intros Hv Hw Gv Gw H; try contradiction.
  - apply round64_monotone. exact H.
  - apply round64_le; assumption.
  - apply round64_ge; assumption.
  - exact H.
Qed.

Lemma py_sub_eval (k : Z) (x y : pynum) :
  bounded_by k x -> bounded_by k y -> (-1074 <= k <= 1022)%Z ->
  py_sub x y = Ok (sub_result x y) /\ bounded_by (k + 1) (sub_result x y).
Proof.
  intros Hx Hy Hk.
  destruct (to_float_value k x Hx ltac:(lia)) as [Ex Bx].
  destruct (to_float_value k y Hy ltac:(lia)) as [Ey By].
  pose proof (Qabs_sub_le _ _ k Bx By) as Hd.
  assert (py_sub x y = Ok (sub_result x y) \/
          exists a b, x = PyInt a /\ y = PyInt b) as [E | (a & b & -> & ->)].
  { destruct x as [a | fx], y as [b | fy]; [right; eauto | left ..];
      unfold py_sub; rewrite Ex, Ey; cbn [bind float_sub sub_result];
      rewrite (fl_small _ (k + 1) Hd ltac:(lia)); reflexivity. }
  - split; [exact E |].
    destruct x as [a | fx], y as [b | fy];
      [| split; [exact I | cbn [sub_result value_of];
                 apply round64_small; [exact Hd | lia]] ..].
    split; [exact I |]. cbn [value_of sub_result]. unfold Z.sub.
    rewrite inject_Z_plus, inject_Z_opp.
    destruct Hx as [_ Hx], Hy as [_ Hy]. cbn [value_of] in Hx, Hy.
    apply (Qabs_sub_le _ _ k Hx Hy).
  - split; [reflexivity |]. split; [exact I |].
    cbn [value_of sub_result]. unfold Z.sub.
    rewrite inject_Z_plus, inject_Z_opp.
    destruct Hx as [_ Hx], Hy as [_ Hy]. cbn [value_of] in Hx, Hy.
    apply (Qabs_sub_le _ _ k Hx Hy).
Qed.

Lemma sub_result_float (x y : pynum) :
  binary64 (value_of x) -> binary64 (value_of y) ->
  float_value (sub_result x y) = round64 (value_of x - value_of y).
Proof.
  intros Bx By.
  pose proof (float_value_exact x Bx) as Ex.
  pose proof (float_value_exact y By) as Ey.
  destruct x as [a | fx], y as [b | fy];
    cbn [sub_result float_value value_of] in *; apply round64_ext;
    [unfold Z.sub; rewrite inject_Z_plus, inject_Z_opp; reflexivity | ..];
    (apply Qplus_comp; [exact Ex | apply Qopp_comp; exact Ey]).
Qed.

Lemma py_add_float (x : pynum) (f : pyfloat) :
  py_add x (PyFloat f) = do a <- to_float x; Ok (PyFloat (float_add a f)).
Proof. destruct x; reflexivity. Qed.

Lemma py_mul_float (f : pyfloat) (y : pynum) :
  py_mul (PyFloat f) y = do b <- to_float y; Ok (PyFloat (float_mul f b)).
Proof. reflexivity. Qed.

Lemma binary64_1 : binary64 1.
Proof. apply (binary64_Z 1). simpl. lia. Qed.

Lemma Qabs_mul_unit (t r : Q) (k : Z) :
  0 <= t -> t <= 1 -> Qabs r <= pow2 k -> Qabs (t * r) <= pow2 k.
Proof.
  intros H0 H1 Hr. rewrite Qabs_Qmult, (Qabs_pos t) by exact H0.
  pose proof (Qabs_nonneg r) as Hn.
  apply Qle_trans with (1 * Qabs r); [| lra].
  apply Qmult_le_compat_r; assumption.
Qed.

(** [n / 65535] for the integer of at most 16 bits. *)
Lemma normalized_eval (n : Z) :
  (0 <= n <= 65535)%Z ->
  py_truediv (PyInt n) (PyInt 65535)
  = Ok (PyFloat (Finite (round64 (inject_Z n / 65535))))
  /\ 0 <= round64 (inject_Z n / 65535) /\ round64 (inject_Z n / 65535) <= 1.
Proof.
  intros [H0 H1]. cbn [py_truediv Z.eqb].
  rewrite Zle_Qle in H0, H1.
  assert (0 <= inject_Z n / 65535 /\ inject_Z n / 65535 <= 1) as [Hlo Hhi].
  { change (inject_Z 0) with 0 in H0. change (inject_Z 65535) with 65535 in H1.
    split; [apply Qle_shift_div_l | apply Qle_shift_div_r]; lra. }
  pose proof (pow2_pos 1024) as Hp.
  assert (1 < pow2 1024) as Hp1.
  { change 1 with (pow2 0). apply pow2_lt. lia. }
  destruct (fl_between _ 0 1 Hlo Hhi binary64_0 binary64_1) as (E & Rlo & Rhi);
    [lra | lra |].
  change (inject_Z 65535) with 65535. rewrite E. auto.
Qed.

Lemma decode_eval (self : Param) (bits : list bool) (n : Z) :
  bounded (min_value self) -> bounded (max_value self) ->
  int_base2 (concat (map bit_char bits)) = Ok n -> (0 <= n <= 65535)%Z ->
  decode self bits
  = Ok (if is_integer self then PyInt (py_round (decoded self n))
        else PyFloat (Finite (decoded self n))).
Proof.
  intros Hmin Hmax Hn Hr. unfold decode. rewrite Hn. cbn [bind].
  destruct (normalized_eval n Hr) as (-> & T0 & T1). cbn [bind].
  destruct (py_sub_eval 1000 _ _ Hmax Hmin ltac:(lia)) as [-> Hw]. cbn [bind].
  rewrite py_mul_float.
  destruct (to_float_value 1001 _ Hw ltac:(lia)) as [-> Bw]. cbn [bind float_mul].
  pose proof (Qabs_mul_unit _ _ 1001 T0 T1 Bw) as Hprod.
  destruct (fl_bounded _ 1001 Hprod ltac:(lia)) as [-> Bp].
  rewrite py_add_float.
  destruct (to_float_value 1000 _ Hmin ltac:(lia)) as [-> Ba]. cbn [bind float_add].
  pose proof (Qabs_add_le _ _ 1001 (Qabs_le_weaken _ 1000 1001 Ba ltac:(lia)) Bp)
    as Hsum.
  rewrite (fl_small _ (1001 + 1) Hsum ltac:(lia)).
  unfold decoded, decode_value. destruct (is_integer self); reflexivity.
Qed.

Lemma decode_value_monotone (a r : Q) (n1 n2 : Z) :
  0 <= r -> (n1 <= n2)%Z -> decode_value a r n1 <= decode_value a r n2.
Proof.
  intros Hr Hn. unfold decode_value.
  apply round64_monotone. apply Qplus_le_r. apply round64_monotone.
  apply Qmult_le_compat_r; [| exact Hr]. apply round64_monotone.
  apply Qmult_le_compat_r; [| discriminate]. rewrite <- Zle_Qle. exact Hn.
Qed.

Lemma decode_value_0 (a r : Q) : decode_value a r 0 == round64 a.
Proof.
  unfold decode_value. apply round64_comp.
  assert (inject_Z 0 / 65535 == 0) as -> by reflexivity.
  rewrite round64_0, Qmult_0_l, round64_0. ring.
Qed.

Lemma decode_value_65535 (a r : Q) :
  decode_value a r 65535 == round64 (a + round64 r).
Proof.
  unfold decode_value. apply round64_comp.
  assert (inject_Z 65535 / 65535 == 1) as -> by reflexivity.
  rewrite binary64_1, Qmult_1_l. reflexivity.
Qed.

Lemma fl_not_nan (x : Q) : fl x <> NaN.
Proof. unfold fl. destruct (Qle_bool _ _); discriminate. Qed.

Lemma fl_65535 : fl (inject_Z 65535) = Finite 65535.
Proof. vm_compute. reflexivity. Qed.

Lemma is_zero_inject (b : Z) : is_zero (inject_Z b) = (b =? 0)%Z.
Proof. destruct b; reflexivity. Qed.

Lemma is_zero_true (x : Q) : is_zero x = true <-> x == 0.
Proof. unfold is_zero. apply Qeq_bool_iff. Qed.

Lemma is_zero_false (x : Q) : is_zero x = false <-> ~ x == 0.
Proof.
  unfold is_zero. split.
  - intros H E. apply Qeq_bool_iff in E. congruence.
  - intros H. destruct (Qeq_bool x 0) eqn:E; [| reflexivity].
    apply Qeq_bool_iff in E. contradiction.
Qed.

Lemma scale_eval (f : pyfloat) :
  (do scaled <- py_mul (PyFloat f) (PyInt 65535); int_of_number scaled)
  = match f with
    | Finite q =>
        match fl (q * 65535) with
        | Finite s => Ok (py_int s)
        | Infinite _ => Raise OverflowError
        | NaN => Raise ValueError
        end
    | Infinite _ => Raise OverflowError
    | NaN => Raise ValueError
    end.
Proof.
  rewrite py_mul_float. cbn [to_float]. rewrite fl_65535. cbn [bind].
  destruct f as [q | s |]; cbn [float_mul]; [| reflexivity | reflexivity].
  destruct (fl (q * 65535)) as [s | s |]; reflexivity.
Qed.

Lemma truediv_eval (s w : pynum) :
  bounded_by 1001 s -> bounded_by 1001 w ->
  (do normalized <- py_truediv s w;
   do scaled <- py_mul normalized (PyInt 65535);
   int_of_number scaled)
  = code_of (fst (quotient_args s w)) (snd (quotient_args s w)).
Proof.
  intros Hs Hw.
  destruct (to_float_value 1001 s Hs ltac:(lia)) as [Es _].
  destruct (to_float_value 1001 w Hw ltac:(lia)) as [Ew _].
  assert ((exists a b, s = PyInt a /\ w = PyInt b) \/
          (quotient_args s w = (float_value s, float_value w) /\
           py_truediv s w = do a <- to_float s; do b <- to_float w;
                            do q <- float_div a b; Ok (PyFloat q)))
    as [(a & b & -> & ->) | [Eq Ed]].
  { destruct s as [a | fs], w as [b | fw]; [left; eauto | right ..];
      split; reflexivity. }
  - cbn [quotient_args fst snd py_truediv]. unfold code_of.
    rewrite is_zero_inject. destruct (b =? 0)%Z; [reflexivity |].
    pose proof (fl_not_nan (inject_Z a / inject_Z b)) as Hn.
    destruct (fl (inject_Z a / inject_Z b)) as [q | sg |];
      [| reflexivity | congruence].
    cbn [bind]. apply (scale_eval (Finite q)).
  - rewrite Eq, Ed, Es, Ew. cbn [fst snd bind float_div]. unfold code_of.
    destruct (is_zero (float_value w)); [reflexivity |]. cbn [bind].
    apply scale_eval.
Qed.

Lemma encode_eval (self : Param) (v : pynum) :
  bounded v -> bounded (min_value self) -> bounded (max_value self) ->
  encode self v
  = do n <- code_of
              (fst (quotient_args (sub_result v (min_value self))
                                  (sub_result (max_value self) (min_value self))))
              (snd (quotient_args (sub_result v (min_value self))
                                  (sub_result (max_value self) (min_value self))));
    Ok (map is_one (format_016b n)).
Proof.
  intros Hv Hmin Hmax. unfold encode.
  destruct (py_sub_eval 1000 _ _ Hv Hmin ltac:(lia)) as [-> Hs]. cbn [bind].
  destruct (py_sub_eval 1000 _ _ Hmax Hmin ltac:(lia)) as [-> Hw]. cbn [bind].
  rewrite <- (truediv_eval _ _ Hs Hw).
  destruct (py_truediv _ _) as [normalized | e]; [| reflexivity]. cbn [bind].
  destruct (py_mul normalized (PyInt 65535)) as [scaled | e]; [| reflexivity].
  reflexivity.
Qed.

(** The two shapes of the operands for representable numbers. *)
Lemma quotient_args_cases (v a b : pynum) :
  representable v -> representable a -> representable b ->
  let N := fst (quotient_args (sub_result v a) (sub_result b a)) in
  let D := snd (quotient_args (sub_result v a) (sub_result b a)) in
  (N == value_of v - value_of a /\ D == value_of b - value_of a
   /\ exists nv na nb, v = PyInt nv /\ a = PyInt na /\ b = PyInt nb)
  \/ (N = round64 (value_of v - value_of a)
      /\ D = round64 (value_of b - value_of a)).
Proof.
  intros [_ Bv] [_ Ba] [_ Bb] N D.
  pose proof (sub_result_float v a Bv Ba) as Es.
  pose proof (sub_result_float b a Bb Ba) as Ew.
  unfold N, D.
  destruct v as [nv | fv], a as [na | fa], b as [nb | fb];
    try (right; split; [exact Es | exact Ew]).
  left. cbn [sub_result quotient_args fst snd value_of]. unfold Z.sub.
  rewrite !inject_Z_plus, !inject_Z_opp.
  split; [reflexivity |]. split; [reflexivity |].
  exists nv, na, nb. repeat split.
Qed.

Lemma py_int_monotone (x y : Q) : x <= y -> (py_int x <= py_int y)%Z.
Proof.
  intros H. destruct (Qlt_le_dec x 0) as [Hx | Hx], (Qlt_le_dec y 0) as [Hy | Hy].
  - rewrite !py_int_ceiling by lra. apply Qceiling_resp_le. exact H.
  - rewrite py_int_ceiling, py_int_floor by lra.
    apply Z.le_trans with 0%Z.
    + change 0%Z with (Qceiling 0). apply Qceiling_resp_le. lra.
    + change 0%Z with (Qfloor 0). apply Qfloor_resp_le. lra.
  - lra.
  - rewrite !py_int_floor by lra. apply Qfloor_resp_le. exact H.
Qed.

Lemma fl_Finite_inv (x q : Q) : fl x = Finite q -> q = round64 x.
Proof.
  unfold fl. destruct (Qle_bool _ _); [discriminate |].
  intros E. injection E as <-. reflexivity.
Qed.

Lemma pow2_16 : pow2 16 == 65536.
Proof. reflexivity. Qed.

Lemma Qabs_scale_65535 (q : Q) (k : Z) :
  Qabs q <= pow2 k -> Qabs (q * 65535) <= pow2 (k + 16).
Proof.
  intros H. rewrite Qabs_Qmult. change (Qabs 65535) with 65535.
  rewrite pow2_add, pow2_16. pose proof (Qabs_nonneg q). lra.
Qed.

(** The integer that is formatted, when the quotient of the operands
    lies between two binary64 numbers. *)
Lemma code_of_between (N D c1 c2 : Q) :
  ~ D == 0 -> c1 <= N / D -> N / D <= c2 ->
  binary64 c1 -> binary64 c2 -> - pow2 1001 <= c1 -> c2 <= pow2 1001 ->
  exists n, code_of N D = Ok n
    /\ (py_int (round64 (c1 * 65535)) <= n <= py_int (round64 (c2 * 65535)))%Z.
Proof.
  intros HD H1 H2 B1 B2 M1 M2.
  pose proof (pow2_lt 1001 1024 ltac:(lia)) as Hlt.
  destruct (fl_between _ c1 c2 H1 H2 B1 B2) as (E & R1 & R2); [lra | lra |].
  unfold code_of. apply is_zero_false in HD. rewrite HD, E.
  set (q := round64 (N / D)) in *.
  assert (Qabs q <= pow2 1001) as Hq by (apply Qabs_le_iff; split; lra).
  pose proof (Qabs_scale_65535 q 1001 Hq) as Hs.
  rewrite (fl_small _ _ Hs ltac:(lia)).
  eexists. split; [reflexivity |].
  split; apply py_int_monotone, round64_monotone; lra.
Qed.

Lemma code_of_unit (N D : Q) :
  0 < D -> 0 <= N -> N <= D ->
  exists n, code_of N D = Ok n /\ (0 <= n <= 65535)%Z.
Proof.
  intros HD H0 H1.
  assert (1 <= pow2 1001) as Hp.
  { change 1 with (pow2 0). apply pow2_le. lia. }
  destruct (code_of_between N D 0 1) as (n & E & Hn).
  - lra.
  - apply Qle_shift_div_l; lra.
  - apply Qle_shift_div_r; lra.
  - exact binary64_0.
  - exact binary64_1.
  - lra.
  - exact Hp.
  - exists n. split; [exact E |]. exact Hn.
Qed.

Lemma code_of_monotone (N1 N2 D : Q) (n1 n2 : Z) :
  0 < D -> N1 <= N2 ->
  code_of N1 D = Ok n1 -> code_of N2 D = Ok n2 -> (n1 <= n2)%Z.
Proof.
  intros HD HN. unfold code_of.
  destruct (is_zero D); [discriminate |].
  destruct (fl (N1 / D)) as [q1 | |] eqn:E1; try discriminate.
  destruct (fl (N2 / D)) as [q2 | |] eqn:E2; try discriminate.
  destruct (fl (q1 * 65535)) as [s1 | |] eqn:F1; try discriminate.
  destruct (fl (q2 * 65535)) as [s2 | |] eqn:F2; try discriminate.
  intros [= <-] [= <-].
  apply fl_Finite_inv in E1, E2, F1, F2. subst.
  apply py_int_monotone, round64_monotone.
  apply Qmult_le_compat_r; [| discriminate].
  apply round64_monotone.
  apply Qmult_le_compat_r; [exact HN |].
  apply Qlt_le_weak, Qinv_lt_0_compat, HD.
Qed.

Lemma code_of_comp (N N' D D' : Q) :
  N == N' -> D == D' -> code_of N D = code_of N' D'.
Proof.
  intros EN ED. unfold code_of.
  assert (is_zero D = is_zero D') as ->.
  { unfold is_zero. destruct (Qeq_bool D 0) eqn:E1, (Qeq_bool D' 0) eqn:E2;
      try reflexivity.
    - apply Qeq_bool_iff in E1. rewrite ED in E1. apply Qeq_bool_iff in E1. congruence.
    - apply Qeq_bool_iff in E2. rewrite <- ED in E2. apply Qeq_bool_iff in E2. congruence. }
  rewrite (fl_ext (N / D) (N' / D')); [reflexivity |].
  rewrite EN, ED. reflexivity.
Qed.

Lemma code_of_zero (N D : Q) : N == 0 -> ~ D == 0 -> code_of N D = Ok 0%Z.
Proof.
  intros EN HD. unfold code_of. apply is_zero_false in HD. rewrite HD.
  rewrite (fl_ext (N / D) 0); [vm_compute; reflexivity |].
  rewrite EN. unfold Qdiv. ring.
Qed.

Lemma code_of_one (N D : Q) : N == D -> ~ D == 0 -> code_of N D = Ok 65535%Z.
Proof.
  intros EN HD. unfold code_of. pose proof HD as HD'.
  apply is_zero_false in HD. rewrite HD.
  rewrite (fl_ext (N / D) 1); [vm_compute; reflexivity |].
  rewrite EN. field. exact HD'.
Qed.

Lemma representable_bounded (v : pynum) : representable v -> bounded v.
Proof. intros [H _]. exact H. Qed.

Lemma code_value (bits : list bool) :
  bits <> [] -> (length bits <= 16)%nat ->
  int_base2 (concat (map bit_char bits)) = Ok (bits_value bits)
  /\ (0 <= bits_value bits <= 65535)%Z.
Proof.
  intros Hne Hlen. split; [apply int_base2_join; exact Hne |].
  pose proof (bits_value_bounds bits) as Hb.
  assert (2 ^ Z.of_nat (length bits) <= 2 ^ 16)%Z
    by (apply Z.pow_le_mono_r; lia).
  lia.
Qed.

(** [decode] on a code of at most 16 bits, for bounded bounds. *)
Lemma decode_code (self : Param) (bits : list bool) :
  bounded (min_value self) -> bounded (max_value self) ->
  bits <> [] -> (length bits <= 16)%nat ->
  decode self bits
  = Ok (if is_integer self
        then PyInt (py_round (decoded self (bits_value bits)))
        else PyFloat (Finite (decoded self (bits_value bits)))).
Proof.
  intros Hmin Hmax Hne Hlen.
  destruct (code_value bits Hne Hlen) as [E Hr].
  apply decode_eval; assumption.
Qed.

Lemma decode_value_comp (a a' r r' : Q) (n : Z) :
  a == a' -> r == r' -> decode_value a r n == decode_value a' r' n.
Proof.
  intros Ea Er. unfold decode_value. rewrite Ea, Er. reflexivity.
Qed.

Lemma decoded_view (self : Param) (n : Z) :
  representable (min_value self) -> representable (max_value self) ->
  decoded self n
  == decode_value (value_of (min_value self))
       (round64 (value_of (max_value self) - value_of (min_value self))) n.
Proof.
  intros [_ Ba] [_ Bb]. unfold decoded.
  rewrite (sub_result_float _ _ Bb Ba).
  apply decode_value_comp; [apply float_value_exact; exact Ba | reflexivity].
Qed.

Lemma decoded_monotone (self : Param) (n1 n2 : Z) :
  representable (min_value self) -> representable (max_value self) ->
  value_of (min_value self) <= value_of (max_value self) ->
  (n1 <= n2)%Z -> decoded self n1 <= decoded self n2.
Proof.
  intros Ha Hb Hab Hn. rewrite !decoded_view by assumption.
  apply decode_value_monotone; [| exact Hn].
  apply round64_nonneg. lra.
Qed.

Lemma round64_idem (x : Q) : round64 (round64 x) == round64 x.
Proof. apply binary64_round64. Qed.

Lemma decoded_bounds (self : Param) (n : Z) :
  representable (min_value self) -> representable (max_value self) ->
  binary64 (value_of (max_value self) - value_of (min_value self)) ->
  value_of (min_value self) <= value_of (max_value self) ->
  (0 <= n <= 65535)%Z ->
  value_of (min_value self) <= decoded self n
  /\ decoded self n <= value_of (max_value self).
Proof.
  intros Ha Hb Hd Hab Hn.
  pose proof (decoded_monotone self 0 n Ha Hb Hab ltac:(lia)) as Hlo.
  pose proof (decoded_monotone self n 65535 Ha Hb Hab ltac:(lia)) as Hhi.
  rewrite (decoded_view self 0) in Hlo by assumption.
  rewrite (decoded_view self 65535) in Hhi by assumption.
  rewrite decode_value_0 in Hlo. rewrite decode_value_65535 in Hhi.
  destruct Ha as [_ Ba], Hb as [_ Bb]. unfold binary64 in Ba, Bb, Hd.
  rewrite Ba in Hlo. rewrite round64_idem, Hd in Hhi.
  assert (value_of (min_value self)
          + (value_of (max_value self) - value_of (min_value self))
          == value_of (max_value self)) as E by ring.
  rewrite E, Bb in Hhi. split; assumption.
Qed.

(** C10, as amended.  For a parameter with [min_value < max_value]
    whose bounds are representable numbers with a difference
    [max_value - min_value] that is a binary64 number as well (whole
    bounds of magnitude up to [2^52] are such), and whose bounds are
    whole when it is an integer parameter, the decoding of any 16 bits
    succeeds and lies within the bounds; it is an int for an integer
    parameter. *)
Theorem decode_within_bounds (self : Param) (bits : list bool) :
  representable (min_value self) -> representable (max_value self) ->
  binary64 (value_of (max_value self) - value_of (min_value self)) ->
  value_of (min_value self) < value_of (max_value self) ->
  length bits = 16%nat ->
  (is_integer self = true ->
   whole (value_of (min_value self)) /\ whole (value_of (max_value self))) ->
  exists v : pynum,
    decode self bits = Ok v
    /\ finite v
    /\ value_of (min_value self) <= value_of v
    /\ value_of v <= value_of (max_value self)
    /\ (is_integer self = true -> exists k : Z, v = PyInt k).
Proof.
  intros Ha Hb Hd Hlt Hlen Hwhole.
  assert (bits <> []) as Hne by (intros E; rewrite E in Hlen; discriminate).
  rewrite (decode_code self bits (representable_bounded _ Ha)
             (representable_bounded _ Hb) Hne ltac:(lia)).
  destruct (code_value bits Hne ltac:(lia)) as [_ Hr].
  destruct (decoded_bounds self (bits_value bits) Ha Hb Hd ltac:(lra) Hr)
    as [Hlo Hhi].
  destruct (is_integer self) eqn:Hint.
  - destruct (Hwhole eq_refl) as [[a Ea] [b Eb]].
    eexists. split; [reflexivity |]. split; [exact I |]. cbn [value_of].
    split; [| split; [| intros _; eexists; reflexivity]].
    + rewrite Ea, <- Zle_Qle. apply py_round_ge_whole. rewrite <- Ea. exact Hlo.
    + rewrite Eb, <- Zle_Qle. apply py_round_le_whole. rewrite <- Eb. exact Hhi.
  - eexists. split; [reflexivity |]. split; [exact I |]. cbn [value_of].
    split; [exact Hlo |]. split; [exact Hhi | discriminate].
Qed.

Lemma representable_PyInt (n : Z) :
  (Z.abs n <= 2 ^ 53)%Z -> representable (PyInt n).
Proof.
  intros H. split; [split; [exact I |] | apply binary64_Z; exact H].
  cbn [value_of].
  assert (Qabs (inject_Z n) == inject_Z (Z.abs n)) as -> by reflexivity.
  apply Qle_trans with (pow2 53); [| apply pow2_le; lia].
  rewrite pow2_nonneg_Z by lia. rewrite <- Zle_Qle. exact H.
Qed.

Lemma decode_within_bounds_witness :
  exists v : pynum,
    decode depth (repeat true 16) = Ok v
    /\ finite v
    /\ value_of (min_value depth) <= value_of v
    /\ value_of v <= value_of (max_value depth)
    /\ (is_integer depth = true -> exists k : Z, v = PyInt k).
Proof.
  apply (decode_within_bounds depth (repeat true 16)).
  - apply representable_PyInt. by_evaluation.
  - apply representable_PyInt. by_evaluation.
  - apply (binary64_Z 9). by_evaluation.
  - reflexivity.
  - reflexivity.
  - intros _. split; [exists 1%Z | exists 10%Z]; reflexivity.
Defined.

(** C10 as stated fails, twice.  An integer parameter bounded by 0.6 and
    0.9 decodes the sixteen zero bits to 1, which exceeds its upper
    bound; and the float parameter bounded by 0.3 and 0.9 decodes the
    sixteen one bits to 0.9000000000000001, because
    [0.3 + 1.0 * (0.9 - 0.3)] is rounded twice. *)
Lemma decode_fractional_out_of_bounds :
  (value_of (min_value fractional) < value_of (max_value fractional)
   /\ length (repeat false 16) = 16%nat
   /\ decode fractional (repeat false 16) = Ok (PyInt 1)
   /\ ~ value_of (PyInt 1) <= value_of (max_value fractional))
  /\ (value_of (min_value tenths) < value_of (max_value tenths)
      /\ length (repeat true 16) = 16%nat
      /\ decode tenths (repeat true 16)
         = Ok (PyFloat (Finite (4053239664633447 # 4503599627370496)))
      /\ ~ (4053239664633447 # 4503599627370496) <= value_of (max_value tenths)).
Proof.
  split; (split; [reflexivity |]; split; [reflexivity |]; split;
          [vm_compute; reflexivity |]);
    vm_compute; intros H; apply H; reflexivity.
Qed.

(** X4.  [decode] raises a [ValueError] on the empty list (from
    [int('', 2)]); for bounded bounds every non-empty list of at most 16
    booleans decodes to a finite number. *)
Theorem decode_error_iff (self : Param) (bits : list bool) :
  (bits = [] -> decode self bits = Raise ValueError)
  /\ (bounded (min_value self) -> bounded (max_value self) ->
      bits <> [] -> (length bits <= 16)%nat ->
      exists v, decode self bits = Ok v /\ finite v).
Proof.
  split.
  - intros ->. reflexivity.
  - intros Hmin Hmax Hne Hlen. rewrite decode_code by assumption.
    destruct (is_integer self); eexists; split; reflexivity || exact I.
Qed.

(** X6.  For representable bounds with [min_value <= max_value],
    [decode] is monotone in the number its bits stand for, also through
    the roundings of the float arithmetic and of integer parameters. *)
Theorem decode_monotone (self : Param) (bits1 bits2 : list bool) :
  representable (min_value self) -> representable (max_value self) ->
  value_of (min_value self) <= value_of (max_value self) ->
  bits1 <> [] -> bits2 <> [] ->
  (length bits1 <= 16)%nat -> (length bits2 <= 16)%nat ->
  (bits_value bits1 <= bits_value bits2)%Z ->
  exists v1 v2,
    decode self bits1 = Ok v1 /\ decode self bits2 = Ok v2
    /\ finite v1 /\ finite v2
    /\ value_of v1 <= value_of v2.
Proof.
  intros Ha Hb Hab Hne1 Hne2 Hl1 Hl2 Hle.
  rewrite !decode_code by (assumption || apply representable_bounded; assumption).
  pose proof (decoded_monotone self _ _ Ha Hb Hab Hle) as Hm.
  destruct (is_integer self); eexists; eexists;
    (split; [reflexivity |]); (split; [reflexivity |]);
    (split; [exact I |]); (split; [exact I |]); cbn [value_of].
  - rewrite <- Zle_Qle. apply py_round_monotone. exact Hm.
  - exact Hm.
Qed.

Lemma decode_monotone_witness :
  exists v1 v2,
    decode depth (repeat false 16) = Ok v1
    /\ decode depth (repeat true 16) = Ok v2
    /\ finite v1 /\ finite v2
    /\ value_of v1 <= value_of v2.
Proof.
  apply (decode_monotone depth (repeat false 16) (repeat true 16)).
  - apply representable_PyInt. by_evaluation.
  - apply representable_PyInt. by_evaluation.
  - discriminate.
  - discriminate.
  - discriminate.
  - apply Nat.le_refl.
  - apply Nat.le_refl.
  - by_evaluation.
Defined.

Lemma encode_code (self : Param) (v : pynum) :
  bounded v -> bounded (min_value self) -> bounded (max_value self) ->
  encode self v
  = do n <- code_of (fst (operands self v)) (snd (operands self v));
    Ok (map is_one (format_016b n)).
Proof. apply encode_eval. Qed.

Lemma operands_cases (self : Param) (v : pynum) :
  representable v -> representable (min_value self) ->
  representable (max_value self) ->
  (fst (operands self v) == value_of v - value_of (min_value self)
   /\ snd (operands self v)
      == value_of (max_value self) - value_of (min_value self)
   /\ exists nv na nb, v = PyInt nv /\ min_value self = PyInt na
                       /\ max_value self = PyInt nb)
  \/ (fst (operands self v) = round64 (value_of v - value_of (min_value self))
      /\ snd (operands self v)
         = round64 (value_of (max_value self) - value_of (min_value self))).
Proof.
  intros Hv Ha Hb.
  exact (quotient_args_cases v (min_value self) (max_value self) Hv Ha Hb).
Qed.

Lemma round64_gap_neg (a b : Q) :
  binary64 a -> binary64 b -> b < a -> round64 (b - a) <= - pow2 (-1074).
Proof.
  intros Ba Bb Hab.
  destruct (binary64_grid a Ba) as [ma Ea].
  destruct (binary64_grid b Bb) as [mb Eb].
  pose proof (pow2_pos (-1074)) as Hp.
  apply round64_le; [| apply binary64_opp_pow2; lia].
  assert (mb < ma)%Z as Hm.
  { destruct (Z_lt_le_dec mb ma) as [H | H]; [exact H | exfalso].
    assert (inject_Z ma * pow2 (-1074) <= inject_Z mb * pow2 (-1074)) as Hle.
    { apply Qmult_le_compat_r; [| lra]. rewrite <- Zle_Qle. exact H. }
    lra. }
  assert (inject_Z 1 * pow2 (-1074) <= inject_Z (ma - mb) * pow2 (-1074)) as Hle.
  { apply Qmult_le_compat_r; [| lra]. rewrite <- Zle_Qle. lia. }
  unfold Z.sub in Hle. rewrite inject_Z_plus, inject_Z_opp in Hle.
  change (inject_Z 1) with 1 in Hle. lra.
Qed.

Lemma divisor_sign (self : Param) (v : pynum) :
  representable v -> representable (min_value self) ->
  representable (max_value self) ->
  (value_of (min_value self) < value_of (max_value self) ->
   0 < snd (operands self v))
  /\ (value_of (max_value self) < value_of (min_value self) ->
      snd (operands self v) < 0)
  /\ (value_of (max_value self) == value_of (min_value self) ->
      snd (operands self v) == 0).
Proof.
  intros Hv Ha Hb. pose proof (pow2_pos (-1074)) as Hp.
  destruct (operands_cases self v Hv Ha Hb) as [(_ & -> & _) | [_ ->]].
  - repeat split; intros H; lra.
  - destruct Ha as [_ Ba], Hb as [_ Bb]. repeat split; intros H.
    + pose proof (round64_gap _ _ Ba Bb H). lra.
    + pose proof (round64_gap_neg _ _ Ba Bb H). lra.
    + apply round64_zero. lra.
Qed.

(** X1.  For representable bounds and value, [encode] raises a
    [ZeroDivisionError] exactly when the two bounds are equal; the one
    other exception it can raise is an [OverflowError], and what it
    returns has at least 16 booleans. *)
Theorem encode_error_iff (self : Param) (v : pynum) :
  representable v -> representable (min_value self) ->
  representable (max_value self) ->
  (encode self v = Raise ZeroDivisionError
   <-> value_of (max_value self) == value_of (min_value self))
  /\ (forall e, encode self v = Raise e ->
      e = ZeroDivisionError \/ e = OverflowError)
  /\ (forall bits, encode self v = Ok bits -> (16 <= length bits)%nat).
Proof.
  intros Hv Ha Hb.
  rewrite (encode_code self v) by (apply representable_bounded; assumption).
  destruct (divisor_sign self v Hv Ha Hb) as (Hpos & Hneg & Hzero).
  set (N := fst (operands self v)) in *. set (D := snd (operands self v)) in *.
  pose proof (fl_not_nan (N / D)) as Hq.
  assert (forall q, fl (q * 65535) <> NaN) as Hs by (intros q; apply fl_not_nan).
  split; [split |]; [| | split].
  - intros E.
    destruct (Q_dec (value_of (max_value self)) (value_of (min_value self)))
      as [[H | H] | H]; [| | exact H]; exfalso.
    + specialize (Hneg H). unfold code_of in E.
      replace (is_zero D) with false in E
        by (symmetry; apply is_zero_false; lra).
      destruct (fl (N / D)) as [q | |]; [| discriminate ..].
      destruct (fl (q * 65535)); discriminate.
    + specialize (Hpos H). unfold code_of in E.
      replace (is_zero D) with false in E
        by (symmetry; apply is_zero_false; lra).
      destruct (fl (N / D)) as [q | |]; [| discriminate ..].
      destruct (fl (q * 65535)); discriminate.
  - intros H. specialize (Hzero H). unfold code_of.
    replace (is_zero D) with true by (symmetry; apply is_zero_true; exact Hzero).
    reflexivity.
  - intros e. unfold code_of. destruct (is_zero D); [intros [= <-]; auto |].
    destruct (fl (N / D)) as [q | |]; [| intros [= <-]; auto | congruence].
    specialize (Hs q).
    destruct (fl (q * 65535)); [discriminate | intros [= <-]; auto | congruence].
  - intros bits. destruct (code_of N D) as [n | e]; [| discriminate].
    intros [= <-]. rewrite length_map. apply format_016b_min_width.
Qed.

Lemma encode_error_iff_witness :
  (encode depth (PyInt 7) = Raise ZeroDivisionError
   <-> value_of (max_value depth) == value_of (min_value depth))
  /\ (forall e, encode depth (PyInt 7) = Raise e ->
      e = ZeroDivisionError \/ e = OverflowError)
  /\ (forall bits, encode depth (PyInt 7) = Ok bits -> (16 <= length bits)%nat).
Proof.
  apply (encode_error_iff depth (PyInt 7));
    apply representable_PyInt; by_evaluation.
Defined.

Lemma code_bits (n : Z) :
  (0 <= n <= 65535)%Z ->
  length (map is_one (format_016b n)) = 16%nat
  /\ bits_value (map is_one (format_016b n)) = n.
Proof.
  intros Hn. split; [| apply format_bits_value; lia].
  rewrite format_bits_length by lia.
  pose proof (bin_digits_width n) as [_ Hw].
  specialize (Hw ltac:(lia)). lia.
Qed.

Lemma operands_in_range (self : Param) (v : pynum) :
  representable v -> representable (min_value self) ->
  representable (max_value self) ->
  value_of (min_value self) < value_of (max_value self) ->
  value_of (min_value self) <= value_of v ->
  value_of v <= value_of (max_value self) ->
  0 < snd (operands self v) /\ 0 <= fst (operands self v)
  /\ fst (operands self v) <= snd (operands self v).
Proof.
  intros Hv Ha Hb Hlt Hlo Hhi.
  destruct (divisor_sign self v Hv Ha Hb) as (Hpos & _).
  split; [apply Hpos; exact Hlt |].
  destruct (operands_cases self v Hv Ha Hb) as [(-> & -> & _) | [-> ->]].
  - split; lra.
  - split; [apply round64_nonneg; lra | apply round64_monotone; lra].
Qed.

(** X2.  For representable bounds with [min_value < max_value] and a
    representable value inside them, [encode] returns exactly 16
    booleans, which stand for a number between 0 and 65535. *)
Theorem encode_in_range (self : Param) (v : pynum) :
  representable v -> representable (min_value self) ->
  representable (max_value self) ->
  value_of (min_value self) < value_of (max_value self) ->
  value_of (min_value self) <= value_of v ->
  value_of v <= value_of (max_value self) ->
  exists bits,
    encode self v = Ok bits
    /\ length bits = 16%nat
    /\ (0 <= bits_value bits <= 65535)%Z.
Proof.
  intros Hv Ha Hb Hlt Hlo Hhi.
  rewrite (encode_code self v) by (apply representable_bounded; assumption).
  destruct (operands_in_range self v Hv Ha Hb Hlt Hlo Hhi) as (HD & H0 & H1).
  destruct (code_of_unit _ _ HD H0 H1) as (n & -> & Hn). cbn [bind].
  destruct (code_bits n Hn) as [Hlen Hval].
  eexists. split; [reflexivity |]. split; [exact Hlen |]. rewrite Hval. exact Hn.
Qed.

Lemma encode_in_range_witness :
  exists bits,
    encode depth (PyInt 7) = Ok bits
    /\ length bits = 16%nat
    /\ (0 <= bits_value bits <= 65535)%Z.
Proof.
  apply (encode_in_range depth (PyInt 7));
    try (apply representable_PyInt; by_evaluation); by_evaluation.
Defined.

Lemma plain_PyInt (n : Z) : (Z.abs n <= 2 ^ 52)%Z -> plain (PyInt n).
Proof.
  intros H. split; [apply representable_PyInt; lia | exact H].
Qed.

Lemma operands_plain (self : Param) (v : pynum) :
  plain v -> plain (min_value self) -> plain (max_value self) ->
  fst (operands self v) == round64 (value_of v - value_of (min_value self))
  /\ snd (operands self v)
     == round64 (value_of (max_value self) - value_of (min_value self)).
Proof.
  intros [Hv Sv] [Ha Sa] [Hb Sb].
  destruct (operands_cases self v Hv Ha Hb)
    as [(EN & ED & nv & na & nb & Ev & Ea & Eb) | [-> ->]];
    [| split; reflexivity].
  rewrite EN, ED. rewrite Ev in *. rewrite Ea in *. rewrite Eb in *.
  cbn [value_of]. split; symmetry.
  - assert (inject_Z nv - inject_Z na == inject_Z (nv - na)) as ->
      by (unfold Z.sub; rewrite inject_Z_plus, inject_Z_opp; reflexivity).
    apply binary64_Z. lia.
  - assert (inject_Z nb - inject_Z na == inject_Z (nb - na)) as ->
      by (unfold Z.sub; rewrite inject_Z_plus, inject_Z_opp; reflexivity).
    apply binary64_Z. lia.
Qed.

(** X3.  Inside the bounds [encode] is monotone: a larger value never
    gets a smaller code, for floats and for ints of magnitude up to
    [2^52]. *)
Theorem encode_monotone (self : Param) (v1 v2 : pynum) :
  plain v1 -> plain v2 -> plain (min_value self) -> plain (max_value self) ->
  value_of (min_value self) < value_of (max_value self) ->
  value_of (min_value self) <= value_of v1 ->
  value_of v1 <= value_of v2 ->
  value_of v2 <= value_of (max_value self) ->
  exists bits1 bits2,
    encode self v1 = Ok bits1 /\ encode self v2 = Ok bits2
    /\ (bits_value bits1 <= bits_value bits2)%Z.
Proof.
  intros P1 P2 Pa Pb Hlt Hlo H12 Hhi.
  pose proof P1 as [R1 _]. pose proof P2 as [R2 _].
  pose proof Pa as [Ra _]. pose proof Pb as [Rb _].
  rewrite (encode_code self v1), (encode_code self v2)
    by (apply representable_bounded; assumption).
  destruct (operands_in_range self v1 R1 Ra Rb Hlt Hlo ltac:(lra))
    as (HD1 & H10 & H11).
  destruct (operands_in_range self v2 R2 Ra Rb Hlt ltac:(lra) Hhi)
    as (HD2 & H20 & H21).
  destruct (code_of_unit _ _ HD1 H10 H11) as (n1 & E1 & Hn1).
  destruct (code_of_unit _ _ HD2 H20 H21) as (n2 & E2 & Hn2).
  rewrite E1, E2. cbn [bind].
  destruct (code_bits n1 Hn1) as [_ V1]. destruct (code_bits n2 Hn2) as [_ V2].
  eexists. eexists. split; [reflexivity |]. split; [reflexivity |].
  rewrite V1, V2.
  destruct (operands_plain self v1 P1 Pa Pb) as [EN1 ED1].
  destruct (operands_plain self v2 P2 Pa Pb) as [EN2 ED2].
  rewrite (code_of_comp _ _ _ _ EN1 ED1) in E1.
  rewrite (code_of_comp _ _ _ _ EN2 ED2) in E2.
  refine (code_of_monotone _ _ _ n1 n2 _ _ E1 E2).
  - rewrite <- ED1. exact HD1.
  - apply round64_monotone. lra.
Qed.

Lemma encode_monotone_witness :
  exists bits1 bits2,
    encode depth (PyInt 3) = Ok bits1 /\ encode depth (PyInt 7) = Ok bits2
    /\ (bits_value bits1 <= bits_value bits2)%Z.
Proof.
  apply (encode_monotone depth (PyInt 3) (PyInt 7));
    try (apply plain_PyInt; by_evaluation); by_evaluation.
Defined.

Lemma Qabs_inject_Z (n : Z) : Qabs (inject_Z n) == inject_Z (Z.abs n).
Proof. reflexivity. Qed.

Lemma whole_representable (v : pynum) (n : Z) :
  finite v -> value_of v == inject_Z n -> (Z.abs n <= 2 ^ 53)%Z ->
  representable v.
Proof.
  intros Hf E Hn. split; [split; [exact Hf |] |].
  - rewrite E, Qabs_inject_Z.
    apply Qle_trans with (pow2 53); [| apply pow2_le; lia].
    rewrite pow2_nonneg_Z by lia. rewrite <- Zle_Qle. exact Hn.
  - apply (binary64_comp (inject_Z n)); [symmetry; exact E |].
    apply binary64_Z. exact Hn.
Qed.

Lemma half_binary64 (m : Z) :
  (Z.abs m <= 2 ^ 53)%Z -> binary64 (inject_Z m / 2).
Proof.
  intros H. apply (binary64_comp (inject_Z m * pow2 (-1))).
  - change (pow2 (-1)) with (1 # 2). field.
  - apply binary64_scaled; [exact H | lia].
Qed.

Lemma inject_Z_sub (a b : Z) : inject_Z (a - b) == inject_Z a - inject_Z b.
Proof. unfold Z.sub. rewrite inject_Z_plus, inject_Z_opp. reflexivity. Qed.

(** The operands for whole bounds: the divisor is [b - a], and the
    dividend is [v - a], rounded unless all three numbers are ints. *)
Lemma operands_whole (self : Param) (a b : Z) (v : pynum) :
  whole_bounds self a b -> (Z.abs a <= 2 ^ 50)%Z -> (Z.abs b <= 2 ^ 50)%Z ->
  representable v ->
  snd (operands self v) == inject_Z (b - a)
  /\ (fst (operands self v) == value_of v - inject_Z a
      \/ fst (operands self v) = round64 (value_of v - inject_Z a)).
Proof.
  intros (Fa & Fb & Ea & Eb) Ha Hb Hv.
  pose proof (whole_representable _ a Fa Ea ltac:(lia)) as Ra.
  pose proof (whole_representable _ b Fb Eb ltac:(lia)) as Rb.
  assert (value_of (max_value self) - value_of (min_value self)
          == inject_Z (b - a)) as Ed by (rewrite Ea, Eb, inject_Z_sub; reflexivity).
  assert (value_of v - value_of (min_value self) == value_of v - inject_Z a)
    as En by (rewrite Ea; reflexivity).
  destruct (operands_cases self v Hv Ra Rb) as [(EN & ED & _) | [EN ED]].
  - split; [rewrite ED; exact Ed |]. left. rewrite EN. exact En.
  - split.
    + rewrite ED, Ed. apply binary64_Z. lia.
    + right. rewrite EN. apply round64_ext. exact En.
Qed.

Lemma code_of_scaled (N D c1 c2 : Q) :
  0 < D -> c1 * D <= N -> N <= c2 * D ->
  binary64 c1 -> binary64 c2 -> - pow2 1001 <= c1 -> c2 <= pow2 1001 ->
  exists n, code_of N D = Ok n
    /\ (py_int (round64 (c1 * 65535)) <= n <= py_int (round64 (c2 * 65535)))%Z.
Proof.
  intros HD H1 H2. apply code_of_between.
  - lra.
  - apply Qle_shift_div_l; assumption.
  - apply Qle_shift_div_r; assumption.
Qed.

Lemma negative_code (n : Z) :
  (n < 0)%Z -> map is_one (format_016b n) <> repeat false 16.
Proof.
  intros Hn. destruct n as [| p | p]; [lia | lia |].
  rewrite format_negative. intros E.
  apply (f_equal bits_value) in E. rewrite all_false_value in E.
  unfold bits_value in E. cbn [fold_left] in E.
  change (2 * 0 + 0)%Z with 0%Z in E.
  rewrite leading_zeros, bin_pos_value in E. discriminate.
Qed.

Lemma wide_code (n : Z) :
  (65536 <= n)%Z -> (16 < length (map is_one (format_016b n)))%nat.
Proof.
  intros Hn. rewrite format_bits_length by lia.
  pose proof (bin_digits_width n) as Hw.
  destruct (le_lt_dec (length (bin_digits n)) 16) as [Hle | Hgt]; [| lia].
  apply Hw in Hle. lia.
Qed.

(** C6, as amended.  [encode] has no clamp.  For whole bounds
    [a < b] of magnitude up to [2^50] and every representable value it
    raises nothing and formats one integer [n]; [min_value] gets 16
    times [False] and [max_value] 16 times [True], but a value at least
    half the width below [min_value] has [n <= -32767] and a code other
    than that of [min_value], and a value at least half the width above
    [max_value] has [n >= 98302] and a code of more than 16 booleans,
    other than that of [max_value]. *)
Theorem encode_does_not_clamp (self : Param) (a b : Z) (v : pynum) :
  whole_bounds self a b ->
  (a < b)%Z -> (Z.abs a <= 2 ^ 50)%Z -> (Z.abs b <= 2 ^ 50)%Z ->
  representable v ->
  encode self (min_value self) = Ok (repeat false 16)
  /\ encode self (max_value self) = Ok (repeat true 16)
  /\ exists n : Z,
       encode self v = Ok (map (fun c => Ascii.eqb c "1") (format_016b n))
       /\ (value_of v <= inject_Z a - inject_Z (b - a) / 2 ->
           (n <= -32767)%Z
           /\ encode self v <> encode self (min_value self))
       /\ (inject_Z b + inject_Z (b - a) / 2 <= value_of v ->
           (98302 <= n)%Z
           /\ (16 < length (map (fun c => Ascii.eqb c "1") (format_016b n)))%nat
           /\ encode self v <> encode self (max_value self)).
Proof.
  intros Hw Hab Ha Hb Hv.
  pose proof Hw as (Fa & Fb & Ea & Eb).
  pose proof (whole_representable _ a Fa Ea ltac:(lia)) as Ra.
  pose proof (whole_representable _ b Fb Eb ltac:(lia)) as Rb.
  assert (1 <= inject_Z (b - a)) as Hd.
  { change 1 with (inject_Z 1). rewrite <- Zle_Qle. lia. }
  assert (encode self (min_value self) = Ok (repeat false 16)) as Emin.
  { rewrite (encode_code self (min_value self))
      by (apply representable_bounded; assumption).
    destruct (operands_whole self a b _ Hw Ha Hb Ra) as [ED EN].
    rewrite code_of_zero; [reflexivity | | lra].
    destruct EN as [-> | ->]; [lra | apply round64_zero; lra]. }
  assert (encode self (max_value self) = Ok (repeat true 16)) as Emax.
  { rewrite (encode_code self (max_value self))
      by (apply representable_bounded; assumption).
    destruct (operands_whole self a b _ Hw Ha Hb Rb) as [ED EN].
    rewrite code_of_one; [reflexivity | | lra].
    rewrite ED.
    destruct EN as [-> | ->]; rewrite Eb, <- inject_Z_sub;
      [reflexivity | apply binary64_Z; lia]. }
  split; [exact Emin |]. split; [exact Emax |].
  rewrite Emin, Emax.
  rewrite (encode_code self v) by (apply representable_bounded; assumption).
  destruct (operands_whole self a b v Hw Ha Hb Hv) as [ED EN].
  set (N := fst (operands self v)) in *. set (D := snd (operands self v)) in *.
  pose proof (pow2_pos 1001) as Hp.
  assert (binary64 (pow2 1001)) as Bp by (apply binary64_pow2; lia).
  assert (binary64 (- pow2 1001)) as Bn by (apply binary64_opp_pow2; lia).
  assert (Qabs (value_of v - inject_Z a) <= pow2 1001) as HV.
  { apply (Qabs_sub_le _ _ 1000); [apply Hv |].
    rewrite <- Ea. apply Ra. }
  assert (- pow2 1001 <= N /\ N <= pow2 1001) as [HN1 HN2].
  { apply Qabs_le_iff.
    destruct EN as [-> | ->]; [exact HV | apply round64_small; [exact HV | lia]]. }
  assert (binary64 (- (1 # 2))) as Bh.
  { apply (binary64_comp (inject_Z (-1) / 2)); [reflexivity |].
    apply half_binary64. simpl. lia. }
  assert (binary64 (3 # 2)) as Bt.
  { apply (binary64_comp (inject_Z 3 / 2)); [reflexivity |].
    apply half_binary64. simpl. lia. }
  assert (binary64 (- (inject_Z (b - a) / 2))) as Blow.
  { apply (binary64_comp (inject_Z (- (b - a)) / 2)).
    - rewrite inject_Z_opp. field.
    - apply half_binary64. lia. }
  assert (binary64 (3 * inject_Z (b - a) / 2)) as Bhigh.
  { apply (binary64_comp (inject_Z (3 * (b - a)) / 2)).
    - rewrite inject_Z_mult. reflexivity.
    - apply half_binary64. lia. }
  destruct (code_of_scaled N D (- pow2 1001) (pow2 1001))
    as (n & E & _); try assumption; try lra; try nra.
  exists n. rewrite E. cbn [bind]. split; [reflexivity |]. split.
  - intros Hlow.
    assert (N <= - (inject_Z (b - a) / 2)) as HNl.
    { destruct EN as [-> | ->]; [lra | apply round64_le; [lra | exact Blow]]. }
    assert (N <= - (1 # 2) * D) as HNl'.
    { rewrite ED. unfold Qdiv in HNl. change (/ 2) with (1 # 2) in HNl. lra. }
    destruct (code_of_scaled N D (- pow2 1001) (- (1 # 2)))
      as (n' & E' & _ & Hn'); try assumption; try lra; try nra.
    rewrite E in E'. injection E' as <-.
    assert (n <= -32767)%Z as Hn by exact Hn'.
    split; [exact Hn |]. intros [= Hc]. revert Hc. apply negative_code. lia.
  - intros Hhigh.
    assert (3 * inject_Z (b - a) / 2 <= N) as HNh.
    { pose proof (inject_Z_sub b a) as Es.
      assert (3 * inject_Z (b - a) / 2 <= value_of v - inject_Z a) as Hx.
      { unfold Qdiv in *. change (/ 2) with (1 # 2) in *. lra. }
      destruct EN as [-> | ->];
        [exact Hx | apply round64_ge; [exact Hx | exact Bhigh]]. }
    assert ((3 # 2) * D <= N) as HNh'.
    { rewrite ED. unfold Qdiv in HNh. change (/ 2) with (1 # 2) in HNh. lra. }
    destruct (code_of_scaled N D (3 # 2) (pow2 1001))
      as (n' & E' & Hn' & _); try assumption; try lra; try nra.
    rewrite E in E'. injection E' as <-.
    assert (98302 <= n)%Z as Hn by exact Hn'.
    split; [exact Hn |]. pose proof (wide_code n ltac:(lia)) as Hwide.
    split; [exact Hwide |].
    intros [= Hc]. rewrite Hc in Hwide. cbn in Hwide. lia.
Qed.

Lemma scale_le (e c d : Q) : 0 <= d -> e <= c -> e * d <= c * d.
Proof. intros Hd He. apply Qmult_le_compat_r; assumption. Qed.

(** The arithmetic of the round trip: [e1] to [e6] are the errors of the
    six roundings, [nq] the integer of the code. *)
Lemma roundtrip_arith (A x0 d D N w q s t p val nq U H M : Q) :
  0 <= d -> 0 <= D -> 0 <= U -> 0 <= H ->
  w * D == N ->
  - (d * U + H) <= N - x0 -> N - x0 <= d * U + H ->
  - (U + H) <= q - w -> q - w <= U + H ->
  - (65535 * U + H) <= s - q * 65535 -> s - q * 65535 <= 65535 * U + H ->
  nq <= s -> s <= nq + 1 ->
  - (U + H) <= t - nq * (1 # 65535) -> t - nq * (1 # 65535) <= U + H ->
  - (D * U + H) <= p - t * D -> p - t * D <= D * U + H ->
  - (M * U + H) <= val - (A + p) -> val - (A + p) <= M * U + H ->
  Qabs (val - (A + x0))
  <= D * (1 # 65535) + d * U + 4 * D * U + M * U + (3 + 3 * D) * H.
Proof.
  intros Hd HD HU HH Ew N1 N2 Q1 Q2 S1 S2 F1 F2 T1 T2 P1 P2 V1 V2.
  pose proof (scale_le _ _ D HD Q1) as Q1d.
  pose proof (scale_le _ _ D HD Q2) as Q2d.
  pose proof (scale_le _ _ D HD S1) as S1d.
  pose proof (scale_le _ _ D HD S2) as S2d.
  pose proof (scale_le _ _ D HD F1) as F1d.
  pose proof (scale_le _ _ D HD F2) as F2d.
  pose proof (scale_le _ _ D HD T1) as T1d.
  pose proof (scale_le _ _ D HD T2) as T2d.
  assert (0 <= D * H) as HdH by (apply Qmult_le_0_compat; lra).
  assert (0 <= D * U) as HdU by (apply Qmult_le_0_compat; lra).
  assert (0 <= d * U) as HdU' by (apply Qmult_le_0_compat; lra).
  apply Qabs_Qle_condition. split; nra.
Qed.

(** The bound above, in terms of the bounds of the parameter. *)
Lemma roundtrip_slack (a b d D U H M : Q) :
  0 <= U -> 0 <= H -> 8 * H <= U -> U <= 1 # 2 ->
  0 <= d -> d <= a + b -> 0 <= a -> 0 <= b ->
  0 <= D -> D <= d + (d * U + H) ->
  M <= a + D ->
  D * (1 # 65535) + d * U + 4 * D * U + M * U + (3 + 3 * D) * H
  <= d * (1 # 65535) + (a + b + 1) * (16 * U).
Proof.
  intros HU HH H8 Uh Hd Hds Ha Hb HD HDd HM.
  assert (0 <= d * U) as HdU by (apply Qmult_le_0_compat; lra).
  assert (d * U <= d * (1 # 2)) as HdU2.
  { rewrite (Qmult_comm d U), (Qmult_comm d (1 # 2)).
    apply Qmult_le_compat_r; lra. }
  assert (H <= 1) as H1 by lra.
  assert (D <= 2 * (a + b) + 1) as HDs by lra.
  set (S := a + b) in *.
  assert (0 <= S) as HS by (unfold S; lra).
  assert (D * U <= (2 * S + 1) * U) as HDU by (apply Qmult_le_compat_r; lra).
  assert (0 <= D * U) as HDU0 by (apply Qmult_le_0_compat; lra).
  assert (D * H <= (2 * S + 1) * H) as HDH by (apply Qmult_le_compat_r; lra).
  assert (M * U <= (a + D) * U) as HMU by (apply Qmult_le_compat_r; lra).
  assert (a * U <= S * U) as HaU by (apply Qmult_le_compat_r; unfold S; lra).
  assert (d * U <= S * U) as HdS by (apply Qmult_le_compat_r; lra).
  assert (S * H <= S * U) as HSH.
  { rewrite (Qmult_comm S H), (Qmult_comm S U).
    apply Qmult_le_compat_r; lra. }
  assert (0 <= S * U) as HSU by (apply Qmult_le_0_compat; lra).
  assert (0 <= S * H) as HSH0 by (apply Qmult_le_0_compat; lra).
  nra.
Qed.

Lemma round64_error_le (x c : Q) :
  Qabs x <= c ->
  - (c * pow2 (-53) + pow2 (-1075)) <= round64 x - x
  /\ round64 x - x <= c * pow2 (-53) + pow2 (-1075).
Proof.
  intros Hc. pose proof (round64_error x) as He.
  pose proof (pow2_pos (-53)) as HU.
  assert (Qabs x * pow2 (-53) <= c * pow2 (-53)) as Hm
    by (apply Qmult_le_compat_r; lra).
  apply Qabs_le_iff in He. split; lra.
Qed.

Lemma Qabs_range (x c : Q) : 0 <= x -> x <= c -> Qabs x <= c.
Proof. intros H0 H1. rewrite Qabs_pos; assumption. Qed.

Lemma binary64_65535 : binary64 65535.
Proof. apply (binary64_Z 65535). simpl. lia. Qed.

Lemma code_of_value (N D : Q) :
  0 < D -> 0 <= N -> N <= D ->
  code_of N D = Ok (py_int (round64 (round64 (N / D) * 65535)))
  /\ 0 <= round64 (N / D) /\ round64 (N / D) <= 1
  /\ 0 <= round64 (round64 (N / D) * 65535)
  /\ round64 (round64 (N / D) * 65535) <= 65535.
Proof.
  intros HD H0 H1.
  assert (1 < pow2 1024) as Hp1 by (change 1 with (pow2 0); apply pow2_lt; lia).
  assert (65535 < pow2 1024) as Hp2.
  { apply Qlt_trans with (pow2 16); [reflexivity | apply pow2_lt; lia]. }
  pose proof (pow2_pos 1024) as Hp.
  assert (0 <= N / D) as Hw0 by (apply Qle_shift_div_l; lra).
  assert (N / D <= 1) as Hw1 by (apply Qle_shift_div_r; lra).
  destruct (fl_between _ 0 1 Hw0 Hw1 binary64_0 binary64_1) as (E & Q0 & Q1);
    [lra | lra |].
  destruct (fl_between (round64 (N / D) * 65535) 0 65535) as (F & S0 & S1);
    [lra | lra | exact binary64_0 | exact binary64_65535 | lra | lra |].
  unfold code_of. replace (is_zero D) with false
    by (symmetry; apply is_zero_false; lra).
  rewrite E, F. auto.
Qed.

Lemma py_int_bounds (s : Q) :
  0 <= s -> s <= 65535 ->
  (0 <= py_int s <= 65535)%Z
  /\ inject_Z (py_int s) <= s /\ s <= inject_Z (py_int s) + 1.
Proof.
  intros H0 H1. rewrite py_int_floor by exact H0.
  pose proof (Qfloor_le s) as Hlo. pose proof (Qlt_floor s) as Hhi.
  rewrite inject_Z_plus in Hhi. change (inject_Z 1) with 1 in Hhi.
  split; [| split; lra]. split.
  - change 0%Z with (Qfloor 0). apply Qfloor_resp_le. exact H0.
  - change 65535%Z with (Qfloor 65535). apply Qfloor_resp_le. exact H1.
Qed.

(** The value [decode] computes from the code of [x0 = v - min], before
    it rounds for an integer parameter, and its distance from [v]. *)
Lemma roundtrip_distance (A d x0 : Q) :
  0 <= x0 -> x0 <= d -> 0 < round64 d ->
  let D := round64 d in
  let n := py_int (round64 (round64 (round64 x0 / D) * 65535)) in
  (0 <= n <= 65535)%Z
  /\ Qabs (decode_value A D n - (A + x0))
     <= d * (1 # 65535) + (Qabs A + Qabs (A + d) + 1) * pow2 (-49).
Proof.
  intros Hx0 Hx1 HD D n. change (0 < D) in HD.
  set (U := pow2 (-53)). set (H := pow2 (-1075)).
  assert (0 < U) as HU by apply pow2_pos.
  assert (0 < H) as HH by apply pow2_pos.
  assert (8 * H <= U) as H8.
  { unfold H, U. apply Qle_trans with (pow2 (-1072)); [| apply pow2_le; lia].
    replace (-1072)%Z with (3 + -1075)%Z by lia. rewrite pow2_add.
    change (pow2 3) with 8. lra. }
  assert (U <= 1 # 2) as Uh.
  { unfold U. change (1 # 2) with (pow2 (-1)). apply pow2_le. lia. }
  assert (16 * U == pow2 (-49)) as E16.
  { unfold U. replace (-49)%Z with (4 + -53)%Z by lia. rewrite pow2_add.
    change (pow2 4) with 16. reflexivity. }
  assert (0 <= d) as Hd0 by lra.
  assert (binary64 D) as BD by apply binary64_round64.
  (* the code *)
  set (N := round64 x0) in *.
  assert (0 <= N) as HN0 by (apply round64_nonneg; exact Hx0).
  assert (N <= D) as HN1 by (apply round64_monotone; exact Hx1).
  destruct (code_of_value N D HD HN0 HN1) as (_ & Q0 & Q1 & S0 & S1).
  set (w := N / D) in *. set (q := round64 w) in *.
  set (s := round64 (q * 65535)) in *.
  destruct (py_int_bounds s S0 S1) as (Hn & F1 & F2). fold n in Hn, F1, F2.
  split; [exact Hn |].
  (* the decoding *)
  unfold decode_value.
  assert (0 <= inject_Z n / 65535 /\ inject_Z n / 65535 <= 1) as [Y0 Y1].
  { destruct Hn as [Hn0 Hn1]. rewrite Zle_Qle in Hn0, Hn1.
    change (inject_Z 0) with 0 in Hn0. change (inject_Z 65535) with 65535 in Hn1.
    split; [apply Qle_shift_div_l | apply Qle_shift_div_r]; lra. }
  set (t := round64 (inject_Z n / 65535)) in *.
  assert (0 <= t) as T0 by (apply round64_nonneg; exact Y0).
  assert (t <= 1) as T1 by (apply round64_le; [exact Y1 | exact binary64_1]).
  assert (0 <= t * D) as P0 by (apply Qmult_le_0_compat; lra).
  assert (t * D <= D) as P1.
  { apply Qle_trans with (1 * D); [apply Qmult_le_compat_r; lra | lra]. }
  set (p := round64 (t * D)) in *.
  assert (0 <= p) as Pr0 by (apply round64_nonneg; exact P0).
  assert (p <= D) as Pr1 by (apply round64_le; [exact P1 | exact BD]).
  (* the six errors *)
  destruct (round64_error_le x0 d (Qabs_range _ _ Hx0 Hx1)) as [E1a E1b].
  assert (0 <= w /\ w <= 1) as [W0 W1].
  { unfold w. split; [apply Qle_shift_div_l | apply Qle_shift_div_r]; lra. }
  destruct (round64_error_le w 1 (Qabs_range _ _ W0 W1)) as [E2a E2b].
  assert (0 <= q * 65535 /\ q * 65535 <= 65535) as [Z0 Z1] by (split; lra).
  destruct (round64_error_le _ 65535 (Qabs_range _ _ Z0 Z1)) as [E3a E3b].
  destruct (round64_error_le _ 1 (Qabs_range _ _ Y0 Y1)) as [E4a E4b].
  destruct (round64_error_le _ D (Qabs_range _ _ P0 P1)) as [E5a E5b].
  assert (Qabs (A + p) <= Qabs A + D) as HM.
  { eapply Qle_trans; [apply Qabs_triangle |].
    rewrite (Qabs_pos p) by exact Pr0. lra. }
  destruct (round64_error_le _ _ HM) as [E6a E6b].
  destruct (round64_error_le d d (Qabs_range _ _ Hd0 (Qle_refl d))) as [E7a E7b].
  fold U H N q s t p D in E1a, E1b, E2a, E2b, E3a, E3b, E4a, E4b, E5a, E5b,
    E6a, E6b, E7a, E7b.
  assert (w * D == N) as Ew by (unfold w; field; lra).
  pose proof (roundtrip_arith A x0 d D N w q s t p (round64 (A + p))
                (inject_Z n) U H (Qabs A + D)) as Harith.
  eapply Qle_trans.
  - apply Harith; try lra.
    + unfold Qdiv in E4a. change (/ 65535) with (1 # 65535) in E4a. lra.
    + unfold Qdiv in E4b. change (/ 65535) with (1 # 65535) in E4b. lra.
  - rewrite <- E16.
    assert (d <= Qabs A + Qabs (A + d)) as Hds.
    { pose proof (Qle_Qabs (A + d)) as Hq1. pose proof (Qle_Qabs (- A)) as Hq2.
      rewrite Qabs_opp in Hq2. lra. }
    apply (roundtrip_slack (Qabs A) (Qabs (A + d)) d D U H (Qabs A + D));
      try lra; try apply Qabs_nonneg.
Qed.

Lemma roundtrip_core (self : Param) (v : pynum) :
  plain v -> plain (min_value self) -> plain (max_value self) ->
  value_of (min_value self) < value_of (max_value self) ->
  value_of (min_value self) <= value_of v ->
  value_of v <= value_of (max_value self) ->
  exists val : Q,
    roundtrip self v
    = Ok (if is_integer self then PyInt (py_round val) else PyFloat (Finite val))
    /\ Qabs (val - value_of v)
       <= (value_of (max_value self) - value_of (min_value self)) * (1 # 65535)
          + (Qabs (value_of (min_value self)) + Qabs (value_of (max_value self)) + 1)
            * pow2 (-49).
Proof.
  intros Pv Pa Pb Hlt Hlo Hhi.
  pose proof Pv as [Rv _]. pose proof Pa as [Ra _]. pose proof Pb as [Rb _].
  set (A := value_of (min_value self)) in *.
  set (B := value_of (max_value self)) in *.
  set (V := value_of v) in *.
  assert (0 < round64 (B - A)) as HD.
  { pose proof (round64_gap A B (proj2 Ra) (proj2 Rb) Hlt) as Hg.
    pose proof (pow2_pos (-1074)). lra. }
  destruct (roundtrip_distance A (B - A) (V - A)) as [Hn Hdist];
    [lra | lra | exact HD |].
  set (n := py_int _) in *.
  unfold roundtrip.
  rewrite (encode_code self v) by (apply representable_bounded; assumption).
  destruct (operands_plain self v Pv Pa Pb) as [EN ED].
  rewrite (code_of_comp _ _ _ _ EN ED). fold A B V.
  destruct (code_of_value (round64 (V - A)) (round64 (B - A)) HD) as [-> _];
    [apply round64_nonneg; lra | apply round64_monotone; lra |].
  fold n. cbn [bind].
  destruct (code_bits n Hn) as [Hlen Hval].
  rewrite decode_code;
    [| apply representable_bounded; assumption
     | apply representable_bounded; assumption
     | intros E; rewrite E in Hlen; discriminate
     | lia].
  rewrite Hval. exists (decoded self n). split; [reflexivity |].
  assert (decoded self n - V
          == decode_value A (round64 (B - A)) n - (A + (V - A))) as ->.
  { rewrite (decoded_view self n Ra Rb). fold A B. ring. }
  assert (A + (B - A) == B) as EB by ring.
  rewrite EB in Hdist. exact Hdist.
Qed.

Lemma py_round_near (x : Q) (k : Z) :
  inject_Z k - (1 # 2) < x -> x < inject_Z k + (1 # 2) -> py_round x = k.
Proof.
  intros Hlo Hhi.
  pose proof (py_round_lower x) as H1. pose proof (py_round_upper x) as H2.
  assert (inject_Z k - 1 < inject_Z (py_round x)) as H3 by lra.
  assert (inject_Z (py_round x) < inject_Z k + 1) as H4 by lra.
  change 1 with (inject_Z 1) in H3, H4.
  rewrite <- inject_Z_plus, <- Zlt_Qlt in H4.
  unfold Qminus in H3. change (- inject_Z 1) with (inject_Z (-1)) in H3.
  rewrite <- inject_Z_plus, <- Zlt_Qlt in H3.
  lia.
Qed.

(** C2, as amended.  For plain bounds with [min_value < max_value] and
    a plain value inside them, [decode(encode(v))] succeeds.  Without
    [is_integer] it differs from [v] by at most one quantization step
    and the rounding of the float operations, which is at most
    [(|min_value| + |max_value| + 1) * 2^-49]; with [is_integer] it is
    an int, at most half a unit further away. *)
Theorem roundtrip_quantization (self : Param) (v : pynum) :
  plain v -> plain (min_value self) -> plain (max_value self) ->
  value_of (min_value self) < value_of (max_value self) ->
  value_of (min_value self) <= value_of v ->
  value_of v <= value_of (max_value self) ->
  let step := (value_of (max_value self) - value_of (min_value self)) / 65535 in
  let slack :=
    (Qabs (value_of (min_value self)) + Qabs (value_of (max_value self)) + 1)
    * pow2 (-49) in
  exists r : pynum,
    roundtrip self v = Ok r
    /\ finite r
    /\ (is_integer self = false ->
        Qabs (value_of r - value_of v) <= step + slack)
    /\ (is_integer self = true ->
        (exists z : Z, r = PyInt z)
        /\ Qabs (value_of r - value_of v) <= step + (1 # 2) + slack).
Proof.
  intros Pv Pa Pb Hlt Hlo Hhi step slack.
  destruct (roundtrip_core self v Pv Pa Pb Hlt Hlo Hhi) as (val & E & Hd).
  fold slack in Hd.
  assert ((value_of (max_value self) - value_of (min_value self)) * (1 # 65535)
          == step) as Es by reflexivity.
  rewrite Es in Hd. rewrite E.
  destruct (is_integer self); eexists; (split; [reflexivity |]);
    (split; [exact I |]); split; try discriminate; intros _; cbn [value_of].
  - split; [eexists; reflexivity |].
    pose proof (py_round_lower val). pose proof (py_round_upper val).
    apply Qabs_le_iff in Hd. apply Qabs_le_iff. split; lra.
  - exact Hd.
Qed.

Lemma roundtrip_quantization_witness :
  exists r : pynum,
    roundtrip depth (PyInt 7) = Ok r
    /\ finite r
    /\ (is_integer depth = false ->
        Qabs (value_of r - value_of (PyInt 7))
        <= (value_of (max_value depth) - value_of (min_value depth)) / 65535
           + (Qabs (value_of (min_value depth))
              + Qabs (value_of (max_value depth)) + 1) * pow2 (-49))
    /\ (is_integer depth = true ->
        (exists z : Z, r = PyInt z)
        /\ Qabs (value_of r - value_of (PyInt 7))
           <= (value_of (max_value depth) - value_of (min_value depth)) / 65535
              + (1 # 2)
              + (Qabs (value_of (min_value depth))
                 + Qabs (value_of (max_value depth)) + 1) * pow2 (-49)).
Proof.
  apply (roundtrip_quantization depth (PyInt 7));
    try (apply plain_PyInt; by_evaluation); by_evaluation.
Defined.

(** C2 as stated fails, with and without [is_integer].  For the integer
    parameter bounded by 0 and 100, 50.5 comes back as 50, half a unit
    away, while one quantization step is 100/65535.  For the float
    parameter bounded by 0.0 and 100.0, the float
    [0x1.0041004100410p-4] comes back further away than one step, by
    the rounding of the arithmetic. *)
Lemma roundtrip_integer_exceeds_step :
  (value_of (min_value p100) <= value_of (literal (101 # 2))
   /\ value_of (literal (101 # 2)) <= value_of (max_value p100)
   /\ roundtrip p100 (literal (101 # 2)) = Ok (PyInt 50)
   /\ ~ Qabs (value_of (PyInt 50) - value_of (literal (101 # 2)))
        <= (value_of (max_value p100) - value_of (min_value p100)) / 65535)
  /\ (let v := PyFloat (Finite (281754153844801 # 4503599627370496)) in
      let r := PyFloat (Finite (8796227241984031 # 144115188075855872)) in
      plain v
      /\ value_of (min_value percent) <= value_of v
      /\ value_of v <= value_of (max_value percent)
      /\ roundtrip percent v = Ok r
      /\ ~ Qabs (value_of r - value_of v)
           <= (value_of (max_value percent) - value_of (min_value percent))
              / 65535).
Proof.
  split.
  - split; [discriminate |]. split; [discriminate |].
    split; [vm_compute; reflexivity |].
    vm_compute. intros H. apply H. reflexivity.
  - cbv zeta. split.
    { split; [| exact I]. split; [split; [exact I | discriminate] |].
      unfold binary64. vm_compute. reflexivity. }
    split; [discriminate |]. split; [discriminate |].
    split; [vm_compute; reflexivity |].
    vm_compute. intros H. apply H. reflexivity.
Qed.

Lemma whole_plain (v : pynum) (n : Z) :
  finite v -> value_of v == inject_Z n -> (Z.abs n <= 2 ^ 52)%Z -> plain v.
Proof.
  intros Hf E Hn. split; [apply (whole_representable v n Hf E); lia |].
  destruct v as [m | f]; [| exact I]. cbn [value_of] in E.
  unfold Qeq in E. simpl in E. replace m with n by lia. exact Hn.
Qed.

(** X7.  An integer parameter with whole bounds of magnitude up to
    [2^30] that are at most 32767 apart gives every whole value in its
    bounds back unchanged: [decode(encode(k))] is the int [k], for [k]
    an int or a float. *)
Theorem roundtrip_integer_exact (self : Param) (a b k : Z) (v : pynum) :
  is_integer self = true ->
  whole_bounds self a b ->
  (Z.abs a <= 2 ^ 30)%Z -> (Z.abs b <= 2 ^ 30)%Z ->
  (a < b)%Z -> (b - a <= 32767)%Z ->
  finite v -> value_of v == inject_Z k -> (a <= k <= b)%Z ->
  roundtrip self v = Ok (PyInt k).
Proof.
  intros Hint (Fa & Fb & Ea & Eb) Ha Hb Hab Hspan Fv Ev Hk.
  pose proof (whole_plain _ a Fa Ea ltac:(lia)) as Pa.
  pose proof (whole_plain _ b Fb Eb ltac:(lia)) as Pb.
  pose proof (whole_plain _ k Fv Ev ltac:(lia)) as Pv.
  destruct (roundtrip_core self v Pv Pa Pb) as (val & E & Hd).
  - rewrite Ea, Eb, <- Zlt_Qlt. exact Hab.
  - rewrite Ea, Ev, <- Zle_Qle. lia.
  - rewrite Ev, Eb, <- Zle_Qle. lia.
  - rewrite E, Hint. do 2 f_equal. apply py_round_near.
    + rewrite Ea, Eb, Ev in Hd. rewrite !Qabs_inject_Z in Hd.
      apply Qabs_le_iff in Hd. destruct Hd as [Hd _].
      assert (inject_Z b - inject_Z a <= 32767) as Hs.
      { rewrite <- inject_Z_sub. change 32767 with (inject_Z 32767).
        rewrite <- Zle_Qle. exact Hspan. }
      assert (inject_Z (Z.abs a) <= 1073741824) as Haq.
      { change 1073741824 with (inject_Z (2 ^ 30)). rewrite <- Zle_Qle. exact Ha. }
      assert (inject_Z (Z.abs b) <= 1073741824) as Hbq.
      { change 1073741824 with (inject_Z (2 ^ 30)). rewrite <- Zle_Qle. exact Hb. }
      change (pow2 (-49)) with (1 # 562949953421312) in Hd. lra.
    + rewrite Ea, Eb, Ev in Hd. rewrite !Qabs_inject_Z in Hd.
      apply Qabs_le_iff in Hd. destruct Hd as [_ Hd].
      assert (inject_Z b - inject_Z a <= 32767) as Hs.
      { rewrite <- inject_Z_sub. change 32767 with (inject_Z 32767).
        rewrite <- Zle_Qle. exact Hspan. }
      assert (inject_Z (Z.abs a) <= 1073741824) as Haq.
      { change 1073741824 with (inject_Z (2 ^ 30)). rewrite <- Zle_Qle. exact Ha. }
      assert (inject_Z (Z.abs b) <= 1073741824) as Hbq.
      { change 1073741824 with (inject_Z (2 ^ 30)). rewrite <- Zle_Qle. exact Hb. }
      change (pow2 (-49)) with (1 # 562949953421312) in Hd. lra.
Qed.

Lemma roundtrip_integer_exact_witness :
  roundtrip depth (PyInt 7) = Ok (PyInt 7).
Proof.
  apply (roundtrip_integer_exact depth 1 10 7 (PyInt 7)).
  - reflexivity.
  - repeat split.
  - by_evaluation.
  - by_evaluation.
  - by_evaluation.
  - by_evaluation.
  - exact I.
  - reflexivity.
  - split; by_evaluation.
Defined.

(** *** The worked example of the specification *)

(** C9.  For an integer parameter bounded by 0 and 100, whatever its name
    and default, and whether the bounds and the value are written as
    ints or as floats, [encode(50)] is the 16 bits 0111111111111111, the
    big-endian binary form of 32767, and [decode] of that code is the
    integer 50. *)
Theorem encode_50_decode_50 (nm : string) (dflt : pynum)
    (float_min float_max float_value : bool) :
  let P := {| name := nm; min_value := number float_min 0;
              max_value := number float_max 100;
              default_value := dflt; is_integer := true |} in
  let code := false :: repeat true 15 in
  encode P (number float_value 50) = Ok code
  /\ length code = 16%nat
  /\ bits_value code = 32767%Z
  /\ code = map (fun c => Ascii.eqb c "1") (format_016b 32767)
  /\ decode P code = Ok (PyInt 50).
Proof.
  destruct float_min, float_max, float_value; vm_compute;
    repeat split; reflexivity.
Qed.

(** X5.  [decode] does not look at the width of its argument: [False]
    entries in front of a code change nothing. *)
Theorem decode_leading_false (self : Param) (k : nat) (bits : list bool) :
  bits <> [] -> decode self (repeat false k ++ bits) = decode self bits.
Proof.
  intros Hne. unfold decode. rewrite !int_base2_join.
  - unfold bits_value. rewrite leading_zeros. reflexivity.
  - exact Hne.
  - destruct k; [exact Hne | discriminate].
Qed.

Lemma decode_leading_false_witness :
  decode depth (repeat false 3 ++ [true; false]) = decode depth [true; false].
Proof. apply decode_leading_false. discriminate. Defined.

Lemma encode_does_not_clamp_witness :
  encode p100 (min_value p100) = Ok (repeat false 16)
  /\ encode p100 (max_value p100) = Ok (repeat true 16)
  /\ exists n : Z,
       encode p100 (PyInt 150) = Ok (map (fun c => Ascii.eqb c "1") (format_016b n))
       /\ (value_of (PyInt 150) <= inject_Z 0 - inject_Z (100 - 0) / 2 ->
           (n <= -32767)%Z
           /\ encode p100 (PyInt 150) <> encode p100 (min_value p100))
       /\ (inject_Z 100 + inject_Z (100 - 0) / 2 <= value_of (PyInt 150) ->
           (98302 <= n)%Z
           /\ (16 < length (map (fun c => Ascii.eqb c "1") (format_016b n)))%nat
           /\ encode p100 (PyInt 150) <> encode p100 (max_value p100)).
Proof.
  apply (encode_does_not_clamp p100 0 100 (PyInt 150)).
  - repeat split.
  - by_evaluation.
  - by_evaluation.
  - by_evaluation.
  - apply representable_PyInt. by_evaluation.
Defined.

(** C6 as stated fails: for the parameter bounded by 0 and 100, -50 is
    not encoded as 0 is, and 150 is not encoded as 100 is. *)
Lemma encode_clamp_counterexample :
  value_of (PyInt (-50)) < value_of (min_value p100)
  /\ encode p100 (PyInt (-50)) = Ok (false :: repeat true 15)
  /\ encode p100 (PyInt (-50)) <> encode p100 (min_value p100)
  /\ value_of (max_value p100) < value_of (PyInt 150)
  /\ encode p100 (PyInt 150)
     = Ok [true; false; true; true; true; true; true; true; true; true; true;
           true; true; true; true; true; false]
  /\ encode p100 (PyInt 150) <> encode p100 (max_value p100).
Proof. repeat split; vm_compute; (reflexivity || discriminate). Qed.

(** ** The probability model *)

Lemma index_Some {A : Type} (l : list A) (i : nat) (a : A) :
  l !! i = Some a -> index l i = Ok a.
Proof. intros E. unfold index. rewrite E. reflexivity. Qed.

Lemma PBIL_init_well_formed (params : list Param) (lr nlr mp ms : Q) :
  well_formed (PBIL_init params lr nlr mp ms)
  /\ Forall in_unit (prob_vector (PBIL_init params lr nlr mp ms)).
Proof.
  unfold well_formed, PBIL_init. cbn. split; [split |].
  - lia.
  - apply repeat_length.
  - apply List.Forall_forall. intros p Hp. apply repeat_spec in Hp. subst p.
    split; discriminate.
Qed.

Section ModelFacts.
Context {rng : Type} `{RandomSource rng}.

(** The first loop, begun at position [length done]: the positions
    already visited are in [done], the others are still to come. *)
Lemma learn_loop (self : PBIL) (todo : list Q) :
  forall (done : list Q) (bpre brest wpre wrest : list bool),
    length bpre = length done ->
    length wpre = length done ->
    length brest = length todo ->
    length wrest = length todo ->
    for_each (learn_at self (bpre ++ brest) (wpre ++ wrest))
             (seq (length done) (length todo)) (done ++ todo)
    = Ok (done ++ learn_vector (learn_rate self) (neg_learn_rate self)
                               todo brest wrest).
Proof.
  induction todo as [| p todo IH]; intros done bpre brest wpre wrest Hb Hw Hbr Hwr.
  - reflexivity.
  - destruct brest as [| b brest]; [discriminate |].
    destruct wrest as [| w wrest]; [discriminate |].
    cbn [length seq for_each learn_vector].
    unfold learn_at at 1.
    rewrite (index_Some (bpre ++ b :: brest) (length done) b)
      by (apply list_lookup_middle; congruence).
    rewrite (index_Some (wpre ++ w :: wrest) (length done) w)
      by (apply list_lookup_middle; congruence).
    rewrite (index_Some (done ++ p :: todo) (length done) p)
      by (apply list_lookup_middle; reflexivity).
    cbn [bind].
    assert (forall x : Q,
      <[length done := x]> (done ++ p :: todo) = (done ++ [x]) ++ todo) as Hins.
    { intros x. rewrite insert_app_r_alt by lia.
      rewrite Nat.sub_diag, <- app_assoc. reflexivity. }
    cbn [length] in Hbr, Hwr.
    replace (bpre ++ b :: brest) with ((bpre ++ [b]) ++ brest)
      by (rewrite <- app_assoc; reflexivity).
    replace (wpre ++ w :: wrest) with ((wpre ++ [w]) ++ wrest)
      by (rewrite <- app_assoc; reflexivity).
    unfold learn_bit.
    destruct (Bool.eqb b w); cbn [bind]; rewrite Hins;
      match goal with
      | |- for_each _ _ ((done ++ [?x]) ++ _) = _ =>
          replace (S (length done)) with (length (done ++ [x]))
            by (rewrite length_app; simpl; lia);
          rewrite IH by (rewrite ?length_app; simpl; lia);
          rewrite <- app_assoc; reflexivity
      end.
Qed.

Lemma learn_vector_length (lr nlr : Q) (pv : list Q) :
  forall best worst : list bool,
    length best = length pv -> length worst = length pv ->
    length (learn_vector lr nlr pv best worst) = length pv.
Proof.
  induction pv as [| p pv IH]; intros [| b best] [| w worst] Hb Hw;
    try discriminate; [reflexivity |].
  cbn [learn_vector length]. rewrite IH; simpl in *; lia.
Qed.

Lemma learn_vector_lookup (lr nlr : Q) (pv : list Q) :
  forall (best worst : list bool) (i : nat) (p : Q) (b w : bool),
    pv !! i = Some p -> best !! i = Some b -> worst !! i = Some w ->
    learn_vector lr nlr pv best worst !! i = Some (learn_bit lr nlr p b w).
Proof.
  induction pv as [| p0 pv IH]; intros [| b0 best] [| w0 worst] i p b w Hp Hb Hw;
    try discriminate.
  destruct i as [| i]; cbn in *.
  - congruence.
  - eapply IH; eassumption.
Qed.

End ModelFacts.

Section MutationFacts.
Context {rng : Type} `{RandomSource rng}.
Hypothesis randbelow_ok : randbelow_in_range.

Lemma choice_bit (s : rng) :
  choice [0%Z; 1%Z] s
  = Ok (Z.of_nat (fst (randbelow 2%nat s)), snd (randbelow 2%nat s))
  /\ (fst (randbelow 2%nat s) < 2)%nat.
Proof.
  pose proof (randbelow_ok 2%nat s ltac:(lia)) as Hk.
  unfold choice. cbn [length].
  destruct (randbelow 2%nat s) as [k s'].
  cbn [fst snd] in *. split; [| exact Hk].
  destruct k as [| [| k]]; [reflexivity | reflexivity | lia].
Qed.

Lemma mutation_targets_bits (mp : Q) (n : nat) :
  forall s : rng,
    length (fst (mutation_targets mp n s)) = n
    /\ Forall target_bit (fst (mutation_targets mp n s)).
Proof.
  induction n as [| n IH]; intros s; cbn [mutation_targets].
  - split; [reflexivity | constructor].
  - destruct (random s) as [r s1].
    destruct (Qltb r mp).
    + destruct (choice_bit s1) as [_ Hk].
      destruct (randbelow 2%nat s1) as [k s2]. cbn [fst] in Hk.
      specialize (IH s2). destruct (mutation_targets mp n s2) as [ts s3].
      cbn [fst] in *. destruct IH as [IHl IHf].
      split; [simpl; lia |]. constructor; [| exact IHf].
      destruct k as [| [| k]]; [right; left | right; right | lia]; reflexivity.
    + specialize (IH s1). destruct (mutation_targets mp n s1) as [ts s3].
      cbn [fst] in *. destruct IH as [IHl IHf].
      split; [simpl; lia |]. constructor; [left; reflexivity | exact IHf].
Qed.

(** The second loop, begun at position [length done]. *)
Lemma mutate_loop (self : PBIL) (todo : list Q) :
  forall (done : list Q) (s : rng),
    for_each (mutate_at self) (seq (length done) (length todo))
             (done ++ todo, s)
    = Ok (done ++ mutate_vector (mut_shift self)
                    (fst (mutation_targets (mut_prob self) (length todo) s))
                    todo,
          snd (mutation_targets (mut_prob self) (length todo) s)).
Proof.
  induction todo as [| p todo IH]; intros done s.
  - reflexivity.
  - cbn [length seq for_each mutation_targets].
    unfold mutate_at at 1.
    destruct (random s) as [r s1].
    assert (forall x : Q,
      <[length done := x]> (done ++ p :: todo) = (done ++ [x]) ++ todo) as Hins.
    { intros x. rewrite insert_app_r_alt by lia.
      rewrite Nat.sub_diag, <- app_assoc. reflexivity. }
    assert (forall x : Q, S (length done) = length (done ++ [x])) as Hlen
      by (intros x; rewrite length_app; simpl; lia).
    destruct (Qltb r (mut_prob self)).
    + rewrite (index_Some (done ++ p :: todo) (length done) p)
        by (apply list_lookup_middle; reflexivity).
      cbn [bind]. destruct (choice_bit s1) as [-> _]. cbn [bind].
      destruct (randbelow 2%nat s1) as [k s2]. cbn [fst snd].
      rewrite Hins, (Hlen (p * (1 - mut_shift self)
                           + inject_Z (Z.of_nat k) * mut_shift self)), IH.
      destruct (mutation_targets (mut_prob self) (length todo) s2) as [ts s3].
      cbn [fst snd mutate_vector mutate_bit].
      rewrite <- app_assoc. reflexivity.
    + cbn [bind]. 
      replace (done ++ p :: todo) with ((done ++ [p]) ++ todo)
        by (rewrite <- app_assoc; reflexivity).
      rewrite (Hlen p), IH.
      destruct (mutation_targets (mut_prob self) (length todo) s1) as [ts s3].
      cbn [fst snd mutate_vector mutate_bit].
      rewrite <- app_assoc. reflexivity.
Qed.

(** [update_probabilities] computes the two rules of the specification,
    with the targets its random source draws. *)
Lemma update_probabilities_refines (self : PBIL) (best worst : list bool)
    (s : rng) :
  length (prob_vector self) = total_bits self ->
  length best = total_bits self ->
  length worst = total_bits self ->
  update_probabilities self best worst s
  = Ok (set_prob_vector self
          (mutate_vector (mut_shift self)
             (fst (mutation_targets (mut_prob self) (total_bits self) s))
             (learn_vector (learn_rate self) (neg_learn_rate self)
                (prob_vector self) best worst)),
        snd (mutation_targets (mut_prob self) (total_bits self) s)).
Proof.
  intros Hpv Hb Hw. unfold update_probabilities, range.
  pose proof (learn_loop self (prob_vector self) [] [] best [] worst
                eq_refl eq_refl) as Hlearn.
  cbn [length app] in Hlearn. rewrite Hpv in Hlearn.
  rewrite Hlearn by congruence. cbn [bind].
  set (pv1 := learn_vector _ _ _ _ _).
  assert (length pv1 = total_bits self) as Hlen1.
  { unfold pv1. rewrite learn_vector_length; congruence. }
  pose proof (mutate_loop self pv1 [] s) as Hmut.
  cbn [length app] in Hmut. rewrite Hlen1 in Hmut.
  rewrite Hmut. cbn [bind].
  destruct (mutation_targets (mut_prob self) (total_bits self) s) as [ts s'].
  reflexivity.
Qed.

Lemma mutate_vector_length (ms : Q) (ts : list (option Z)) :
  forall pv : list Q,
    length ts = length pv -> length (mutate_vector ms ts pv) = length pv.
Proof.
  induction ts as [| t ts IH]; intros [| p pv] Hl; try discriminate;
    [reflexivity |].
  cbn [mutate_vector length]. rewrite IH; simpl in *; lia.
Qed.

Lemma mutate_vector_lookup (ms : Q) (ts : list (option Z)) :
  forall (pv : list Q) (i : nat) (t : option Z) (p : Q),
    ts !! i = Some t -> pv !! i = Some p ->
    mutate_vector ms ts pv !! i = Some (mutate_bit ms t p).
Proof.
  induction ts as [| t0 ts IH]; intros [| p0 pv] i t p Ht Hp; try discriminate.
  destruct i as [| i]; cbn in *.
  - congruence.
  - eapply IH; eassumption.
Qed.

End MutationFacts.

Lemma learn_bit_in_unit (lr nlr p : Q) (b w : bool) :
  in_unit lr -> in_unit nlr -> lr + nlr <= 1 -> in_unit p ->
  in_unit (learn_bit lr nlr p b w).
Proof.
  unfold in_unit, learn_bit, bit. intros [? ?] [? ?] ? [? ?].
  destruct (Bool.eqb b w), b; split; nra.
Qed.

Lemma mutate_bit_in_unit (ms : Q) (t : option Z) (p : Q) :
  in_unit ms -> target_bit t -> in_unit p -> in_unit (mutate_bit ms t p).
Proof.
  unfold in_unit, mutate_bit. intros [? ?] [-> | [-> | ->]] [? ?].
  - split; assumption.
  - change (inject_Z 0) with 0. split; nra.
  - change (inject_Z 1) with 1. split; nra.
Qed.

Lemma learn_vector_in_unit (lr nlr : Q) (pv : list Q) :
  in_unit lr -> in_unit nlr -> lr + nlr <= 1 ->
  Forall in_unit pv ->
  forall best worst, Forall in_unit (learn_vector lr nlr pv best worst).
Proof.
  intros Hlr Hnlr Hsum Hpv. induction Hpv as [| p pv Hp Hpv IH];
    intros [| b best] [| w worst]; cbn [learn_vector]; try constructor.
  - apply learn_bit_in_unit; assumption.
  - apply IH.
Qed.

Lemma mutate_vector_in_unit (ms : Q) (ts : list (option Z)) :
  in_unit ms -> Forall target_bit ts ->
  forall pv, Forall in_unit pv -> Forall in_unit (mutate_vector ms ts pv).
Proof.
  intros Hms Hts. induction Hts as [| t ts Ht Hts IH];
    intros pv Hpv; destruct Hpv as [| p pv Hp Hpv];
    cbn [mutate_vector]; try constructor.
  - apply mutate_bit_in_unit; assumption.
  - apply IH. exact Hpv.
Qed.

(** The counter is a lawful random source. *)
Lemma counter_randbelow_ok : @randbelow_in_range nat counter_source.
Proof.
  intros n s Hn. cbn. apply Nat.mod_upper_bound. lia.
Qed.

Lemma counter_random_ok : @random_in_unit nat counter_source.
Proof.
  intros s. cbn. pose proof (Nat.mod_upper_bound s 10 ltac:(lia)) as Hm.
  unfold Qle, Qlt. cbn. lia.
Qed.

(** *** The update rule *)

(** C5.  [update_probabilities] returns, and at every position the new
    probability is the old one moved toward [best[i]] at the rate
    [learn_rate] when [best[i] == worst[i]] and at the rate
    [learn_rate + neg_learn_rate] otherwise, then moved by [mut_shift]
    toward a target bit when the position's draw of [random.random()] is
    below [mut_prob]; the target is the bit [random.choice([0, 1])]
    draws, 0 or 1. *)
Theorem update_probabilities_rule {rng : Type} `{RandomSource rng}
    (self : PBIL) (best worst : list bool) (s : rng) :
  randbelow_in_range ->
  length (prob_vector self) = total_bits self ->
  length best = total_bits self ->
  length worst = total_bits self ->
  exists (self' : PBIL) (s' : rng) (targets : list (option Z)),
    update_probabilities self best worst s = Ok (self', s')
    /\ mutation_targets (mut_prob self) (total_bits self) s = (targets, s')
    /\ forall i : nat, (i < total_bits self)%nat ->
       exists (p : Q) (b w : bool) (t : option Z),
         prob_vector self !! i = Some p
         /\ best !! i = Some b /\ worst !! i = Some w
         /\ targets !! i = Some t
         /\ (t = None \/ t = Some 0%Z \/ t = Some 1%Z)
         /\ let learned :=
              if Bool.eqb b w
              then p * (1 - learn_rate self) + bit b * learn_rate self
              else p * (1 - (learn_rate self + neg_learn_rate self))
                   + bit b * (learn_rate self + neg_learn_rate self) in
            prob_vector self' !! i
            = Some match t with
                   | Some target =>
                       learned * (1 - mut_shift self)
                       + inject_Z target * mut_shift self
                   | None => learned
                   end.
Proof.
  intros Hrb Hpv Hb Hw.
  rewrite (update_probabilities_refines Hrb self best worst s Hpv Hb Hw).
  destruct (mutation_targets_bits Hrb (mut_prob self) (total_bits self) s)
    as [Hlen Hbits].
  destruct (mutation_targets (mut_prob self) (total_bits self) s) as [ts s'].
  cbn [fst snd] in *.
  exists (set_prob_vector self
            (mutate_vector (mut_shift self) ts
               (learn_vector (learn_rate self) (neg_learn_rate self)
                  (prob_vector self) best worst))), s', ts.
  split; [reflexivity |]. split; [reflexivity |].
  intros i Hi.
  destruct (lookup_lt_is_Some_2 (prob_vector self) i ltac:(lia)) as [p Hp].
  destruct (lookup_lt_is_Some_2 best i ltac:(lia)) as [b Hbi].
  destruct (lookup_lt_is_Some_2 worst i ltac:(lia)) as [w Hwi].
  destruct (lookup_lt_is_Some_2 ts i ltac:(lia)) as [t Ht].
  exists p, b, w, t. repeat (split; [assumption |]).
  split.
  - apply (proj1 (List.Forall_forall _ _) Hbits).
    apply list_elem_of_In. apply list_elem_of_lookup. exists i. exact Ht.
  - cbn [prob_vector set_prob_vector].
    apply (mutate_vector_lookup (mut_shift self) ts _ i t _ Ht).
    apply learn_vector_lookup; assumption.
Qed.

(** *** The invariant of the probability vector *)

(** C3.  With rates in [0,1], [learn_rate + neg_learn_rate <= 1], a
    vector of probabilities in [0,1] and [best], [worst] of
    [16 * len(parameters)] bits, [update_probabilities] returns, every
    entry of the new vector is in [0,1], and its length is the one the
    constructor gave it. *)
Theorem update_probabilities_invariant {rng : Type} `{RandomSource rng}
    (self : PBIL) (best worst : list bool) (s : rng) :
  randbelow_in_range ->
  well_formed self ->
  Forall in_unit (prob_vector self) ->
  in_unit (learn_rate self) -> in_unit (neg_learn_rate self) ->
  learn_rate self + neg_learn_rate self <= 1 ->
  in_unit (mut_prob self) -> in_unit (mut_shift self) ->
  length best = (16 * length (parameters self))%nat ->
  length worst = (16 * length (parameters self))%nat ->
  exists (self' : PBIL) (s' : rng),
    update_probabilities self best worst s = Ok (self', s')
    /\ Forall in_unit (prob_vector self')
    /\ length (prob_vector self') = length (prob_vector self)
    /\ length (prob_vector self') = (16 * length (parameters self'))%nat
    /\ well_formed self'.
Proof.
  intros Hrb [Htot Hpv] Hunit Hlr Hnlr Hsum _ Hms Hb Hw.
  rewrite <- Htot in Hb, Hw.
  rewrite (update_probabilities_refines Hrb self best worst s Hpv Hb Hw).
  destruct (mutation_targets_bits Hrb (mut_prob self) (total_bits self) s)
    as [Hlen Hbits].
  destruct (mutation_targets (mut_prob self) (total_bits self) s) as [ts s'].
  cbn [fst snd] in *.
  eexists; eexists; split; [reflexivity |].
  cbn [prob_vector set_prob_vector parameters].
  assert (length (mutate_vector (mut_shift self) ts
            (learn_vector (learn_rate self) (neg_learn_rate self)
               (prob_vector self) best worst))
          = length (prob_vector self)) as Hlen'.
  { rewrite mutate_vector_length; rewrite learn_vector_length; congruence. }
  split; [| split; [exact Hlen' | split]].
  - apply mutate_vector_in_unit; [assumption | assumption |].
    apply learn_vector_in_unit; assumption.
  - rewrite Hlen'. congruence.
  - split; cbn [total_bits parameters prob_vector set_prob_vector];
      [exact Htot | congruence].
Qed.

Lemma update_probabilities_rule_witness :
  @randbelow_in_range nat counter_source
  /\ length (prob_vector (PBIL_default [depth])) = total_bits (PBIL_default [depth])
  /\ length (repeat true 16) = total_bits (PBIL_default [depth])
  /\ length (repeat false 16) = total_bits (PBIL_default [depth])
  /\ exists (self' : PBIL) (s' : nat),
       update_probabilities (PBIL_default [depth])
         (repeat true 16) (repeat false 16) 0%nat = Ok (self', s').
Proof.
  split; [exact counter_randbelow_ok |].
  split; [reflexivity |]. split; [reflexivity |]. split; [reflexivity |].
  destruct (update_probabilities_rule (PBIL_default [depth])
              (repeat true 16) (repeat false 16) 0%nat
              counter_randbelow_ok eq_refl eq_refl eq_refl)
    as (self' & s' & targets & Hup & _).
  exists self', s'. exact Hup.
Defined.

Lemma update_probabilities_invariant_witness :
  exists (self' : PBIL) (s' : nat),
    update_probabilities (PBIL_default [depth])
      (repeat true 16) (repeat false 16) 0%nat = Ok (self', s')
    /\ Forall in_unit (prob_vector self')
    /\ length (prob_vector self') = length (prob_vector (PBIL_default [depth]))
    /\ length (prob_vector self') = (16 * length (parameters self'))%nat
    /\ well_formed self'.
Proof.
  apply (update_probabilities_invariant (PBIL_default [depth])
           (repeat true 16) (repeat false 16) 0%nat).
  - exact counter_randbelow_ok.
  - apply PBIL_init_well_formed.
  - apply PBIL_init_well_formed.
  - split; discriminate.
  - split; discriminate.
  - discriminate.
  - split; discriminate.
  - split; discriminate.
  - reflexivity.
  - reflexivity.
Defined.

(** *** Sampling from a saturated vector *)

Section SamplingFacts.
Context {rng : Type} `{RandomSource rng}.
Hypothesis random_ok : random_in_unit.

Lemma sample_constant (c : bool) (pv : list Q) :
  (forall r p, 0 <= r /\ r < 1 -> In p pv -> Qltb r p = c) ->
  forall s : rng, fst (sample pv s) = repeat c (length pv).
Proof.
  induction pv as [| p pv IH]; intros Hc s; [reflexivity |].
  cbn [sample length repeat].
  pose proof (random_ok s) as Hr.
  destruct (random s) as [r s1]. cbn [fst] in Hr.
  specialize (IH (fun r' p' Hr' Hin => Hc r' p' Hr' (or_intror Hin)) s1).
  destruct (sample pv s1) as [bits s2]. cbn [fst] in *.
  rewrite IH, (Hc r p Hr (or_introl eq_refl)). reflexivity.
Qed.

Lemma population_constant (self : PBIL) (individual : list bool) :
  (forall s : rng, fst (sample (prob_vector self) s) = individual) ->
  forall (size : nat) (s : rng),
    fst (generate_population self size s) = repeat individual size.
Proof.
  intros Hs. induction size as [| size IH]; intros s; [reflexivity |].
  cbn [generate_population repeat].
  specialize (Hs s). destruct (sample (prob_vector self) s) as [ind s1].
  specialize (IH s1). destruct (generate_population self size s1) as [rest s2].
  cbn [fst] in *. congruence.
Qed.

End SamplingFacts.

(** C8.  With every probability equal to 1, each of the [size] sampled
    individuals is the all-true vector; with every probability equal to
    0, the all-false vector: for every [size] and every state of the
    random source, whose draws lie in [0,1). *)
Theorem generate_population_saturated {rng : Type} `{RandomSource rng}
    (self : PBIL) (size : nat) (s : rng) :
  random_in_unit ->
  (Forall (fun p => p == 1) (prob_vector self) ->
   fst (generate_population self size s)
   = repeat (repeat true (length (prob_vector self))) size)
  /\ (Forall (fun p => p == 0) (prob_vector self) ->
      fst (generate_population self size s)
      = repeat (repeat false (length (prob_vector self))) size).
Proof.
  intros Hr. split; intros Hall;
    apply (population_constant self); intros s0;
    apply (sample_constant Hr); intros r p [Hr0 Hr1] Hin;
    apply (proj1 (List.Forall_forall _ _) Hall) in Hin.
  - apply Qltb_lt. lra.
  - apply Qltb_ge. lra.
Qed.

Lemma generate_population_saturated_witness :
  fst (generate_population
         (set_prob_vector (PBIL_default [depth]) (repeat 1 16)) 3 0%nat)
  = repeat (repeat true 16) 3
  /\ fst (generate_population
            (set_prob_vector (PBIL_default [depth]) (repeat 0 16)) 3 0%nat)
     = repeat (repeat false 16) 3.
Proof.
  split.
  - apply (proj1 (generate_population_saturated
                    (set_prob_vector (PBIL_default [depth]) (repeat 1 16))
                    3 0%nat counter_random_ok)).
    cbn. repeat constructor.
  - apply (proj2 (generate_population_saturated
                    (set_prob_vector (PBIL_default [depth]) (repeat 0 16))
                    3 0%nat counter_random_ok)).
    cbn. repeat constructor.
Defined.

(** ** The driver *)

Lemma argsort_insert_perm (a : list Q) (i : nat) (sorted : list nat) :
  Permutation (argsort_insert a i sorted) (i :: sorted).
Proof.
  induction sorted as [| j sorted IH]; cbn [argsort_insert]; [reflexivity |].
  destruct (Qltb (nth i a 0) (nth j a 0)); [reflexivity |].
  rewrite IH. apply perm_swap.
Qed.

Lemma argsort_fold_perm (a : list Q) (indices : list nat) :
  forall acc : list nat,
    Permutation
      (fold_left (fun sorted i => argsort_insert a i sorted) indices acc)
      (indices ++ acc).
Proof.
  induction indices as [| i indices IH]; intros acc; cbn [fold_left app];
    [reflexivity |].
  rewrite IH, argsort_insert_perm. symmetry. apply Permutation_middle.
Qed.

(** [np.argsort] returns a permutation of the indices of its argument. *)
Lemma argsort_perm (a : list Q) : Permutation (argsort a) (seq 0 (length a)).
Proof.
  unfold argsort. rewrite argsort_fold_perm, app_nil_r. reflexivity.
Qed.

(** The index of the best score exists when there is a score, and it is
    an index of the list of scores. *)
Lemma best_index_exists (scores : list Q) :
  scores <> [] ->
  exists i : nat, rev (argsort scores) !! 0%nat = Some i /\ (i < length scores)%nat.
Proof.
  intros Hne.
  pose proof (argsort_perm scores) as Hperm.
  assert (length (rev (argsort scores)) = length scores) as Hlen.
  { rewrite length_rev, (Permutation_length Hperm). apply length_seq. }
  destruct (rev (argsort scores)) as [| i rest] eqn:E.
  - destruct scores; [congruence | discriminate].
  - exists i. split; [reflexivity |].
    assert (In i (seq 0 (length scores))) as Hin.
    { apply (Permutation_in _ Hperm). apply in_rev. rewrite E. left. reflexivity. }
    apply in_seq in Hin. lia.
Qed.

Lemma for_each_invariant {St : Type} (body : nat -> St -> result St)
    (P : St -> Prop) :
  (forall i st st', body i st = Ok st' -> P st -> P st') ->
  forall indices st st',
    for_each body indices st = Ok st' -> P st -> P st'.
Proof.
  intros Hbody. induction indices as [| i indices IH]; intros st st' Hrun HP;
    cbn [for_each] in Hrun.
  - congruence.
  - destruct (body i st) as [st1 | e] eqn:E; cbn [bind] in Hrun; [| discriminate].
    eapply IH; [exact Hrun |]. eapply Hbody; eassumption.
Qed.

Lemma for_list_ok {A B : Type} (f : A -> result B) (l : list A) :
  Forall (fun a => exists b, f a = Ok b) l ->
  exists bs : list B, for_list f l = Ok bs /\ length bs = length l.
Proof.
  induction 1 as [| a l [b Hb] Hl [bs [Hbs Hlen]]]; cbn [for_list].
  - exists []. split; reflexivity.
  - rewrite Hb, Hbs. cbn [bind]. exists (b :: bs). split; [reflexivity |].
    simpl. lia.
Qed.

Section SamplingLengths.
Context {rng : Type} `{RandomSource rng}.

Lemma sample_length (pv : list Q) :
  forall s : rng, length (fst (sample pv s)) = length pv.
Proof.
  induction pv as [| p pv IH]; intros s; [reflexivity |].
  cbn [sample]. destruct (random s) as [r s1].
  specialize (IH s1). destruct (sample pv s1) as [bits s2].
  cbn [fst length] in *. lia.
Qed.

Lemma generate_population_lengths (self : PBIL) (size : nat) :
  forall s : rng,
    length (fst (generate_population self size s)) = size
    /\ Forall (fun individual => length individual = length (prob_vector self))
              (fst (generate_population self size s)).
Proof.
  induction size as [| size IH]; intros s; cbn [generate_population].
  - split; [reflexivity | constructor].
  - pose proof (sample_length (prob_vector self) s) as Hs.
    destruct (sample (prob_vector self) s) as [individual s1].
    specialize (IH s1). destruct (generate_population self size s1) as [rest s2].
    cbn [fst] in *. destruct IH as [IHl IHf].
    split; [simpl; lia | constructor; assumption].
Qed.

(** Decoding asks of the bounds that they are bounded numbers, and
    nothing of their order: a full block of 16 bits then decodes. *)
Lemma decode_from_ok (individual : list bool) (params : list Param) :
  bounded_space params ->
  forall (i : nat) (acc : Configuration),
    ((i + length params) * 16 <= length individual)%nat ->
    exists config, decode_from i params individual acc = Ok config.
Proof.
  induction 1 as [| param params [Hmin Hmax] Hrest IH]; intros i acc Hlen;
    cbn [decode_from].
  - exists acc. reflexivity.
  - cbn [length] in Hlen.
    assert (length (slice individual (i * 16) ((i + 1) * 16)) = 16%nat) as Hs.
    { unfold slice. rewrite length_take, length_drop. lia. }
    rewrite (decode_code param _ Hmin Hmax);
      [| intros E; rewrite E in Hs; discriminate | lia].
    cbn [bind]. apply IH. lia.
Qed.

Lemma decode_individual_ok (self : PBIL) (individual : list bool) :
  well_formed self ->
  bounded_space (parameters self) ->
  length individual = length (prob_vector self) ->
  exists config, decode_individual self individual = Ok config.
Proof.
  intros [Htot Hpv] Hb Hlen. unfold decode_individual.
  apply decode_from_ok; [exact Hb | lia].
Qed.

End SamplingLengths.

Section DriverFacts.
Context {rng : Type} `{RandomSource rng} {world : Type} `{Host world}.

(** No statement of the loop body assigns to the model object. *)
Lemma main_body_keeps_model (evaluator : EngineEvaluator) (g : nat)
    (st st' : Driver rng world) :
  main_body evaluator g st = Ok st' -> pbil st' = pbil st.
Proof.
  unfold main_body.
  destruct (generate_population (pbil st) 3 (rand st)) as [population s1].
  destruct (for_list (decode_individual (pbil st)) population) as [decoded | e];
    cbn [bind]; [| discriminate].
  destruct (run_tournament (default_params evaluator :: decoded) (env st))
    as [fitness_scores w1].
  destruct (index (rev (argsort fitness_scores)) 0) as [best_index | e];
    cbn [bind]; [| discriminate].
  destruct (index (default_params evaluator :: decoded) best_index)
    as [best_params | e]; cbn [bind]; [| discriminate].
  destruct (index fitness_scores best_index) as [best_score | e];
    cbn [bind]; [| discriminate].
  destruct (index fitness_scores 0) as [default_score | e];
    cbn [bind]; [| discriminate].
  intros E. injection E as <-. reflexivity.
Qed.

(** The three sampled individuals of a well-formed model over a bounded
    space decode. *)
Lemma population_decodes (self : PBIL) (s : rng) :
  well_formed self ->
  bounded_space (parameters self) ->
  exists decoded : list Configuration,
    for_list (decode_individual self) (fst (generate_population self 3 s))
    = Ok decoded
    /\ length decoded = 3%nat.
Proof.
  intros Hwf Hb.
  destruct (generate_population_lengths self 3 s) as [Hlen Hall].
  destruct (for_list_ok (decode_individual self)
              (fst (generate_population self 3 s))) as [decoded [Hd Hl]].
  - eapply Forall_impl; [exact Hall |].
    intros individual Hi. apply decode_individual_ok; assumption.
  - exists decoded. split; [exact Hd | congruence].
Qed.

(** A turn of the loop whose tournament answers with at least one score,
    and with no more scores than candidates, appends its record. *)
Lemma main_body_ok (evaluator : EngineEvaluator) (g : nat)
    (st : Driver rng world) :
  well_formed (pbil st) ->
  bounded_space (parameters (pbil st)) ->
  (forall configs w,
      length configs = 4%nat ->
      (1 <= length (fst (run_tournament configs w)) <= 4)%nat) ->
  exists (st' : Driver rng world) (r : GenerationRecord),
    main_body evaluator g st = Ok st'
    /\ pbil st' = pbil st
    /\ results_file st' = results_file st ++ [r]
    /\ generation r = g.
Proof.
  intros Hwf Hb Horacle. unfold main_body.
  destruct (population_decodes (pbil st) (rand st) Hwf Hb) as [decoded [Hd Hl]].
  destruct (generate_population (pbil st) 3 (rand st)) as [population s1].
  cbn [fst] in Hd. rewrite Hd. cbn [bind].
  specialize (Horacle (default_params evaluator :: decoded) (env st)
                ltac:(simpl; lia)).
  destruct (run_tournament (default_params evaluator :: decoded) (env st))
    as [fitness_scores w1].
  cbn [fst] in Horacle.
  destruct (best_index_exists fitness_scores) as [best_index [Hbest Hlt]].
  { intros E. rewrite E in Horacle. simpl in Horacle. lia. }
  rewrite (index_Some _ _ _ Hbest). cbn [bind].
  destruct (lookup_lt_is_Some_2 (default_params evaluator :: decoded) best_index)
    as [best_params Hbp]; [simpl; lia |].
  destruct (lookup_lt_is_Some_2 fitness_scores best_index)
    as [best_score Hbs]; [lia |].
  destruct (lookup_lt_is_Some_2 fitness_scores 0)
    as [default_score Hds]; [lia |].
  rewrite (index_Some _ _ _ Hbp), (index_Some _ _ _ Hbs), (index_Some _ _ _ Hds).
  cbn [bind].
  eexists; eexists. split; [reflexivity |].
  cbn [pbil results_file generation]. repeat split.
Qed.

(** A turn of the loop whose tournament answers with no score at all
    stops at [sorted_indices[0]]. *)
Lemma main_body_empty (evaluator : EngineEvaluator) (g : nat)
    (st : Driver rng world) :
  well_formed (pbil st) ->
  bounded_space (parameters (pbil st)) ->
  (forall configs, fst (run_tournament configs (env st)) = []) ->
  main_body evaluator g st = Raise IndexError.
Proof.
  intros Hwf Hb Hempty. unfold main_body.
  destruct (population_decodes (pbil st) (rand st) Hwf Hb) as [decoded [Hd Hl]].
  destruct (generate_population (pbil st) 3 (rand st)) as [population s1].
  cbn [fst] in Hd. rewrite Hd. cbn [bind].
  specialize (Hempty (default_params evaluator :: decoded)).
  destruct (run_tournament (default_params evaluator :: decoded) (env st))
    as [fitness_scores w1].
  cbn [fst] in Hempty. subst fitness_scores. reflexivity.
Qed.

(** Whatever the space, a turn whose tournament answers with no score
    ends in an exception: the one of a decoding that fails, or the
    [IndexError] of [sorted_indices[0]]. *)
Lemma main_body_empty_raises (evaluator : EngineEvaluator) (g : nat)
    (st : Driver rng world) :
  (forall configs, fst (run_tournament configs (env st)) = []) ->
  exists e, main_body evaluator g st = Raise e.
Proof.
  intros Hempty. unfold main_body.
  destruct (generate_population (pbil st) 3 (rand st)) as [population s1].
  destruct (for_list (decode_individual (pbil st)) population) as [decoded | e];
    cbn [bind]; [| exists e; reflexivity].
  specialize (Hempty (default_params evaluator :: decoded)).
  destruct (run_tournament (default_params evaluator :: decoded) (env st))
    as [fitness_scores w1].
  cbn [fst] in Hempty. subst fitness_scores. exists IndexError. reflexivity.
Qed.

Lemma main_loop_ok (evaluator : EngineEvaluator) (model : PBIL) :
  well_formed model ->
  bounded_space (parameters model) ->
  (forall configs w,
      length configs = 4%nat ->
      (1 <= length (fst (run_tournament configs w)) <= 4)%nat) ->
  forall (n g : nat) (st : Driver rng world),
    pbil st = model ->
    exists st' : Driver rng world,
      for_each (main_body evaluator) (seq g n) st = Ok st'
      /\ pbil st' = model
      /\ length (results_file st') = (length (results_file st) + n)%nat
      /\ map generation (results_file st')
         = map generation (results_file st) ++ seq g n.
Proof.
  intros Hwf Hb Horacle. induction n as [| n IH]; intros g st Hst;
    cbn [seq for_each].
  - exists st. rewrite app_nil_r. repeat split; [exact Hst | lia].
  - destruct (main_body_ok evaluator g st) as (st1 & r & Hrun & Hp & Hlog & Hg);
      [rewrite Hst; exact Hwf | rewrite Hst; exact Hb | exact Horacle |].
    rewrite Hrun. cbn [bind].
    destruct (IH (S g) st1) as (st' & Hrun' & Hp' & Hlen & Hgen);
      [congruence |].
    exists st'. split; [exact Hrun' |]. split; [exact Hp' |].
    rewrite Hlog in Hlen, Hgen. rewrite length_app in Hlen.
    rewrite map_app, <- app_assoc in Hgen. cbn in Hlen, Hgen.
    split; [lia | congruence].
Qed.

End DriverFacts.

(** With the rates of the constructor's defaults, one update moves a
    probability of 0.5 off 0.5, whatever the bits and the target. *)
Lemma default_update_moves (b w : bool) (t : option Z) :
  target_bit t ->
  ~ mutate_bit (1 # 20) t (learn_bit (1 # 10) (3 # 40) (1 # 2) b w) == 1 # 2.
Proof.
  intros [-> | [-> | ->]]; destruct b, w; vm_compute; discriminate.
Qed.

Lemma repeat_lookup {A : Type} (x y : A) (n i : nat) :
  repeat x n !! i = Some y -> y = x.
Proof.
  revert i. induction n as [| n IH]; intros [| i] E; cbn in E;
    try discriminate; [congruence | eauto].
Qed.

Lemma default_update_changes_model {rng : Type} `{RandomSource rng}
    (params : list Param) (best worst : list bool) (s s' : rng) (m : PBIL) :
  randbelow_in_range ->
  length best = (length params * 16)%nat ->
  length worst = (length params * 16)%nat ->
  update_probabilities (PBIL_default params) best worst s = Ok (m, s') ->
  forall (i : nat) (p : Q), prob_vector m !! i = Some p -> ~ p == 1 # 2.
Proof.
  intros Hrb Hb Hw Hup i p Hp.
  rewrite (update_probabilities_refines Hrb (PBIL_default params) best worst s)
    in Hup; [| apply repeat_length | exact Hb | exact Hw].
  destruct (mutation_targets_bits Hrb (mut_prob (PBIL_default params))
              (total_bits (PBIL_default params)) s) as [Hlen Hbits].
  destruct (mutation_targets (mut_prob (PBIL_default params))
              (total_bits (PBIL_default params)) s) as [ts s0].
  cbn [fst snd] in *. injection Hup as <- <-.
  cbn [prob_vector set_prob_vector] in Hp.
  assert (i < length params * 16)%nat as Hi.
  { apply lookup_lt_Some in Hp.
    rewrite mutate_vector_length in Hp;
      rewrite learn_vector_length in *; try rewrite repeat_length in *;
      cbn in *; try lia; try congruence. }
  destruct (lookup_lt_is_Some_2 (prob_vector (PBIL_default params)) i)
    as [p0 Hp0]; [cbn; rewrite repeat_length; lia |].
  destruct (lookup_lt_is_Some_2 best i ltac:(lia)) as [b Hbi].
  destruct (lookup_lt_is_Some_2 worst i ltac:(lia)) as [w Hwi].
  destruct (lookup_lt_is_Some_2 ts i) as [t Ht]; [cbn in Hlen; lia |].
  rewrite (mutate_vector_lookup _ ts _ i t _ Ht
             (learn_vector_lookup _ _ _ _ _ i p0 b w Hp0 Hbi Hwi)) in Hp.
  injection Hp as <-.
  assert (p0 = 1 # 2) as -> by (cbn in Hp0; eapply repeat_lookup; exact Hp0).
  apply default_update_moves.
  apply (proj1 (List.Forall_forall _ _) Hbits).
  apply list_elem_of_In, list_elem_of_lookup. exists i. exact Ht.
Qed.

(** *** The model is never fed back *)

(** C1 fails on the code.  A run of [main] that completes ends with the
    probability vector the constructor made, every entry 0.5: no
    generation has called [update_probabilities], whose result on that
    vector has no entry equal to 0.5. *)
Theorem main_never_updates_model {rng : Type} `{RandomSource rng}
    {world : Type} `{Host world}
    (engine_path cutechess_cli : string) (params : list Param)
    (s : rng) (w : world) (d : Driver rng world) :
  main engine_path cutechess_cli params s w = Ok d ->
  pbil d = PBIL_default params
  /\ prob_vector (pbil d) = repeat (1 # 2) (length params * 16)
  /\ forall (best worst : list bool) (s0 s1 : rng) (m : PBIL),
       randbelow_in_range ->
       length best = (length params * 16)%nat ->
       length worst = (length params * 16)%nat ->
       update_probabilities (pbil d) best worst s0 = Ok (m, s1) ->
       forall (i : nat) (p : Q), prob_vector m !! i = Some p -> ~ p == 1 # 2.
Proof.
  intros Hrun. unfold main in Hrun. cbn [ev_parameters EngineEvaluator_init] in Hrun.
  assert (pbil d = PBIL_default params) as Hd.
  { apply (for_each_invariant _ (fun st => pbil st = PBIL_default params)
             (fun i st st' Hb Hst =>
                eq_trans (main_body_keeps_model _ i st st' Hb) Hst)
             _ _ _ Hrun).
    reflexivity. }
  split; [exact Hd |]. split; [rewrite Hd; reflexivity |].
  intros best worst s0 s1 m Hrb Hb Hw Hup.
  rewrite Hd in Hup.
  exact (default_update_changes_model params best worst s0 s1 m Hrb Hb Hw Hup).
Qed.

Lemma main_never_updates_model_witness :
  exists d : Driver nat unit,
    main "engine" "cutechess-cli" [depth] 0%nat tt = Ok d
    /\ prob_vector (pbil d) = repeat (1 # 2) 16.
Proof.
  destruct (main "engine" "cutechess-cli" [depth] 0%nat tt) as [d | e] eqn:E.
  - exists d. split; [reflexivity |].
    exact (proj1 (proj2 (main_never_updates_model
                           "engine" "cutechess-cli" [depth] 0%nat tt d E))).
  - exfalso. vm_compute in E. discriminate E.
Defined.

(** *** A tournament without scores *)

Lemma first_index_none {A : Type} (P : A -> bool) (l : list A) :
  Forall (fun a => P a = false) l ->
  forall i : Z, first_index P i l = (-1)%Z.
Proof.
  induction 1 as [| a l Ha Hl IH]; intros i; cbn [first_index];
    [reflexivity |].
  rewrite Ha. apply IH.
Qed.

(** X15.  An output with no line that starts with ["Rank Name"], the
    empty output among them, yields the empty list of scores. *)
Lemma parse_without_table {world : Type} `{Host world} (output : list ascii) :
  Forall (fun line => startswith line (list_ascii_of_string "Rank Name") = false)
         (split_on "010" (strip output)) ->
  parse_tournament_results output = [].
Proof.
  intros Hno. unfold parse_tournament_results.
  rewrite (first_index_none _ _ Hno). reflexivity.
Qed.

(** C4 fails on the code.  When the tournament of the first generation
    returns the empty list of scores, [main] ends with an exception,
    whatever the parameters: nothing is recorded and no later generation
    runs.  When the bounds of the parameters are bounded numbers, so that
    the decoding of the population cannot overflow, the exception is the
    [IndexError] of [sorted_indices[0]]. *)
Theorem main_raises_on_empty_scores {rng : Type} `{RandomSource rng}
    {world : Type} `{Host world}
    (engine_path cutechess_cli : string) (params : list Param)
    (s : rng) (w : world) :
  (forall configs, fst (run_tournament configs w) = []) ->
  (exists e, main engine_path cutechess_cli params s w = Raise e)
  /\ (bounded_space params ->
      main engine_path cutechess_cli params s w = Raise IndexError).
Proof.
  intros Hempty. unfold main, range. cbn [seq for_each]. split.
  - destruct (main_body_empty_raises
                (EngineEvaluator_init engine_path cutechess_cli params) 0%nat
                {| pbil := PBIL_default params; rand := s; env := w;
                   results_file := [] |} Hempty) as [e He].
    exists e. cbn [ev_parameters EngineEvaluator_init]. rewrite He. reflexivity.
  - intros Hb.
    rewrite main_body_empty;
      [reflexivity | apply PBIL_init_well_formed | exact Hb | exact Hempty].
Qed.

Lemma bounded_PyInt (n : Z) : (Z.abs n <= 2 ^ 53)%Z -> bounded (PyInt n).
Proof. intros Hn. apply representable_bounded, representable_PyInt, Hn. Qed.

Lemma main_raises_on_empty_scores_witness :
  parse_tournament_results no_table = []
  /\ main "engine" "cutechess-cli" [depth] 0%nat [Some no_table]
     = Raise IndexError.
Proof.
  split; [reflexivity |].
  apply (main_raises_on_empty_scores "engine" "cutechess-cli" [depth] 0%nat
           [Some no_table]).
  - intros configs. reflexivity.
  - repeat constructor; apply bounded_PyInt; by_evaluation.
Defined.

(** *** A malformed parameter space *)

(** C7, as amended.  The constructor checks nothing: for every list of
    parameters whose bounds are bounded numbers, in whatever order the
    two bounds of a parameter stand and whatever the names, the model is
    built with [16 * len(parameters)] probabilities of 0.5, and when
    every tournament answers with one to four scores the ten generations
    run and are recorded in order. *)
Theorem main_accepts_any_space {rng : Type} `{RandomSource rng}
    {world : Type} `{Host world}
    (engine_path cutechess_cli : string) (params : list Param)
    (s : rng) (w : world) :
  bounded_space params ->
  (forall configs w',
      length configs = 4%nat ->
      (1 <= length (fst (run_tournament configs w')) <= 4)%nat) ->
  exists d : Driver rng world,
    main engine_path cutechess_cli params s w = Ok d
    /\ total_bits (pbil d) = (length params * 16)%nat
    /\ prob_vector (pbil d) = repeat (1 # 2) (length params * 16)
    /\ length (results_file d) = 10%nat
    /\ map generation (results_file d) = seq 0 10.
Proof.
  intros Hb Horacle. unfold main, range.
  destruct (main_loop_ok
              (EngineEvaluator_init engine_path cutechess_cli params)
              (PBIL_default params)
              (proj1 (PBIL_init_well_formed params _ _ _ _)) Hb Horacle 10 0
              {| pbil := PBIL_default params; rand := s; env := w;
                 results_file := [] |} eq_refl)
    as (d & Hrun & Hp & Hlen & Hgen).
  exists d. cbn [ev_parameters EngineEvaluator_init].
  split; [exact Hrun |]. rewrite Hp.
  repeat split; [exact Hlen | exact Hgen].
Qed.

Lemma main_accepts_any_space_witness :
  exists d : Driver nat unit,
    main "engine" "cutechess-cli" malformed 0%nat tt = Ok d
    /\ total_bits (pbil d) = 32%nat
    /\ prob_vector (pbil d) = repeat (1 # 2) 32
    /\ length (results_file d) = 10%nat
    /\ map generation (results_file d) = seq 0 10.
Proof.
  apply (main_accepts_any_space "engine" "cutechess-cli" malformed 0%nat tt).
  - repeat constructor; try (apply bounded_PyInt; by_evaluation);
      (split; [exact I | by_evaluation]).
  - intros configs w' _. vm_compute. split; [lia | lia].
Defined.

(** C7 as stated fails: a space whose first parameter has
    [min_value > max_value] and whose two parameters share a name is
    accepted, and its ten generations are run and recorded. *)
Lemma malformed_space_runs :
  (exists p q : Param,
      malformed = [p; q]
      /\ value_of (max_value p) < value_of (min_value p)
      /\ value_of (max_value q) == value_of (min_value q)
      /\ name p = name q)
  /\ match main "engine" "cutechess-cli" malformed 0%nat tt with
     | Ok d => length (results_file d) = 10%nat
     | Raise _ => False
     end.
Proof.
  split.
  - eexists; eexists. split; [reflexivity |]. repeat split.
  - vm_compute. reflexivity.
Qed.

(** * Further properties of the probability model *)

(** X8.  [generate_population(size)] returns [size] individuals, each
    with one bit per entry of the probability vector. *)
Theorem generate_population_shape {rng : Type} `{RandomSource rng}
    (self : PBIL) (size : nat) (s : rng) :
  length (fst (generate_population self size s)) = size
  /\ forall (j : nat) (individual : list bool),
       fst (generate_population self size s) !! j = Some individual ->
       length individual = length (prob_vector self).
Proof.
  destruct (generate_population_lengths self size s) as [Hlen Hall].
  split; [exact Hlen |].
  intros j individual Hj.
  apply (proj1 (List.Forall_forall _ _) Hall).
  apply list_elem_of_In, list_elem_of_lookup. exists j. exact Hj.
Qed.

Section UpdateEdges.
Context {rng : Type} `{RandomSource rng}.

Lemma learn_at_outcome (self : PBIL) (best worst : list bool) (i : nat)
    (pv : list Q) :
  (exists pv', learn_at self best worst i pv = Ok pv')
  \/ learn_at self best worst i pv = Raise IndexError.
Proof.
  unfold learn_at, index.
  destruct (best !! i) as [b |]; [| right; reflexivity].
  destruct (worst !! i) as [w |]; [| right; reflexivity].
  cbn [bind].
  destruct (Bool.eqb b w); destruct (pv !! i) as [p |]; cbn [bind];
    (left; eexists; reflexivity) || (right; reflexivity).
Qed.

Lemma learn_at_missing (self : PBIL) (best worst : list bool) (i : nat)
    (pv : list Q) :
  best !! i = None \/ worst !! i = None ->
  learn_at self best worst i pv = Raise IndexError.
Proof.
  unfold learn_at, index. intros [-> | Hw]; [reflexivity |].
  destruct (best !! i); [rewrite Hw |]; reflexivity.
Qed.

Lemma learn_loop_raises (self : PBIL) (best worst : list bool)
    (indices : list nat) :
  (exists i, In i indices /\ (best !! i = None \/ worst !! i = None)) ->
  forall pv, for_each (learn_at self best worst) indices pv = Raise IndexError.
Proof.
  induction indices as [| i0 indices IH]; intros [i [Hin Hbad]] pv.
  - destruct Hin.
  - cbn [for_each]. destruct Hin as [-> | Hin].
    + rewrite learn_at_missing by exact Hbad. reflexivity.
    + destruct (learn_at_outcome self best worst i0 pv) as [[pv' ->] | ->];
        cbn [bind]; [| reflexivity].
      apply IH. exists i. split; assumption.
Qed.


End UpdateEdges.

(** X9.  When [best] or [worst] has fewer entries than the model has
    bits, [update_probabilities] raises an [IndexError]. *)
Theorem update_probabilities_short_input {rng : Type} `{RandomSource rng}
    (self : PBIL) (best worst : list bool) (s : rng) :
  (length best < total_bits self)%nat \/ (length worst < total_bits self)%nat ->
  update_probabilities self best worst s = Raise IndexError.
Proof.
  intros Hshort. unfold update_probabilities, range.
  rewrite learn_loop_raises; [reflexivity |].
  destruct Hshort as [Hb | Hw].
  - exists (length best). split; [apply in_seq; lia |].
    left. apply lookup_ge_None. lia.
  - exists (length worst). split; [apply in_seq; lia |].
    right. apply lookup_ge_None. lia.
Qed.

Lemma update_probabilities_short_input_witness :
  update_probabilities (PBIL_default [depth]) (repeat true 15) (repeat false 16)
    0%nat
  = Raise IndexError.
Proof.
  apply update_probabilities_short_input. left. cbn. lia.
Defined.



(** * Further properties of decoded configurations *)

Lemma slice_empty {A : Type} (l : list A) (a b : nat) :
  (length l <= a)%nat -> slice l a b = [].
Proof.
  intros Hle. unfold slice. rewrite drop_ge by exact Hle. apply take_nil.
Qed.

Lemma slice_block (individual : list bool) (i : nat) :
  (length (slice individual (i * 16) ((i + 1) * 16)) <= 16)%nat.
Proof. unfold slice. rewrite length_take. lia. Qed.

Lemma decode_from_total (individual : list bool) (params : list Param) :
  bounded_space params ->
  forall (i : nat) (acc : Configuration),
    (forall j, (j < length params)%nat -> ((i + j) * 16 < length individual)%nat) ->
    exists config, decode_from i params individual acc = Ok config.
Proof.
  induction 1 as [| param params [Hmin Hmax] Hrest IH]; intros i acc Hlen;
    cbn [decode_from].
  - exists acc. reflexivity.
  - rewrite (decode_code param _ Hmin Hmax); [| | apply slice_block].
    + cbn [bind]. apply IH. intros j Hj.
      specialize (Hlen (S j) ltac:(simpl; lia)).
      replace (S i + j)%nat with (i + S j)%nat by lia. exact Hlen.
    + specialize (Hlen 0%nat ltac:(simpl; lia)).
      intros E. apply (f_equal (@length bool)) in E.
      unfold slice in E. rewrite length_take, length_drop in E.
      simpl in E. lia.
Qed.

Lemma decode_from_raises (individual : list bool) (params : list Param) :
  bounded_space params ->
  forall (i : nat) (acc : Configuration),
    (exists j, (j < length params)%nat
               /\ (length individual <= (i + j) * 16)%nat) ->
    decode_from i params individual acc = Raise ValueError.
Proof.
  induction 1 as [| param params [Hmin Hmax] Hrest IH];
    intros i acc [j [Hj Hshort]]; cbn [decode_from length] in *; [lia |].
  destruct j as [| j].
  - rewrite slice_empty by lia. reflexivity.
  - pose proof (slice_block individual i) as Hblock.
    destruct (slice individual (i * 16) ((i + 1) * 16)) as [| b bits] eqn:E;
      [reflexivity |].
    rewrite (decode_code param _ Hmin Hmax) by (discriminate || exact Hblock).
    cbn [bind].
    apply IH. exists j. split; [lia |].
    replace (S i + j)%nat with (i + S j)%nat by lia. exact Hshort.
Qed.

(** X11.  Over a space of bounded numbers, [decode_individual] raises,
    and then a [ValueError], exactly when there is a parameter and the
    individual has no bit left for the last one; an individual that is
    up to 15 bits short still decodes, its last block read from the bits
    there are. *)
Theorem decode_individual_error_iff (self : PBIL) (individual : list bool) :
  bounded_space (parameters self) ->
  let short :=
    parameters self <> []
    /\ (length individual <= 16 * (length (parameters self) - 1))%nat in
  (decode_individual self individual = Raise ValueError <-> short)
  /\ (~ short -> exists config, decode_individual self individual = Ok config).
Proof.
  intros Hb short. unfold decode_individual.
  assert (~ short ->
          exists config,
            decode_from 0 (parameters self) individual ∅ = Ok config) as Hok.
  { intros Hns. apply decode_from_total; [exact Hb |]. intros j Hj.
    destruct (le_lt_dec (length individual) (16 * (length (parameters self) - 1)))
      as [Hle | Hgt]; [| lia].
    exfalso. apply Hns. split; [| exact Hle].
    intros E. rewrite E in Hj. simpl in Hj. lia. }
  split; [split |].
  - intros Hraise.
    destruct (le_lt_dec (length individual) (16 * (length (parameters self) - 1)))
      as [Hle | Hgt].
    + split; [| exact Hle]. intros E. rewrite E in Hraise. discriminate.
    + destruct Hok as [config Hc]; [intros [_ Hle]; lia | congruence].
  - intros [Hne Hle]. apply decode_from_raises; [exact Hb |].
    exists (length (parameters self) - 1)%nat.
    destruct (parameters self); [congruence | simpl in *; lia].
  - exact Hok.
Qed.

Lemma decode_individual_error_iff_witness :
  let short :=
    parameters (PBIL_default [depth]) <> []
    /\ (length (repeat true 5)
        <= 16 * (length (parameters (PBIL_default [depth])) - 1))%nat in
  (decode_individual (PBIL_default [depth]) (repeat true 5) = Raise ValueError
   <-> short)
  /\ (~ short ->
      exists config,
        decode_individual (PBIL_default [depth]) (repeat true 5) = Ok config).
Proof.
  apply (decode_individual_error_iff (PBIL_default [depth]) (repeat true 5)).
  repeat constructor; apply bounded_PyInt; by_evaluation.
Defined.

(** A name that no parameter declares keeps the entry it had. *)
Lemma decode_from_other (individual : list bool) (params : list Param)
    (n : string) :
  ~ In n (map name params) ->
  forall (i : nat) (acc config : Configuration),
    decode_from i params individual acc = Ok config ->
    config !! n = acc !! n.
Proof.
  induction params as [| param params IH]; intros Hn i acc config Hrun;
    cbn [decode_from] in Hrun.
  - congruence.
  - cbn [map In] in Hn.
    destruct (decode param (slice individual (i * 16) ((i + 1) * 16)))
      as [v | e]; cbn [bind] in Hrun; [| discriminate].
    rewrite (IH ltac:(tauto) _ _ _ Hrun).
    apply lookup_insert_ne. tauto.
Qed.

Lemma decode_from_names (individual : list bool) (params : list Param) :
  forall (i : nat) (acc config : Configuration) (n : string),
    decode_from i params individual acc = Ok config ->
    (is_Some (config !! n) <-> is_Some (acc !! n) \/ In n (map name params)).
Proof.
  induction params as [| param params IH]; intros i acc config n Hrun;
    cbn [decode_from] in Hrun.
  - injection Hrun as <-. cbn. tauto.
  - destruct (decode param (slice individual (i * 16) ((i + 1) * 16)))
      as [v | e]; cbn [bind] in Hrun; [| discriminate].
    rewrite (IH _ _ _ n Hrun). cbn [map In].
    destruct (decide (name param = n)) as [-> | Hne].
    + rewrite lookup_insert_eq. split; [tauto |].
      intros _. left. eexists; reflexivity.
    + rewrite lookup_insert_ne by exact Hne. tauto.
Qed.

Lemma decode_from_value (individual : list bool) (params : list Param) :
  forall (i j : nat) (acc config : Configuration) (p : Param),
    decode_from i params individual acc = Ok config ->
    params !! j = Some p ->
    (forall k q, (j < k)%nat -> params !! k = Some q -> name q <> name p) ->
    exists v,
      decode p (slice individual ((i + j) * 16) ((i + j + 1) * 16)) = Ok v
      /\ config !! name p = Some v.
Proof.
  induction params as [| param params IH]; intros i j acc config p Hrun Hj Hlast;
    [discriminate |].
  cbn [decode_from] in Hrun.
  destruct (decode param (slice individual (i * 16) ((i + 1) * 16)))
    as [v | e] eqn:Hd; cbn [bind] in Hrun; [| discriminate].
  destruct j as [| j]; cbn in Hj.
  - injection Hj as ->. exists v.
    rewrite Nat.add_0_r. split; [exact Hd |].
    rewrite (decode_from_other individual params (name p)) with
      (i := S i) (acc := <[name p := v]> acc) (config := config);
      [apply lookup_insert_eq | | exact Hrun].
    intros Hin. apply in_map_iff in Hin. destruct Hin as [q [Hq Hin]].
    apply list_elem_of_In, list_elem_of_lookup in Hin. destruct Hin as [k Hk].
    apply (Hlast (S k) q); [lia | exact Hk | exact Hq].
  - destruct (IH (S i) j _ config p Hrun Hj) as [v' [Hv' Hc]].
    + intros k q Hk Hq. apply (Hlast (S k) q); [lia | exact Hq].
    + exists v'. replace (i + S j)%nat with (S i + j)%nat by lia.
      split; assumption.
Qed.

(** X12.  A configuration [decode_individual] returns has an entry for
    exactly the declared names, and a parameter that no later parameter
    shares its name with is mapped to the decoding of its own block of
    16 bits. *)
Theorem decode_individual_lookup (self : PBIL) (individual : list bool)
    (config : Configuration) :
  decode_individual self individual = Ok config ->
  (forall n : string,
      is_Some (config !! n) <-> In n (map name (parameters self)))
  /\ forall (j : nat) (p : Param),
       parameters self !! j = Some p ->
       (forall k q, (j < k)%nat -> parameters self !! k = Some q ->
                    name q <> name p) ->
       exists v,
         decode p (slice individual (j * 16) ((j + 1) * 16)) = Ok v
         /\ config !! name p = Some v.
Proof.
  unfold decode_individual. intros Hrun. split.
  - intros n. rewrite (decode_from_names _ _ _ _ _ n Hrun).
    rewrite lookup_empty. split; [intros [[x Hx] | Hin]; [discriminate | exact Hin] | tauto].
  - intros j p Hj Hlast.
    exact (decode_from_value individual (parameters self) 0 j ∅ config p
             Hrun Hj Hlast).
Qed.

Lemma decode_individual_lookup_witness :
  exists config : Configuration,
    decode_individual (PBIL_default [depth]) (repeat true 16) = Ok config
    /\ config !! "Depth"%string = Some (PyInt 10).
Proof.
  destruct (decode_individual (PBIL_default [depth]) (repeat true 16))
    as [config | e] eqn:E.
  - exists config. split; [reflexivity |].
    destruct (proj2 (decode_individual_lookup
                       (PBIL_default [depth]) (repeat true 16) config E)
                0%nat depth eq_refl) as [v [Hv Hc]].
    + intros k q Hk Hq. destruct k as [| k]; [lia | discriminate Hq].
    + cbn [name depth] in Hc. rewrite Hc. f_equal.
      vm_compute in Hv. congruence.
  - exfalso. vm_compute in E. discriminate E.
Defined.

Lemma fold_defaults_other (params : list Param) (n : string) :
  ~ In n (map name params) ->
  forall acc : Configuration,
    fold_left (fun d param => <[name param := default_value param]> d)
              params acc !! n
    = acc !! n.
Proof.
  induction params as [| param params IH]; intros Hn acc; cbn [fold_left];
    [reflexivity |].
  cbn [map In] in Hn. rewrite IH by tauto. apply lookup_insert_ne. tauto.
Qed.

Lemma fold_defaults_names (params : list Param) (n : string) :
  forall acc : Configuration,
    is_Some (fold_left
               (fun d param => <[name param := default_value param]> d)
               params acc !! n)
    <-> is_Some (acc !! n) \/ In n (map name params).
Proof.
  induction params as [| param params IH]; intros acc; cbn [fold_left map In].
  - tauto.
  - rewrite IH. destruct (decide (name param = n)) as [-> | Hne].
    + rewrite lookup_insert_eq. split; [tauto |].
      intros _. left. eexists; reflexivity.
    + rewrite lookup_insert_ne by exact Hne. tauto.
Qed.

Lemma fold_defaults_value (params : list Param) :
  forall (j : nat) (acc : Configuration) (p : Param),
    params !! j = Some p ->
    (forall k q, (j < k)%nat -> params !! k = Some q -> name q <> name p) ->
    fold_left (fun d param => <[name param := default_value param]> d)
              params acc !! name p
    = Some (default_value p).
Proof.
  induction params as [| param params IH]; intros j acc p Hj Hlast;
    [discriminate |].
  cbn [fold_left]. destruct j as [| j]; cbn in Hj.
  - injection Hj as ->. rewrite fold_defaults_other; [apply lookup_insert_eq |].
    intros Hin. apply in_map_iff in Hin. destruct Hin as [q [Hq Hin]].
    apply list_elem_of_In, list_elem_of_lookup in Hin. destruct Hin as [k Hk].
    apply (Hlast (S k) q); [lia | exact Hk | exact Hq].
  - apply (IH j); [exact Hj |].
    intros k q Hk Hq. apply (Hlast (S k) q); [lia | exact Hq].
Qed.

(** X13.  The default configuration of an evaluator has an entry for
    exactly the declared names; each maps to the default of the last
    parameter declared under that name. *)
Theorem default_params_lookup (engine cutechess : string)
    (uci_parameters : list Param) :
  let evaluator := EngineEvaluator_init engine cutechess uci_parameters in
  (forall n : string,
      is_Some (default_params evaluator !! n)
      <-> In n (map name uci_parameters))
  /\ forall (j : nat) (p : Param),
       uci_parameters !! j = Some p ->
       (forall k q, (j < k)%nat -> uci_parameters !! k = Some q ->
                    name q <> name p) ->
       default_params evaluator !! name p = Some (default_value p).
Proof.
  cbn [default_params EngineEvaluator_init]. split.
  - intros n. rewrite fold_defaults_names, lookup_empty.
    split; [intros [[x Hx] | Hin]; [discriminate | exact Hin] | tauto].
  - intros j p Hj Hlast. apply (fold_defaults_value _ j); assumption.
Qed.

(** * Further properties of the tournament results *)

Lemma scan_scores_nonblank {world : Type} `{Host world}
    (rows : list (list ascii)) :
  Forall (fun row => strip row <> []) rows ->
  scan_scores rows
  = omap (fun row => option_map (fun x => x / 100) (score_of_line row)) rows.
Proof.
  induction 1 as [| row rows Hrow Hrows IH]; [reflexivity |].
  cbn [scan_scores omap].
  destruct (strip row) as [| c cs]; [congruence |].
  unfold list_omap. cbn [omap]. fold (@list_omap (list ascii) Q).
  destruct (score_of_line row) as [x |]; cbn [option_map]; rewrite IH;
    reflexivity.
Qed.

Lemma scan_scores_blank {world : Type} `{Host world}
    (rows rest : list (list ascii)) (blank : list ascii) :
  strip blank = [] ->
  scan_scores (rows ++ blank :: rest) = scan_scores rows.
Proof.
  intros Hblank. induction rows as [| row rows IH]; cbn [app scan_scores].
  - rewrite Hblank. reflexivity.
  - destruct (strip row); [reflexivity |].
    destruct (score_of_line row); rewrite IH; reflexivity.
Qed.

Lemma scan_scores_length {world : Type} `{Host world}
    (lines : list (list ascii)) :
  (length (scan_scores lines) <= length lines)%nat.
Proof.
  induction lines as [| line lines IH]; cbn [scan_scores length]; [lia |].
  destruct (strip line); [cbn; lia |].
  destruct (score_of_line line); cbn [length]; lia.
Qed.

Lemma first_index_found {A : Type} (P : A -> bool) (pre : list A) (a : A)
    (rest : list A) :
  Forall (fun x => P x = false) pre -> P a = true ->
  forall i : Z,
    first_index P i (pre ++ a :: rest) = (i + Z.of_nat (length pre))%Z.
Proof.
  intros Hpre Ha. induction Hpre as [| x pre Hx Hpre IH]; intros i;
    cbn [app first_index length].
  - rewrite Ha. lia.
  - rewrite Hx, IH. lia.
Qed.

Lemma first_index_range {A : Type} (P : A -> bool) (l : list A) :
  forall i : Z,
    first_index P i l = (-1)%Z
    \/ (i <= first_index P i l < i + Z.of_nat (length l))%Z.
Proof.
  induction l as [| a l IH]; intros i; cbn [first_index length].
  - left. reflexivity.
  - destruct (P a); [right; lia |].
    destruct (IH (i + 1)%Z) as [-> | Hr]; [left; reflexivity | right; lia].
Qed.

Lemma split_on_nonempty (sep : ascii) (s : list ascii) :
  (1 <= length (split_on sep s))%nat.
Proof.
  induction s as [| c s IH]; cbn [split_on]; [simpl; lia |].
  destruct (Ascii.eqb c sep); [simpl; lia |].
  destruct (split_on sep s); simpl in *; lia.
Qed.

(** X14.  A tournament output in which the first line that starts with
    ["Rank Name"] is followed by rows up to a blank line yields the
    scores of exactly those rows, in order: a row whose last field but
    one is a number (after trailing ["%"] are removed) gives that number
    over 100, any other row is skipped; the text before the header and
    after the blank line is not read. *)
Theorem parse_tournament_results_table {world : Type} `{Host world}
    (output : list ascii) (pre rows rest : list (list ascii))
    (header blank : list ascii) :
  split_on "010" (strip output) = pre ++ header :: rows ++ blank :: rest ->
  Forall (fun line =>
            startswith line (list_ascii_of_string "Rank Name") = false) pre ->
  startswith header (list_ascii_of_string "Rank Name") = true ->
  Forall (fun row => strip row <> []) rows ->
  strip blank = [] ->
  parse_tournament_results output
  = omap (fun row => option_map (fun x => x / 100) (score_of_line row)) rows.
Proof.
  intros Hlines Hpre Hheader Hrows Hblank.
  unfold parse_tournament_results. rewrite Hlines.
  rewrite (first_index_found _ pre header _ Hpre Hheader 0%Z).
  replace (0 + Z.of_nat (length pre) =? -1)%Z with false
    by (symmetry; apply Z.eqb_neq; lia).
  replace (Z.to_nat (0 + Z.of_nat (length pre) + 1)) with (length pre + 1)%nat
    by lia.
  replace (pre ++ header :: rows ++ blank :: rest)
    with ((pre ++ [header]) ++ rows ++ blank :: rest)
    by (rewrite <- app_assoc; reflexivity).
  replace (length pre + 1)%nat with (length (pre ++ [header]))
    by (rewrite length_app; reflexivity).
  rewrite drop_app_length, scan_scores_blank by exact Hblank.
  apply scan_scores_nonblank. exact Hrows.
Qed.

Lemma parse_tournament_results_table_witness :
  @parse_tournament_results unit steady ranking_table
  = [60 / 100; 50 / 100; 47 / 100; 43 / 100].
Proof.
  pose (lines := split_on "010" (strip ranking_table)).
  refine (eq_trans
            (parse_tournament_results_table (world := unit) ranking_table
               [] (take 4 (drop 1 lines)) (drop 6 lines) (nth 0 lines []) []
               _ _ _ _ _) _).
  - vm_compute. reflexivity.
  - constructor.
  - vm_compute. reflexivity.
  - vm_compute. repeat constructor; discriminate.
  - reflexivity.
  - vm_compute. reflexivity.
Defined.

Lemma parse_without_table_witness :
  @parse_tournament_results unit steady [] = []
  /\ @parse_tournament_results unit steady no_table = [].
Proof.
  split; apply parse_without_table; vm_compute; repeat constructor.
Defined.

(** X16.  The parser never returns more scores than the output has
    lines after its first one. *)
Theorem parse_tournament_results_length {world : Type} `{Host world}
    (output : list ascii) :
  (length (parse_tournament_results output)
   <= length (split_on "010" (strip output)) - 1)%nat.
Proof.
  unfold parse_tournament_results.
  set (lines := split_on "010" (strip output)).
  pose proof (split_on_nonempty "010" (strip output)) as Hne. fold lines in Hne.
  destruct (first_index_range
              (fun line => startswith line (list_ascii_of_string "Rank Name"))
              lines 0%Z) as [-> | Hr].
  - cbn. lia.
  - replace (_ =? -1)%Z with false by (symmetry; apply Z.eqb_neq; lia).
    etransitivity; [apply scan_scores_length |].
    rewrite length_drop. lia.
Qed.

(** * Further properties of the driver *)

(** [np.argsort] orders the indices by ascending value. *)
Lemma argsort_insert_sorted (a : list Q) (i : nat) (sorted : list nat) :
  StronglySorted (fun x y => nth x a 0 <= nth y a 0) sorted ->
  StronglySorted (fun x y => nth x a 0 <= nth y a 0) (argsort_insert a i sorted).
Proof.
  induction 1 as [| j rest Hrest IH Hj]; cbn [argsort_insert].
  - repeat constructor.
  - destruct (Qltb (nth i a 0) (nth j a 0)) eqn:E.
    + apply Qltb_lt in E. constructor; [constructor; assumption |].
      constructor; [lra |].
      eapply Forall_impl; [exact Hj |]. cbn. intros k Hk. lra.
    + apply Qltb_ge in E. constructor; [exact IH |].
      apply (Permutation_Forall (Permutation_sym (argsort_insert_perm a i rest))).
      constructor; assumption.
Qed.

Lemma argsort_sorted (a : list Q) :
  StronglySorted (fun x y => nth x a 0 <= nth y a 0) (argsort a).
Proof.
  unfold argsort.
  assert (forall indices acc,
    StronglySorted (fun x y => nth x a 0 <= nth y a 0) acc ->
    StronglySorted (fun x y => nth x a 0 <= nth y a 0)
      (fold_left (fun sorted i => argsort_insert a i sorted) indices acc)) as Hfold.
  { induction indices as [| i indices IH]; intros acc Hacc; cbn [fold_left];
      [exact Hacc |].
    apply IH, argsort_insert_sorted, Hacc. }
  apply Hfold. constructor.
Qed.

Lemma sorted_last_max (R : nat -> nat -> Prop) (l : list nat) :
  (forall x, R x x) ->
  StronglySorted R l ->
  forall m rest, rev l = m :: rest -> forall x, In x l -> R x m.
Proof.
  intros Hrefl. induction 1 as [| x0 l Hl IH Hx0]; intros m rest Hrev x Hin.
  - destruct Hin.
  - cbn [rev] in Hrev. destruct (rev l) as [| m' rest'] eqn:E.
    + assert (l = []) as -> by (apply (f_equal (@rev nat)) in E;
                               rewrite rev_involutive in E; exact E).
      cbn in Hrev. injection Hrev as <- <-.
      destruct Hin as [<- | []]. apply Hrefl.
    + cbn in Hrev. injection Hrev as <- <-.
      assert (In m' l) as Hm.
      { apply in_rev. rewrite E. left. reflexivity. }
      destruct Hin as [<- | Hin].
      * apply (proj1 (List.Forall_forall _ _) Hx0). exact Hm.
      * apply (IH m' rest' eq_refl x Hin).
Qed.

(** The score at the first index of the reversed [argsort] is a maximum
    of the scores. *)
Lemma best_index_max (scores : list Q) (i : nat) :
  rev (argsort scores) !! 0%nat = Some i ->
  forall (j : nat) (x y : Q),
    scores !! j = Some x -> scores !! i = Some y -> x <= y.
Proof.
  intros Hbest j x y Hx Hy.
  destruct (rev (argsort scores)) as [| m rest] eqn:E; [discriminate |].
  cbn in Hbest. injection Hbest as ->.
  assert (In j (argsort scores)) as Hj.
  { apply (Permutation_in _ (Permutation_sym (argsort_perm scores))).
    apply in_seq. apply lookup_lt_Some in Hx. lia. }
  pose proof (sorted_last_max (fun x y => nth x scores 0 <= nth y scores 0)
                (argsort scores) (fun x => Qle_refl _) (argsort_sorted scores)
                i rest E j Hj) as Hmax.
  cbn in Hmax.
  rewrite (nth_lookup_Some _ _ _ _ Hx), (nth_lookup_Some _ _ _ _ Hy) in Hmax.
  exact Hmax.
Qed.

Section RecordFacts.
Context {rng : Type} `{RandomSource rng} {world : Type} `{Host world}.

(** What one completed turn of the loop has read and written. *)
Lemma main_body_inversion (evaluator : EngineEvaluator) (g : nat)
    (st st' : Driver rng world) :
  main_body evaluator g st = Ok st' ->
  exists (decoded : list Configuration) (scores : list Q) (best_index : nat)
         (r : GenerationRecord),
    for_list (decode_individual (pbil st))
             (fst (generate_population (pbil st) 3 (rand st))) = Ok decoded
    /\ run_tournament (default_params evaluator :: decoded) (env st)
       = (scores, env st')
    /\ rand st' = snd (generate_population (pbil st) 3 (rand st))
    /\ rev (argsort scores) !! 0%nat = Some best_index
    /\ (default_params evaluator :: decoded) !! best_index
       = Some (rec_parameters r)
    /\ scores !! best_index = Some (score r)
    /\ scores !! 0%nat = Some (default_score r)
    /\ generation r = g
    /\ results_file st' = results_file st ++ [r].
Proof.
  unfold main_body.
  destruct (generate_population (pbil st) 3 (rand st)) as [population s1].
  destruct (for_list (decode_individual (pbil st)) population)
    as [decoded | e] eqn:Hdec; cbn [bind]; [| discriminate].
  destruct (run_tournament (default_params evaluator :: decoded) (env st))
    as [fitness_scores w1] eqn:Hrt.
  unfold index.
  destruct (rev (argsort fitness_scores) !! 0%nat) as [best_index |] eqn:Hbi;
    cbn [bind]; [| discriminate].
  destruct ((default_params evaluator :: decoded) !! best_index)
    as [best_params |] eqn:Hbp; cbn [bind]; [| discriminate].
  destruct (fitness_scores !! best_index) as [best_score |] eqn:Hbs;
    cbn [bind]; [| discriminate].
  destruct (fitness_scores !! 0%nat) as [default_score0 |] eqn:Hds;
    cbn [bind]; [| discriminate].
  intros E. injection E as <-.
  exists decoded, fitness_scores, best_index,
    {| generation := g; rec_parameters := best_params; score := best_score;
       default_score := default_score0 |}.
  cbn [fst snd env rand results_file rec_parameters score
       default_score generation].
  repeat split; try reflexivity; assumption.
Qed.

End RecordFacts.



Section RunFacts.
Context {rng : Type} `{RandomSource rng} {world : Type} `{Host world}.

(** The log only grows, one record a generation, and every record keeps
    a property that each turn of the loop gives the record it writes. *)
Lemma main_loop_log (evaluator : EngineEvaluator) (P : GenerationRecord -> Prop) :
  (forall g st st' r,
      main_body evaluator g st = Ok st' ->
      results_file st' = results_file st ++ [r] -> P r) ->
  forall (n g : nat) (st st' : Driver rng world),
    for_each (main_body evaluator) (seq g n) st = Ok st' ->
    exists records,
      results_file st' = results_file st ++ records
      /\ map generation records = seq g n
      /\ Forall P records.
Proof.
  intros HP. induction n as [| n IH]; intros g st st' Hrun;
    cbn [seq for_each] in Hrun.
  - injection Hrun as <-. exists []. rewrite app_nil_r.
    repeat split. constructor.
  - destruct (main_body evaluator g st) as [st1 | e] eqn:E;
      cbn [bind] in Hrun; [| discriminate].
    destruct (main_body_inversion evaluator g st st1 E)
      as (_ & _ & _ & r & _ & _ & _ & _ & _ & _ & _ & Hg & Hlog).
    destruct (IH (S g) st1 st' Hrun) as (records & Hrec & Hgen & Hall).
    exists (r :: records). rewrite Hrec, Hlog, <- app_assoc.
    split; [reflexivity |]. split; [cbn; congruence |].
    constructor; [exact (HP g st st1 r E Hlog) | exact Hall].
Qed.


End RunFacts.



(** X19.  Over a space of bounded numbers, when the tournament returns
    more scores than the four candidates and the single highest of them
    stands at index 4 or beyond, the turn of the loop raises an
    [IndexError]: that index has no configuration. *)
Theorem main_body_surplus_scores {rng : Type} `{RandomSource rng}
    {world : Type} `{Host world}
    (evaluator : EngineEvaluator) (g : nat) (st : Driver rng world)
    (scores : list Q) (m : nat) (top : Q) :
  well_formed (pbil st) ->
  bounded_space (parameters (pbil st)) ->
  (forall configs, fst (run_tournament configs (env st)) = scores) ->
  scores !! m = Some top ->
  (4 <= m)%nat ->
  (forall j x, j <> m -> scores !! j = Some x -> x < top) ->
  main_body evaluator g st = Raise IndexError.
Proof.
  intros Hwf Hb Hscores Hm Hbig Hstrict. unfold main_body.
  destruct (population_decodes (pbil st) (rand st) Hwf Hb) as [decoded [Hd Hl]].
  destruct (generate_population (pbil st) 3 (rand st)) as [population s1].
  cbn [fst] in Hd. rewrite Hd. cbn [bind].
  specialize (Hscores (default_params evaluator :: decoded)).
  destruct (run_tournament (default_params evaluator :: decoded) (env st))
    as [fitness_scores w1].
  cbn [fst] in Hscores. subst fitness_scores.
  destruct (best_index_exists scores) as [best_index [Hbest Hlt]].
  { intros E. rewrite E in Hm. discriminate. }
  rewrite (index_Some _ _ _ Hbest). cbn [bind].
  destruct (lookup_lt_is_Some_2 scores best_index Hlt) as [y Hy].
  assert (best_index = m) as ->.
  { destruct (Nat.eq_dec best_index m) as [E | Hne]; [exact E |].
    pose proof (Hstrict best_index y Hne Hy) as Hlow.
    pose proof (best_index_max scores best_index Hbest m top y Hm Hy). lra. }
  unfold index at 1.
  rewrite (proj2 (lookup_ge_None _ _)); [reflexivity |]. simpl. lia.
Qed.

Lemma main_body_surplus_scores_witness :
  main_body (world := list (option (list ascii)))
    (EngineEvaluator_init "engine" "cutechess-cli" [depth]) 0
    {| pbil := PBIL_default [depth]; rand := 0%nat;
       env := [Some (list_ascii_of_string
"Rank Name Score Draw
1 a 10% 0
2 b 20% 0
3 c 30% 0
4 d 40% 0
5 e 50% 0")];
       results_file := [] |}
  = Raise IndexError.
Proof.
  apply (main_body_surplus_scores _ _ _
           [10 / 100; 20 / 100; 30 / 100; 40 / 100; 50 / 100] 4 (50 / 100)).
  - apply PBIL_init_well_formed.
  - repeat constructor; apply bounded_PyInt; by_evaluation.
  - intros configs. vm_compute. reflexivity.
  - reflexivity.
  - lia.
  - intros j x Hj Hx.
    do 5 (destruct j as [| j]; [cbn in Hx; injection Hx as <-;
                               first [reflexivity | congruence] |]).
    discriminate Hx.
Defined.

(** X20.  Over a space of bounded numbers, a tournament that fails with
    [CalledProcessError] at every run does not stop [main]: all ten
    generations are recorded, each with [score] and [default_score]
    equal to the sentinel 0.0. *)
Theorem main_survives_failed_tournaments {rng : Type} `{RandomSource rng}
    {world : Type} `{Host world}
    (engine_path cutechess_cli : string) (params : list Param)
    (s : rng) (w : world) :
  bounded_space params ->
  (forall configs w', fst (subprocess_run configs w') = None) ->
  exists d : Driver rng world,
    main engine_path cutechess_cli params s w = Ok d
    /\ map generation (results_file d) = seq 0 10
    /\ Forall (fun r => score r = 0 /\ default_score r = 0) (results_file d).
Proof.
  intros Hb Hfail.
  assert (forall configs w',
            fst (run_tournament configs w') = repeat 0 (length configs)) as Hzero.
  { intros configs w'. unfold run_tournament. specialize (Hfail configs w').
    destruct (subprocess_run configs w') as [[out |] w'']; cbn [fst] in *;
      [discriminate | reflexivity]. }
  unfold main, range.
  destruct (main_loop_ok
              (EngineEvaluator_init engine_path cutechess_cli params)
              (PBIL_default params)
              (proj1 (PBIL_init_well_formed params _ _ _ _)))
    with (n := 10%nat) (g := 0%nat)
         (st := {| pbil := PBIL_default params; rand := s; env := w;
                   results_file := @nil GenerationRecord |})
    as (d & Hrun & _).
  { exact Hb. }
  { intros configs w' Hlen. rewrite Hzero, repeat_length. lia. }
  { reflexivity. }
  exists d. cbn [ev_parameters EngineEvaluator_init]. split; [exact Hrun |].
  destruct (main_loop_log
              (EngineEvaluator_init engine_path cutechess_cli params)
              (fun r => score r = 0 /\ default_score r = 0))
    with (n := 10%nat) (g := 0%nat)
         (st := {| pbil := PBIL_default params; rand := s; env := w;
                   results_file := @nil GenerationRecord |}) (st' := d)
    as (records & Hrec & Hgen & Hall); [| exact Hrun |].
  - intros g st st' r Hbody Hlog.
    destruct (main_body_inversion _ g st st' Hbody)
      as (decoded & scores & best_index & r' & _ & Hrt & _ & _ & _ & Hbs & Hds
          & _ & Hlog').
    rewrite Hlog' in Hlog. apply app_inv_head in Hlog. injection Hlog as ->.
    pose proof (Hzero (default_params
                         (EngineEvaluator_init engine_path cutechess_cli params)
                       :: decoded) (env st)) as Hz.
    rewrite Hrt in Hz. cbn [fst] in Hz. rewrite Hz in Hbs, Hds.
    split; eapply repeat_lookup; eassumption.
  - cbn [results_file app] in Hrec. rewrite Hrec. split; assumption.
Qed.

Lemma main_survives_failed_tournaments_witness :
  exists d : Driver nat bool,
    main "engine" "cutechess-cli" [depth] 0%nat true = Ok d
    /\ map generation (results_file d) = seq 0 10
    /\ Forall (fun r => score r = 0 /\ default_score r = 0) (results_file d).
Proof.
  apply (main_survives_failed_tournaments "engine" "cutechess-cli" [depth]
           0%nat true).
  - repeat constructor; apply bounded_PyInt; by_evaluation.
  - intros configs w'. reflexivity.
Defined.

(** * Properties of the discovery of the parameters *)

Lemma str_eqb_eq (s t : list ascii) : str_eqb s t = true <-> s = t.
Proof.
  revert t. induction s as [| c s IH]; intros [| d t]; cbn [str_eqb];
    try (split; [discriminate | congruence]); [tauto |].
  rewrite andb_true_iff, Ascii.eqb_eq, IH. split; [intros [-> ->] | intros E];
    [reflexivity | injection E; auto].
Qed.

Section ExtractFacts.
Variable int_of_string : list ascii -> option Z.

Lemma parse_option_integer (line : list ascii) (p : Param) :
  parse_option int_of_string line = Ok (Some p) ->
  is_integer p = true
  /\ is_int (min_value p) /\ is_int (max_value p) /\ is_int (default_value p).
Proof.
  unfold parse_option.
  destruct (index (split_ws [] line) 2) as [nm | e]; cbn [bind]; [| discriminate].
  destruct (contains line (list_ascii_of_string "spin")); [| discriminate].
  destruct (int_after int_of_string "min" (split_ws [] line)) as [a | e];
    cbn [bind]; [| discriminate].
  destruct (int_after int_of_string "max" (split_ws [] line)) as [b | e];
    cbn [bind]; [| discriminate].
  destruct (int_after int_of_string "default" (split_ws [] line)) as [d | e];
    cbn [bind]; [| discriminate].
  intros E. injection E as <-. cbn.
  split; [reflexivity |]. repeat split; eexists; reflexivity.
Qed.

Lemma extract_loop_invariant (P : Param -> Prop) :
  (forall line p, parse_option int_of_string line = Ok (Some p) -> P p) ->
  forall (fuel : nat) (stdout : list (list ascii)) (acc ps : list Param),
    extract_loop int_of_string fuel stdout acc = Some (Ok ps) ->
    Forall P acc -> Forall P ps.
Proof.
  intros HP. induction fuel as [| fuel IH]; intros stdout acc ps Hrun Hacc;
    cbn [extract_loop] in Hrun; [discriminate |].
  destruct (readline stdout) as [raw rest].
  destruct (startswith (strip raw) (list_ascii_of_string "option name")).
  - destruct (parse_option int_of_string (strip raw)) as [[p |] | e] eqn:E;
      [| eauto | discriminate].
    apply (IH _ _ _ Hrun). apply Forall_app. split; [exact Hacc |].
    constructor; [exact (HP _ _ E) | constructor].
  - destruct (str_eqb (strip raw) (list_ascii_of_string "uciok")); [| eauto].
    injection Hrun as <-. exact Hacc.
Qed.

(** Without a line ["uciok"] the loop does not reach its [break]. *)
Lemma extract_loop_no_uciok (stdout : list (list ascii)) :
  Forall (fun raw => str_eqb (strip raw) (list_ascii_of_string "uciok") = false)
         stdout ->
  forall (fuel : nat) (acc : list Param),
    extract_loop int_of_string fuel stdout acc = None
    \/ exists e, extract_loop int_of_string fuel stdout acc = Some (Raise e).
Proof.
  intros Hno fuel. revert stdout Hno.
  induction fuel as [| fuel IH]; intros stdout Hno acc; cbn [extract_loop];
    [left; reflexivity |].
  assert (str_eqb (strip (fst (readline stdout)))
                  (list_ascii_of_string "uciok") = false
          /\ Forall (fun raw =>
                       str_eqb (strip raw) (list_ascii_of_string "uciok") = false)
                    (snd (readline stdout))) as [Hraw Hrest].
  { destruct Hno as [| raw rest Hraw Hrest]; cbn; split;
      first [reflexivity | assumption | constructor]. }
  destruct (readline stdout) as [raw rest]. cbn [fst snd] in *.
  destruct (startswith (strip raw) (list_ascii_of_string "option name")).
  - destruct (parse_option int_of_string (strip raw)) as [[p |] | e];
      [apply IH | apply IH | right; eexists; reflexivity]; exact Hrest.
  - rewrite Hraw. apply IH. exact Hrest.
Qed.

Lemma extract_loop_quiet (stdout : list (list ascii)) :
  Forall (fun raw =>
            startswith (strip raw) (list_ascii_of_string "option name") = false
            /\ str_eqb (strip raw) (list_ascii_of_string "uciok") = false)
         stdout ->
  forall (fuel : nat) (acc : list Param),
    extract_loop int_of_string fuel stdout acc = None.
Proof.
  intros Hq fuel. revert stdout Hq.
  induction fuel as [| fuel IH]; intros stdout Hq acc; cbn [extract_loop];
    [reflexivity |].
  destruct Hq as [| raw rest [Ho Hu] Hrest]; cbn [readline].
  - cbn. apply IH. constructor.
  - rewrite Ho, Hu. apply IH. exact Hrest.
Qed.

(** The readable lines in front are read one a turn; what they declare
    is appended to the list. *)
Lemma extract_loop_prefix (pre : list (list ascii)) :
  Forall (readable_line int_of_string) pre ->
  forall (fuel : nat) (tail : list (list ascii)) (acc : list Param),
    extract_loop int_of_string (length pre + fuel) (pre ++ tail) acc
    = extract_loop int_of_string fuel tail
        (acc ++ omap (declared_by int_of_string) pre).
Proof.
  induction 1 as [| raw pre Hraw Hpre IH]; intros fuel tail acc.
  - cbn [length app omap]. rewrite app_nil_r. reflexivity.
  - cbn [length app Nat.add extract_loop readline].
    unfold readable_line in Hraw.
    change (omap (declared_by int_of_string) (raw :: pre))
      with (match declared_by int_of_string raw with
            | Some p => p :: omap (declared_by int_of_string) pre
            | None => omap (declared_by int_of_string) pre
            end).
    unfold declared_by.
    destruct (startswith (strip raw) (list_ascii_of_string "option name")).
    + destruct Hraw as [declared Hd]. rewrite Hd.
      destruct declared as [p |]; rewrite IH; [| reflexivity].
      rewrite <- app_assoc. reflexivity.
    + rewrite Hraw, IH. reflexivity.
Qed.

Lemma extract_loop_short (pre : list (list ascii)) :
  Forall (readable_line int_of_string) pre ->
  forall (fuel : nat) (tail : list (list ascii)) (acc : list Param),
    (fuel <= length pre)%nat ->
    extract_loop int_of_string fuel (pre ++ tail) acc = None.
Proof.
  induction 1 as [| raw pre Hraw Hpre IH]; intros fuel tail acc Hfuel.
  - cbn in Hfuel. replace fuel with 0%nat by lia. reflexivity.
  - destruct fuel as [| fuel]; [reflexivity |].
    cbn [length] in Hfuel. cbn [app extract_loop readline].
    unfold readable_line in Hraw.
    destruct (startswith (strip raw) (list_ascii_of_string "option name")).
    + destruct Hraw as [declared Hd]. rewrite Hd.
      destruct declared as [p |]; apply IH; lia.
    + rewrite Hraw. apply IH. lia.
Qed.

End ExtractFacts.

(** X21.  Every parameter [extract_uci_parameters] returns is an integer
    parameter whose bounds and default are whole numbers. *)
Theorem extract_integer_parameters (int_of_string : list ascii -> option Z)
    (fuel : nat) (started : option (list (list ascii))) (stopped : bool)
    (ps : list Param) :
  extract_uci_parameters int_of_string fuel started stopped = Some ps ->
  Forall (fun p => is_integer p = true
                   /\ is_int (min_value p) /\ is_int (max_value p)
                   /\ is_int (default_value p)) ps.
Proof.
  unfold extract_uci_parameters. intros Hrun.
  destruct started as [stdout |]; [| injection Hrun as <-; constructor].
  destruct (extract_loop int_of_string fuel stdout []) as [[found | e] |] eqn:E;
    [| injection Hrun as <-; constructor | discriminate].
  destruct stopped; injection Hrun as <-; [| constructor].
  eapply extract_loop_invariant; [| exact E | constructor].
  intros line p Hp. exact (parse_option_integer int_of_string line p Hp).
Qed.

Lemma extract_integer_parameters_witness :
  exists ps : list Param,
    extract_uci_parameters signed_decimal 10 (Some uci_dialogue) true = Some ps
    /\ length ps = 2%nat
    /\ Forall (fun p => is_integer p = true
                        /\ is_int (min_value p) /\ is_int (max_value p)
                        /\ is_int (default_value p)) ps.
Proof.
  destruct (extract_uci_parameters signed_decimal 10 (Some uci_dialogue) true)
    as [ps |] eqn:E.
  - exists ps. split; [reflexivity |]. split.
    + vm_compute in E. injection E as <-. reflexivity.
    + exact (extract_integer_parameters signed_decimal 10 (Some uci_dialogue)
               true ps E).
  - exfalso. vm_compute in E. discriminate E.
Defined.

(** X22.  When the engine prints no line ["uciok"], the function returns
    no parameter, however many turns its loop is given: it is still in
    the loop, or an exception has emptied the list.  When the engine
    prints no line that starts with ["option name"] either, the loop is
    never left. *)
Theorem extract_without_uciok (int_of_string : list ascii -> option Z)
    (stdout : list (list ascii)) :
  Forall (fun raw => str_eqb (strip raw) (list_ascii_of_string "uciok") = false)
         stdout ->
  (forall fuel stopped,
      extract_uci_parameters int_of_string fuel (Some stdout) stopped = None
      \/ extract_uci_parameters int_of_string fuel (Some stdout) stopped
         = Some [])
  /\ (Forall (fun raw =>
                startswith (strip raw) (list_ascii_of_string "option name")
                = false) stdout ->
      forall fuel stopped,
        extract_uci_parameters int_of_string fuel (Some stdout) stopped = None).
Proof.
  intros Hno. split.
  - intros fuel stopped. unfold extract_uci_parameters.
    destruct (extract_loop_no_uciok int_of_string stdout Hno fuel [])
      as [-> | [e ->]]; [left | right]; reflexivity.
  - intros Hnoopt fuel stopped. unfold extract_uci_parameters.
    rewrite extract_loop_quiet; [reflexivity |].
    apply Forall_forall. intros raw Hin. split.
    + exact (proj1 (Forall_forall _ _) Hnoopt raw Hin).
    + exact (proj1 (Forall_forall _ _) Hno raw Hin).
Qed.

Lemma extract_without_uciok_witness :
  extract_uci_parameters signed_decimal 100 (Some uci_silent) true = None
  \/ extract_uci_parameters signed_decimal 100 (Some uci_silent) true
     = Some [].
Proof.
  apply (proj1 (extract_without_uciok signed_decimal uci_silent
                  ltac:(vm_compute; repeat constructor)) 100%nat true).
Defined.

Lemma extract_loop_after_uciok (int_of_string : list ascii -> option Z)
    (uci : list ascii) (rest : list (list ascii)) (pre : list (list ascii)) :
  str_eqb (strip uci) (list_ascii_of_string "uciok") = true ->
  forall (fuel : nat) (acc : list Param),
    extract_loop int_of_string fuel (pre ++ uci :: rest) acc
    = extract_loop int_of_string fuel (pre ++ [uci]) acc.
Proof.
  intros Huci. induction pre as [| raw pre IH]; intros fuel acc;
    (destruct fuel as [| fuel]; [reflexivity |]);
    cbn [app extract_loop readline].
  - pose proof Huci as Heq. apply str_eqb_eq in Heq. rewrite Heq. reflexivity.
  - destruct (startswith (strip raw) (list_ascii_of_string "option name")).
    + destruct (parse_option int_of_string (strip raw)) as [[p |] | e];
        [apply IH | apply IH | reflexivity].
    + destruct (str_eqb (strip raw) (list_ascii_of_string "uciok"));
        [reflexivity | apply IH].
Qed.

(** X23.  What the engine prints after its line ["uciok"] is not read:
    the result is the same without it. *)
Theorem extract_ignores_after_uciok (int_of_string : list ascii -> option Z)
    (pre rest : list (list ascii)) (uci : list ascii)
    (fuel : nat) (stopped : bool) :
  str_eqb (strip uci) (list_ascii_of_string "uciok") = true ->
  extract_uci_parameters int_of_string fuel (Some (pre ++ uci :: rest)) stopped
  = extract_uci_parameters int_of_string fuel (Some (pre ++ [uci])) stopped.
Proof.
  intros Huci. unfold extract_uci_parameters.
  rewrite (extract_loop_after_uciok int_of_string uci rest pre Huci).
  reflexivity.
Qed.

Lemma extract_ignores_after_uciok_witness :
  extract_uci_parameters signed_decimal 10
    (Some (take 4 uci_dialogue ++ list_ascii_of_string "uciok"
           :: [list_ascii_of_string "readyok"])) true
  = extract_uci_parameters signed_decimal 10
      (Some (take 4 uci_dialogue ++ [list_ascii_of_string "uciok"])) true.
Proof.
  apply extract_ignores_after_uciok. reflexivity.
Defined.

(** X24.  One line that starts with ["option name"] and cannot be read
    (fewer than three words, or ["spin"] with no number after ["min"],
    ["max"] or ["default"]) makes the function return the empty list:
    the parameters read before it are lost. *)
Theorem extract_malformed_option (int_of_string : list ascii -> option Z)
    (pre rest : list (list ascii)) (bad : list ascii) (e : exn)
    (fuel : nat) (stopped : bool) :
  Forall (readable_line int_of_string) pre ->
  startswith (strip bad) (list_ascii_of_string "option name") = true ->
  parse_option int_of_string (strip bad) = Raise e ->
  (length pre < fuel)%nat ->
  extract_uci_parameters int_of_string fuel (Some (pre ++ bad :: rest)) stopped
  = Some [].
Proof.
  intros Hpre Hopt Hbad Hfuel. unfold extract_uci_parameters.
  replace fuel with (length pre + S (fuel - length pre - 1))%nat by lia.
  rewrite (extract_loop_prefix int_of_string pre Hpre).
  cbn [extract_loop readline]. rewrite Hopt, Hbad. reflexivity.
Qed.

Lemma extract_malformed_option_witness :
  extract_uci_parameters signed_decimal 10 (Some uci_malformed) true = Some [].
Proof.
  apply (extract_malformed_option signed_decimal
           (take 1 uci_malformed) (drop 2 uci_malformed)
           (list_ascii_of_string "option name Threads type spin default 1 min 1")
           ValueError 10 true).
  - constructor; [| constructor]. vm_compute. eexists; reflexivity.
  - reflexivity.
  - vm_compute. reflexivity.
  - cbn. lia.
Defined.

(** X25.  When every line before the first ["uciok"] can be read, the
    function returns, once its loop is given more turns than there are
    such lines, the parameters of the spin options among them in the
    order printed, provided the engine is shut down without an
    exception, and the empty list otherwise; with fewer turns it is
    still in the loop. *)
Theorem extract_declared_parameters (int_of_string : list ascii -> option Z)
    (pre rest : list (list ascii)) (uci : list ascii) (fuel : nat) :
  Forall (readable_line int_of_string) pre ->
  str_eqb (strip uci) (list_ascii_of_string "uciok") = true ->
  ((length pre < fuel)%nat ->
   extract_uci_parameters int_of_string fuel (Some (pre ++ uci :: rest)) true
   = Some (omap (declared_by int_of_string) pre)
   /\ extract_uci_parameters int_of_string fuel (Some (pre ++ uci :: rest)) false
      = Some [])
  /\ ((fuel <= length pre)%nat ->
      forall stopped,
        extract_uci_parameters int_of_string fuel (Some (pre ++ uci :: rest))
          stopped = None).
Proof.
  intros Hpre Huci. unfold extract_uci_parameters. split.
  - intros Hfuel.
    replace fuel with (length pre + S (fuel - length pre - 1))%nat by lia.
    rewrite (extract_loop_prefix int_of_string pre Hpre).
    cbn [extract_loop readline app].
    pose proof Huci as Heq. apply str_eqb_eq in Heq. rewrite Heq.
    split; reflexivity.
  - intros Hfuel stopped.
    rewrite (extract_loop_short int_of_string pre Hpre fuel _ [] Hfuel).
    reflexivity.
Qed.

Lemma extract_declared_parameters_witness :
  extract_uci_parameters signed_decimal 10 (Some uci_dialogue) true
  = Some [ {| name := "Hash"; min_value := PyInt 1; max_value := PyInt 1024;
              default_value := PyInt 16; is_integer := true |};
           {| name := "Contempt"; min_value := PyInt (-100);
              max_value := PyInt 100;
              default_value := PyInt 0; is_integer := true |} ].
Proof.
  refine (eq_trans
            (proj1 (proj1 (extract_declared_parameters signed_decimal
                             (take 4 uci_dialogue) (drop 5 uci_dialogue)
                             (list_ascii_of_string "uciok") 10 _ eq_refl)
                      _)) _).
  - repeat constructor; vm_compute; first [reflexivity | eexists; reflexivity].
  - cbn. lia.
  - vm_compute. reflexivity.
Defined.

